(** * astisub (TypeScript port): subtitle codecs and timeline operations

    A shallow embedding of the TypeScript sources
    [src/utils/html.ts], [src/utils/duration.ts], [src/utils/scanner.ts],
    [src/utils/helpers.ts], [src/formats/srt.ts] and [src/subtitles.ts],
    followed by theorems about them.

    Conventions of the embedding.
    - A JavaScript string is the list of its UTF-16 code units ([jsstring]);
      every string primitive the sources use ([trim], [split], [includes],
      [padStart], [parseInt], ...) is defined on that representation.
    - A [Duration] is a number of milliseconds.  The timeline operations that
      only add, compare and copy timestamps are embedded over [Z]; the one
      operation that divides ([applyLinearCorrection]) is embedded over
      [JsNumber.number], which has the non-finite values of IEEE arithmetic.
    - A function that mutates its [Subtitles] argument in place becomes a
      function from the old value to the new one; a function that can throw
      returns a [completion]. *)

From Stdlib Require Import String Ascii.
From Stdlib Require Import ZArith NArith List Bool Lia QArith Qround.
From Stdlib Require Import Permutation Sorted.
From Stdlib Require DecimalPos DecimalN.
From Equations Require Import Equations.
Import ListNotations.

Set Implicit Arguments.

(* ====================================================================== *)
(** * JavaScript strings                                                   *)
(* ====================================================================== *)

Module JsString.

Local Open Scope N_scope.

(** One UTF-16 code unit. *)
Definition char := N.
Definition jsstring := list char.

Definition ch (a : ascii) : char := N_of_ascii a.
Arguments ch a%_char.

(** An ASCII literal as a [jsstring]. *)
Definition lit (s : String.string) : jsstring :=
  List.map ch (String.list_ascii_of_string s).
Arguments lit s%_string.

Fixpoint eqb (s t : jsstring) : bool :=
  match s, t with
  | [], [] => true
  | c :: s', d :: t' => (c =? d) && eqb s' t'
  | _, _ => false
  end.

(** [s.startsWith(p)] *)
Fixpoint startsWith (p s : jsstring) : bool :=
  match p, s with
  | [], _ => true
  | c :: p', d :: s' => (c =? d) && startsWith p' s'
  | _ :: _, [] => false
  end.

(** [s.includes(p)] *)
Fixpoint includes (p s : jsstring) : bool :=
  startsWith p s ||
  match s with
  | [] => false
  | _ :: s' => includes p s'
  end.

(** The code units matched by [\s], removed by [trim] and skipped by
    [parseInt]: WhiteSpace and LineTerminator of ECMA-262. *)
Definition isWhiteSpace (c : char) : bool :=
  ((9 <=? c) && (c <=? 13)) || (c =? 32) || (c =? 160) || (c =? 5760)
  || ((8192 <=? c) && (c <=? 8202)) || (c =? 8232) || (c =? 8233)
  || (c =? 8239) || (c =? 8287) || (c =? 12288) || (c =? 65279).

Fixpoint trimStart (s : jsstring) : jsstring :=
  match s with
  | c :: s' => if isWhiteSpace c then trimStart s' else s
  | [] => []
  end.

Definition trimEnd (s : jsstring) : jsstring := rev (trimStart (rev s)).

Definition trim (s : jsstring) : jsstring := trimEnd (trimStart s).

(** [s.split(sep)] for a string separator.  [skip] counts the code units of
    the separator occurrence being consumed; [cur] is the segment being
    built, reversed. *)
Fixpoint split_scan (sep : jsstring) (skip : nat) (cur : jsstring) (s : jsstring)
  : list jsstring :=
  match s with
  | [] => [rev cur]
  | c :: t =>
      match skip with
      | S k => split_scan sep k cur t
      | O =>
          if startsWith sep s
          then rev cur :: split_scan sep (length sep - 1) [] t
          else split_scan sep 0 (c :: cur) t
      end
  end.

Definition split (sep : jsstring) (s : jsstring) : list jsstring :=
  match sep with
  | [] => List.map (fun c => [c]) s
  | _ => split_scan sep 0 [] s
  end.

(** [parts.join(sep)] *)
Fixpoint join (sep : jsstring) (parts : list jsstring) : jsstring :=
  match parts with
  | [] => []
  | [p] => p
  | p :: rest => p ++ sep ++ join sep rest
  end.

(** [s.padStart(n, c)] for a one-unit pad string. *)
Definition padStart (n : nat) (c : char) (s : jsstring) : jsstring :=
  repeat c (n - length s) ++ s.

(** [s.replace(re, f)] for a global regular expression [re] given by its
    matcher at a position: [m s] is the text [re] matches at the start of
    [s], when it matches there.  The scan is left to right; after a match it
    resumes behind the matched text ([skip] counts what is left of it). *)
Fixpoint replace_scan (m : jsstring -> option jsstring) (f : jsstring -> jsstring)
    (skip : nat) (s : jsstring) : jsstring :=
  match s with
  | [] => []
  | c :: t =>
      match skip with
      | S k => replace_scan m f k t
      | O =>
          match m s with
          | Some matched => f matched ++ replace_scan m f (length matched - 1) t
          | None => c :: replace_scan m f 0 t
          end
      end
  end.

Definition replace_global (m : jsstring -> option jsstring) (f : jsstring -> jsstring)
    (s : jsstring) : jsstring :=
  replace_scan m f 0 s.

(** Lookup in an object literal used as a map from strings to values. *)
Fixpoint record_get {V : Type} (tbl : list (jsstring * V)) (k : jsstring) : option V :=
  match tbl with
  | [] => None
  | (k', v) :: rest => if eqb k' k then Some v else record_get rest k
  end.

Definition isDigit (c : char) : bool := (48 <=? c) && (c <=? 57).

End JsString.

Import JsString.

(* ====================================================================== *)
(** * src/utils/html.ts                                                    *)
(* ====================================================================== *)

Module Html.

Local Open Scope N_scope.

Definition nbsp : char := 160.

Definition HTML_ESCAPE_MAP : list (jsstring * jsstring) :=
  [ (lit "&", lit "&amp;");
    (lit "<", lit "&lt;");
    ([nbsp], lit "&nbsp;") ].

Definition HTML_UNESCAPE_MAP : list (jsstring * jsstring) :=
  [ (lit "&amp;", lit "&");
    (lit "&lt;", lit "<");
    (lit "&nbsp;", [nbsp]);
    (lit "&gt;", lit ">");
    (lit "&quot;", [34]);
    (lit "&#39;", lit "'");
    (lit "&#x27;", lit "'") ].

(** [table[key] || key]: the entry when it exists and is a non-empty string. *)
Definition get_or_self (tbl : list (jsstring * jsstring)) (k : jsstring) : jsstring :=
  match record_get tbl k with
  | Some (c :: v) => c :: v
  | _ => k
  end.

(** The regular expression [/[&<\u00A0]/] at a position. *)
Definition match_escapable (s : jsstring) : option jsstring :=
  match s with
  | c :: _ => if (c =? ch "&") || (c =? ch "<") || (c =? nbsp) then Some [c] else None
  | [] => None
  end.

Definition escapeHTML (input : jsstring) : jsstring :=
  replace_global match_escapable (get_or_self HTML_ESCAPE_MAP) input.

(** The alternatives of [/&(?:amp|lt|gt|quot|nbsp|#39|#x27);/], in order. *)
Definition entity_names : list jsstring :=
  [ lit "amp"; lit "lt"; lit "gt"; lit "quot"; lit "nbsp"; lit "#39"; lit "#x27" ].

Fixpoint first_alternative (alts : list jsstring) (s : jsstring) : option jsstring :=
  match alts with
  | [] => None
  | a :: rest =>
      if startsWith (a ++ lit ";") s then Some a else first_alternative rest s
  end.

Definition match_entity (s : jsstring) : option jsstring :=
  match s with
  | c :: t =>
      if c =? ch "&"
      then option_map (fun a => ch "&" :: a ++ lit ";") (first_alternative entity_names t)
      else None
  | [] => None
  end.

Definition unescapeHTML (input : jsstring) : jsstring :=
  replace_global match_entity (get_or_self HTML_UNESCAPE_MAP) input.

(** The regular expression [/<[^>]*>/] at a position: the tag up to and
    including the first [>]. *)
Fixpoint upto_gt (s : jsstring) : option jsstring :=
  match s with
  | [] => None
  | c :: t => if c =? ch ">" then Some [c] else option_map (cons c) (upto_gt t)
  end.

Definition match_tag (s : jsstring) : option jsstring :=
  match s with
  | c :: t => if c =? ch "<" then option_map (cons c) (upto_gt t) else None
  | [] => None
  end.

Definition stripHTMLTags (input : jsstring) : jsstring :=
  replace_global match_tag (fun _ => []) input.

End Html.

(* ====================================================================== *)
(** * Integers as text: [Number.prototype.toString] and [parseInt]         *)
(* ====================================================================== *)

Module JsInt.

(** The integers of the embedding are exact; JavaScript agrees with them up
    to 2^53 in absolute value.  Beyond that its numbers round, and from
    10^21 on [toString] prints an exponent, which [toString] and [parseInt]
    below do not do: what is proved of sums, products and printed integers
    is stated for safe integers. *)

(** [Number.MAX_SAFE_INTEGER], and [Number.isSafeInteger] on the integers. *)
Definition MAX_SAFE_INTEGER : Z := 2 ^ 53 - 1.

Definition isSafeInteger (n : Z) : Prop :=
  (- MAX_SAFE_INTEGER <= n <= MAX_SAFE_INTEGER)%Z.

Fixpoint uint_chars (u : Decimal.uint) : jsstring :=
  match u with
  | Decimal.Nil => []
  | Decimal.D0 u' => 48%N :: uint_chars u'
  | Decimal.D1 u' => 49%N :: uint_chars u'
  | Decimal.D2 u' => 50%N :: uint_chars u'
  | Decimal.D3 u' => 51%N :: uint_chars u'
  | Decimal.D4 u' => 52%N :: uint_chars u'
  | Decimal.D5 u' => 53%N :: uint_chars u'
  | Decimal.D6 u' => 54%N :: uint_chars u'
  | Decimal.D7 u' => 55%N :: uint_chars u'
  | Decimal.D8 u' => 56%N :: uint_chars u'
  | Decimal.D9 u' => 57%N :: uint_chars u'
  end.

(** [n.toString()] for an integer [n]. *)
Definition toString (n : Z) : jsstring :=
  match n with
  | Zneg p => ch "-" :: uint_chars (Pos.to_uint p)
  | _ => uint_chars (N.to_uint (Z.to_N n))
  end.

Fixpoint takeWhile {A : Type} (p : A -> bool) (l : list A) : list A :=
  match l with
  | x :: l' => if p x then x :: takeWhile p l' else []
  | [] => []
  end.

(** The value of a string of decimal digits, most significant first. *)
Definition digits_value (ds : jsstring) : Z :=
  fold_left (fun acc c => 10 * acc + (Z.of_N c - 48))%Z ds 0%Z.

(** [parseInt(s, 10)]; [None] is NaN.  Leading white space is skipped, one
    sign is accepted, and the longest prefix of digits is the value. *)
Definition parseInt (s : jsstring) : option Z :=
  let s1 := trimStart s in
  let '(sign, s2) :=
    match s1 with
    | c :: t =>
        if (c =? ch "-")%N then ((-1)%Z, t)
        else if (c =? ch "+")%N then (1%Z, t)
        else (1%Z, s1)
    | [] => (1%Z, s1)
    end in
  match takeWhile isDigit s2 with
  | [] => None
  | ds => Some (sign * digits_value ds)%Z
  end.

End JsInt.

Import JsInt.

(* ====================================================================== *)
(** * Errors and completions                                               *)
(* ====================================================================== *)

(** The values the sources throw: [new Error(message)] and the two custom
    error classes of [src/types.ts]. *)
Inductive error : Type :=
| Error (message : jsstring)
| InvalidExtensionError
| NoSubtitlesToWriteError.

(** [`${e}`] for a thrown error [e]: its name, a colon and its message. *)
Definition error_toString (e : error) : jsstring :=
  match e with
  | Error m => lit "Error: " ++ m
  | InvalidExtensionError => lit "InvalidExtensionError: Invalid file extension"
  | NoSubtitlesToWriteError => lit "NoSubtitlesToWriteError: No subtitles to write"
  end.

(** How a call ends.  [Unrepresented]: the JavaScript run returns normally,
    but with a timestamp that the integers of the embedding do not
    represent: NaN from an unchecked [parseInt], or the product of a number
    other than zero with a negative power of ten (a binary64 rounding that
    the embedding does not compute).  The embedding records that such a
    value arose and does not follow it further. *)
Inductive completion (A : Type) : Type :=
| Normal (a : A)
| Throw (e : error)
| Unrepresented.
Arguments Throw {A} e.
Arguments Unrepresented {A}.

Definition bind {A B : Type} (c : completion A) (k : A -> completion B) : completion B :=
  match c with
  | Normal a => k a
  | Throw e => Throw e
  | Unrepresented => Unrepresented
  end.

Definition is_throw {A : Type} (c : completion A) : bool :=
  match c with Throw _ => true | _ => false end.

(* ====================================================================== *)
(** * src/utils/duration.ts                                                *)
(* ====================================================================== *)

Module Duration.

Local Open Scope Z_scope.

(** The local [milliseconds]: an integer, or [None] once it is a number the
    embedding does not represent. *)
Definition millis := option Z.

(** [milliseconds *= Math.pow(10, e)]: exact for [e >= 0] and for zero. *)
Definition scale_pow10 (ms : Z) (e : Z) : millis :=
  if e <? 0 then (if ms =? 0 then Some 0 else None) else Some (ms * 10 ^ e).

Definition parseDuration (input : jsstring) (millisecondSep : jsstring)
    (numberOfMillisecondDigits : Z) : completion Z :=
  let parts := split millisecondSep input in
  (* Split milliseconds *)
  let first :=
    if (2 <=? length parts)%nat then
      let msStr := trim (last parts []) in
      if (3 <? length msStr)%nat then
        Throw (Error (lit "Invalid number of millisecond digits detected in " ++ input))
      else
        match parseInt msStr with
        | None => Throw (Error (lit "Failed to parse milliseconds from " ++ msStr))
        | Some ms =>
            Normal (scale_pow10 ms (numberOfMillisecondDigits - Z.of_nat (length msStr)),
                    join millisecondSep (removelast parts))
        end
    else Normal (Some 0, input) in
  match first with
  | Throw e => Throw e
  | Unrepresented => Unrepresented
  | Normal (milliseconds, timeString) =>
      (* Split hours, minutes, and seconds *)
      let timeParts := split (lit ":") (trim timeString) in
      let fields :=
        match timeParts with
        | [m; s] =>
            Normal (Some 0, parseInt (trim m), parseInt (trim s), milliseconds)
        | [h; m; s] =>
            Normal (parseInt (trim h), parseInt (trim m), parseInt (trim s), milliseconds)
        | [h; m; s; ms] =>
            Normal (parseInt (trim h), parseInt (trim m), parseInt (trim s),
                    parseInt (trim ms))
        | _ => Throw (Error (lit "No hours, minutes or seconds detected in " ++ input))
        end in
      match fields with
      | Throw e => Throw e
      | Unrepresented => Unrepresented
      | Normal (Some hours, Some minutes, Some seconds, milliseconds) =>
          match milliseconds with
          | Some ms =>
              Normal (ms + seconds * 1000 + minutes * 60 * 1000 + hours * 60 * 60 * 1000)
          | None => Unrepresented
          end
      | Normal _ =>
          Throw (Error (lit "Failed to parse time components from " ++ input))
      end
  end.

(** [Math.floor(remaining / Math.pow(10, e))]; for a negative [e] (more
    than three digits asked for) the quotient is taken as the product with
    [10 ^ -e], without the rounding of binary64. *)
Definition div_pow10 (remaining : Z) (e : Z) : Z :=
  if e <? 0 then remaining * 10 ^ (- e) else remaining / 10 ^ e.

Definition formatDuration (duration : Z) (millisecondSep : jsstring)
    (numberOfMillisecondDigits : Z) : jsstring :=
  (* Calculate hours *)
  let hours := duration / (60 * 60 * 1000) in
  let remaining := Z.rem duration (60 * 60 * 1000) in
  (* Calculate minutes *)
  let minutes := remaining / (60 * 1000) in
  let remaining := Z.rem duration (60 * 1000) in
  (* Calculate seconds *)
  let seconds := remaining / 1000 in
  let remaining := Z.rem duration 1000 in
  (* Calculate milliseconds *)
  let ms := div_pow10 remaining (3 - numberOfMillisecondDigits) in
  (* Format with leading zeros *)
  let hoursStr := padStart 2 (ch "0") (toString hours) in
  let minutesStr := padStart 2 (ch "0") (toString minutes) in
  let secondsStr := padStart 2 (ch "0") (toString seconds) in
  let msStr := padStart (Z.to_nat numberOfMillisecondDigits) (ch "0") (toString ms) in
  hoursStr ++ lit ":" ++ minutesStr ++ lit ":" ++ secondsStr ++ millisecondSep ++ msStr.

Definition parseSRTDuration (input : jsstring) : completion Z :=
  parseDuration input (lit ",") 3.
Definition formatSRTDuration (duration : Z) : jsstring :=
  formatDuration duration (lit ",") 3.
Definition parseWebVTTDuration (input : jsstring) : completion Z :=
  parseDuration input (lit ".") 3.
Definition formatWebVTTDuration (duration : Z) : jsstring :=
  formatDuration duration (lit ".") 3.
Definition parseSSADuration (input : jsstring) : completion Z :=
  parseDuration input (lit ".") 2.
Definition formatSSADuration (duration : Z) : jsstring :=
  formatDuration duration (lit ".") 2.

End Duration.

(* ====================================================================== *)
(** * src/types.ts: the unified model                                      *)
(* ====================================================================== *)

(** The fields the embedded operations read or write.  [Item] is
    parameterised by the type [T] of its timestamps: [Z] for integer
    milliseconds, [JsNumber.number] where non-finite values matter.  The
    maps [styles] and [regions], [metadata], and the items' [comments],
    [region] and [style] are not touched by [add], [fragment], [unfragment],
    [order], [forceDuration], [applyLinearCorrection] or the SRT codec, and
    are left out. *)

Record StyleAttributes : Type := mkStyleAttributes {
  srtBold : option bool;
  srtColor : option jsstring;
  srtItalics : option bool;
  srtPosition : option Z;
  srtUnderline : option bool
}.

Record LineItem : Type := mkLineItem {
  li_inlineStyle : option StyleAttributes;
  text : jsstring
}.

Record Line : Type := mkLine {
  line_items : list LineItem
}.

Record Item (T : Type) : Type := mkItem {
  index : option Z;
  startAt : T;
  endAt : T;
  lines : list Line
}.

Record Subtitles (T : Type) : Type := mkSubtitles {
  items : list (Item T)
}.

Definition set_startAt {T} (t : T) (item : Item T) : Item T :=
  mkItem (index item) t (endAt item) (lines item).

Definition set_endAt {T} (t : T) (item : Item T) : Item T :=
  mkItem (index item) (startAt item) t (lines item).

(** [items[items.length - 1]] *)
Definition last_item {A : Type} (l : list A) : option A :=
  nth_error l (length l - 1).

(* ====================================================================== *)
(** * src/subtitles.ts: timeline operations on integer timestamps          *)
(* ====================================================================== *)

Module Timeline.

Local Open Scope Z_scope.

(** Timestamps and durations are integers here.  The sums, differences and
    comparisons of the source are those of the integers as long as the
    operands and the results are safe integers; beyond that JavaScript
    rounds, and what is proved of sums is stated for safe integers. *)

Definition lineToString (line : Line) : jsstring :=
  join [] (List.map text (line_items line)).

Definition itemToString (item : Item Z) : jsstring :=
  join (lit " - ") (List.map lineToString (lines item)).

(** The loop of [add] over the array: an item whose two shifted bounds are
    at most zero is spliced out (and the index stays), one whose start is
    negative is clamped. *)
Fixpoint add_loop (duration : Z) (l : list (Item Z)) : list (Item Z) :=
  match l with
  | [] => []
  | item :: rest =>
      let item := set_endAt (endAt item + duration) item in
      let item := set_startAt (startAt item + duration) item in
      if (endAt item <=? 0) && (startAt item <=? 0) then
        add_loop duration rest
      else if startAt item <? 0 then
        set_startAt 0 item :: add_loop duration rest
      else
        item :: add_loop duration rest
  end.

Definition add (subtitles : Subtitles Z) (duration : Z) : Subtitles Z :=
  mkSubtitles (add_loop duration (items subtitles)).

Definition getDuration (subtitles : Subtitles Z) : Z :=
  match last_item (items subtitles) with
  | None => 0
  | Some item => endAt item
  end.

(** The loop of [forceDuration] from index [i]: the array after the loop
    and the value of [lastIndex] ([-1] when the loop did not break). *)
Fixpoint forceDuration_loop (duration : Z) (i : Z) (l : list (Item Z)) : list (Item Z) * Z :=
  match l with
  | [] => ([], -1)
  | item :: rest =>
      if startAt item >=? duration then (item :: rest, i)
      else
        let item := if endAt item >? duration then set_endAt duration item else item in
        let '(rest', lastIndex) := forceDuration_loop duration (i + 1) rest in
        (item :: rest', lastIndex)
  end.

Definition dummy_item (duration : Z) : Item Z :=
  mkItem None (duration - 1) duration [mkLine [mkLineItem None (lit "...")]].

Definition forceDuration (subtitles : Subtitles Z) (duration : Z) (addDummyItem : bool)
  : Subtitles Z :=
  let currentDuration := getDuration subtitles in
  if currentDuration =? duration then subtitles
  else
    let subtitles :=
      if currentDuration >? duration then
        let '(l, lastIndex) := forceDuration_loop duration 0 (items subtitles) in
        if negb (lastIndex =? -1) then mkSubtitles (firstn (Z.to_nat lastIndex) l)
        else mkSubtitles l
      else subtitles in
    if addDummyItem && (getDuration subtitles <? duration) then
      mkSubtitles (items subtitles ++ [dummy_item duration])
    else subtitles.

(** [items.sort((a, b) => a.startAt - b.startAt)]: a stable sort, as
    insertion from the right. *)
Fixpoint insert_by_start (x : Item Z) (l : list (Item Z)) : list (Item Z) :=
  match l with
  | [] => [x]
  | y :: l' => if startAt x <=? startAt y then x :: y :: l' else y :: insert_by_start x l'
  end.

Definition sort_by_start (l : list (Item Z)) : list (Item Z) :=
  fold_right insert_by_start [] l.

Definition order (subtitles : Subtitles Z) : Subtitles Z :=
  if (length (items subtitles) <=? 1)%nat then subtitles
  else mkSubtitles (sort_by_start (items subtitles)).

(** One run of the [for] loop of [fragment] over the array.  An item that
    straddles a boundary is cut there: the copy [newItem] keeps the old
    start and ends at the boundary, and is spliced in before the item, whose
    start moves to the boundary; the index then skips the item, so each
    original item is looked at once.  (The copy is shallow: it shares
    [lines] with the item, which no operation here writes to.) *)
Fixpoint fragment_pass (fragmentStart fragmentEnd : Z) (l : list (Item Z)) : list (Item Z) :=
  match l with
  | [] => []
  | item :: rest =>
      if (startAt item <? fragmentStart) && (endAt item >? fragmentStart) then
        set_endAt fragmentStart item :: set_startAt fragmentStart item
          :: fragment_pass fragmentStart fragmentEnd rest
      else if (startAt item <? fragmentEnd) && (endAt item >? fragmentEnd) then
        set_endAt fragmentEnd item :: set_startAt fragmentEnd item
          :: fragment_pass fragmentStart fragmentEnd rest
      else
        item :: fragment_pass fragmentStart fragmentEnd rest
  end.

(** The [while] loop of [fragment]; [None] when [fuel] iterations were not
    enough to leave it. *)
Fixpoint fragment_while (fuel : nat) (fragmentDuration lastItemEnd : Z)
    (fragmentStart fragmentEnd : Z) (l : list (Item Z)) : option (list (Item Z)) :=
  if fragmentStart <? lastItemEnd then
    match fuel with
    | O => None
    | S fuel' =>
        fragment_while fuel' fragmentDuration lastItemEnd
          (fragmentStart + fragmentDuration) (fragmentEnd + fragmentDuration)
          (fragment_pass fragmentStart fragmentEnd l)
    end
  else Some l.

Definition fragment (fuel : nat) (subtitles : Subtitles Z) (fragmentDuration : Z)
  : option (Subtitles Z) :=
  match last_item (items subtitles) with
  | None => Some subtitles
  | Some lastItem =>
      option_map (fun l => order (mkSubtitles l))
        (fragment_while fuel fragmentDuration (endAt lastItem) 0 fragmentDuration
           (items subtitles))
  end.

Definition isEmpty (subtitles : Subtitles Z) : bool :=
  (length (items subtitles) =? 0)%nat.

(** The inner loop of [unfragment] for the item [currentItem] at index [i],
    over the items behind it: the updated [currentItem] and what is left
    behind it.  [currentStr] is computed once, before the loop. *)
Fixpoint unfragment_inner (currentStr : jsstring) (currentItem : Item Z) (l : list (Item Z))
  : Item Z * list (Item Z) :=
  match l with
  | [] => (currentItem, [])
  | nextItem :: rest =>
      let nextStr := itemToString nextItem in
      if JsString.eqb currentStr nextStr && (endAt currentItem >=? startAt nextItem) then
        let currentItem :=
          if endAt currentItem <? endAt nextItem
          then set_endAt (endAt nextItem) currentItem else currentItem in
        unfragment_inner currentStr currentItem rest
      else if endAt currentItem <? startAt nextItem then
        (currentItem, nextItem :: rest)
      else
        let '(currentItem, rest') := unfragment_inner currentStr currentItem rest in
        (currentItem, nextItem :: rest')
  end.

(** The outer loop of [unfragment], from the item at index [i] on: that
    item absorbs what it can of the items behind it, and the loop goes on
    with what is left. *)
Equations? unfragment_outer (l : list (Item Z)) : list (Item Z) by wf (length l) lt :=
  unfragment_outer [] := [];
  unfragment_outer (currentItem :: rest) :=
    fst (unfragment_inner (itemToString currentItem) currentItem rest)
    :: unfragment_outer (snd (unfragment_inner (itemToString currentItem) currentItem rest)).
Proof.
  (* the inner loop hands back no more items than it was given *)
  apply Nat.lt_succ_r. clear unfragment_outer.
  generalize (itemToString currentItem) as currentStr.
  revert currentItem. induction rest as [|nextItem rest IH]; intros currentItem currentStr.
  - apply Nat.le_refl.
  - cbn [unfragment_inner].
    destruct (JsString.eqb currentStr (itemToString nextItem)
              && (endAt currentItem >=? startAt nextItem)).
    + etransitivity; [apply IH|]. cbn. lia.
    + destruct (endAt currentItem <? startAt nextItem); [apply Nat.le_refl|].
      specialize (IH currentItem currentStr).
      destruct (unfragment_inner currentStr currentItem rest). cbn in *. lia.
Qed.

Definition unfragment (subtitles : Subtitles Z) : Subtitles Z :=
  if (length (items subtitles) <=? 1)%nat then subtitles
  else mkSubtitles (unfragment_outer (items (order subtitles))).

End Timeline.

(* ====================================================================== *)
(** * JavaScript numbers with their non-finite values                      *)
(* ====================================================================== *)

Module JsNumber.

(** A number is finite, an infinity or NaN.  Finite arithmetic is exact
    here (rationals, kept in lowest terms), where JavaScript rounds to
    binary64; the sign of a zero is not kept, and a zero divisor counts
    as +0.  The non-finite cases follow IEEE 754. *)
Inductive number : Type :=
| Fin (q : Q)
| PosInf
| NegInf
| NaN.

Definition of_Z (z : Z) : number := Fin (inject_Z z).

Definition is_finite (x : number) : bool :=
  match x with Fin _ => true | _ => false end.

(** The sign of a number that is not NaN: [Lt] negative, [Eq] zero, [Gt]
    positive. *)
Definition sign (x : number) : option comparison :=
  match x with
  | Fin q => Some (q ?= 0)%Q
  | PosInf => Some Gt
  | NegInf => Some Lt
  | NaN => None
  end.

(** The infinity of a sign; zero has none. *)
Definition infinity (c : comparison) : number :=
  match c with Gt => PosInf | Lt => NegInf | Eq => NaN end.

Definition sign_mul (c d : comparison) : comparison :=
  match c, d with
  | Eq, _ | _, Eq => Eq
  | Gt, Gt | Lt, Lt => Gt
  | _, _ => Lt
  end.

Definition nopp (x : number) : number :=
  match x with
  | Fin q => Fin (Qred (- q))
  | PosInf => NegInf
  | NegInf => PosInf
  | NaN => NaN
  end.

Definition nadd (x y : number) : number :=
  match x, y with
  | NaN, _ | _, NaN => NaN
  | Fin a, Fin b => Fin (Qred (a + b))
  | PosInf, NegInf | NegInf, PosInf => NaN
  | PosInf, _ | _, PosInf => PosInf
  | NegInf, _ | _, NegInf => NegInf
  end.

Definition nsub (x y : number) : number := nadd x (nopp y).

Definition nmul (x y : number) : number :=
  match x, y with
  | Fin a, Fin b => Fin (Qred (a * b))
  | _, _ =>
      match sign x, sign y with
      | Some c, Some d => infinity (sign_mul c d)
      | _, _ => NaN
      end
  end.

Definition ndiv (x y : number) : number :=
  match x, y with
  | NaN, _ | _, NaN => NaN
  | Fin a, Fin b => if Qeq_bool b 0 then infinity (a ?= 0)%Q else Fin (Qred (a / b))
  | Fin _, _ => Fin 0
  | _, Fin b =>
      match sign x with
      | Some c => infinity (if Qle_bool 0 b then c else CompOpp c)
      | None => NaN
      end
  | _, _ => NaN
  end.

(** [Math.floor] *)
Definition nfloor (x : number) : number :=
  match x with
  | Fin q => Fin (inject_Z (Qfloor q))
  | _ => x
  end.

(** [x == y] on numbers: NaN equals nothing. *)
Definition js_eq (x y : number) : bool :=
  match x, y with
  | Fin a, Fin b => Qeq_bool a b
  | PosInf, PosInf | NegInf, NegInf => true
  | _, _ => false
  end.


End JsNumber.

(* ====================================================================== *)
(** * src/subtitles.ts: linear correction                                  *)
(* ====================================================================== *)

Module LinearCorrection.
Import JsNumber.

(** The body computes [a] and [b] and assigns to every item; it has no
    guard and no [throw], so the call always returns. *)
Definition applyLinearCorrection (subtitles : Subtitles number)
    (actual1 desired1 actual2 desired2 : number) : Subtitles number :=
  (* Calculate linear transformation parameters: y = ax + b *)
  let a := ndiv (nsub desired2 desired1) (nsub actual2 actual1) in
  let b := nsub desired1 (nmul a actual1) in
  (* Apply to all items *)
  mkSubtitles
    (List.map
       (fun item =>
          let item := set_startAt (nfloor (nadd (nmul a (startAt item)) b)) item in
          set_endAt (nfloor (nadd (nmul a (endAt item)) b)) item)
       (items subtitles)).

End LinearCorrection.

(* ====================================================================== *)
(** * src/utils/scanner.ts and src/utils/helpers.ts                        *)
(* ====================================================================== *)

Module Scanner.

Local Open Scope N_scope.

(** [s.split(re)] for a regular expression [re] without capture groups
    that matches no empty text; [m s] is the length of the match of [re] at
    the start of [s]. *)
Fixpoint split_regex_scan (m : jsstring -> option nat) (skip : nat) (cur : jsstring)
    (s : jsstring) : list jsstring :=
  match s with
  | [] => [rev cur]
  | c :: t =>
      match skip with
      | S k => split_regex_scan m k cur t
      | O =>
          match m s with
          | Some n => rev cur :: split_regex_scan m (n - 1) [] t
          | None => split_regex_scan m 0 (c :: cur) t
          end
      end
  end.

Definition split_regex (m : jsstring -> option nat) (s : jsstring) : list jsstring :=
  split_regex_scan m 0 [] s.

(** The regular expression [/\r\n|\r|\n/] at a position. *)
Definition match_newline (s : jsstring) : option nat :=
  match s with
  | 13 :: 10 :: _ => Some 2%nat
  | 13 :: _ => Some 1%nat
  | 10 :: _ => Some 1%nat
  | _ => None
  end.

(** [lines.pop()] when the last line is empty. *)
Definition pop_empty_last (lines : list jsstring) : list jsstring :=
  match last_item lines with
  | Some [] => removelast lines
  | _ => lines
  end.

Definition splitLines (text : jsstring) : list jsstring :=
  pop_empty_last (split_regex match_newline text).

Definition BOM : char := 65279.

Definition hasBOM (text : jsstring) : bool :=
  match text with
  | c :: _ => c =? BOM
  | [] => false
  end.

Definition removeBOM (text : jsstring) : jsstring :=
  if hasBOM text then tl text else text.

(** [str.toLowerCase()], for the letters A to Z.  (Code units outside
    ASCII are left as they are; none of them has a lower case among the
    letters the sources compare with.) *)
Definition toLowerCase (s : jsstring) : jsstring :=
  List.map (fun c => if (65 <=? c) && (c <=? 90) then c + 32 else c) s.

Definition detectFormat_of_extension (ext : jsstring) : option jsstring :=
  if JsString.eqb ext (lit ".srt") then Some (lit "srt")
  else if JsString.eqb ext (lit ".vtt") then Some (lit "webvtt")
  else if JsString.eqb ext (lit ".ttml") || JsString.eqb ext (lit ".dfxp")
       then Some (lit "ttml")
  else if JsString.eqb ext (lit ".ssa") || JsString.eqb ext (lit ".ass")
       then Some (lit "ssa")
  else if JsString.eqb ext (lit ".stl") then Some (lit "stl")
  else if JsString.eqb ext (lit ".ts") then Some (lit "teletext")
  else None.

End Scanner.

(* ====================================================================== *)
(** * src/formats/srt.ts                                                   *)
(* ====================================================================== *)

Module Srt.
Import Scanner Html Duration.

Local Open Scope N_scope.

Definition SRT_TIME_BOUNDARIES_SEPARATOR : jsstring := lit "-->".

(** Tries the separators [,], [.] and [:] in turn; a call that throws
    moves on to the next one, any other completion is returned. *)
Fixpoint parseSRTDuration_from (separators : list jsstring) (input : jsstring)
  : completion Z :=
  match separators with
  | [] => Throw (Error (lit "Failed to parse SRT duration: " ++ input))
  | sep :: rest =>
      match parseDuration input sep 3 with
      | Throw _ => parseSRTDuration_from rest input
      | c => c
      end
  end.

Definition parseSRTDuration (input : jsstring) : completion Z :=
  parseSRTDuration_from [lit ","; lit "."; lit ":"] input.

Definition formatSRTDuration (duration : Z) : jsstring :=
  formatDuration duration (lit ",") 3.

Definition empty_style : StyleAttributes := mkStyleAttributes None None None None None.

Definition truthy_bool (b : option bool) : bool :=
  match b with Some true => true | _ => false end.

Definition truthy_string (s : option jsstring) : bool :=
  match s with Some (_ :: _) => true | _ => false end.

(** [currentStyle.srtBold || currentStyle.srtItalics ||
     currentStyle.srtUnderline || currentStyle.srtColor] *)
Definition any_style (st : StyleAttributes) : bool :=
  truthy_bool (srtBold st) || truthy_bool (srtItalics st)
  || truthy_bool (srtUnderline st) || truthy_string (srtColor st).

Definition isLetter (c : char) : bool :=
  ((65 <=? c) && (c <=? 90)) || ((97 <=? c) && (c <=? 122)).

Fixpoint dropWhile {A : Type} (p : A -> bool) (l : list A) : list A :=
  match l with
  | x :: l' => if p x then dropWhile p l' else l
  | [] => []
  end.

(** One match of [/<\/?([a-z]+)(?:\s+([^>]+))?>/gi]: its length, the
    letters of group 1, group 2 when it took part, and whether the text
    starts with [</]. *)
Record tag_match : Type := mkTagMatch {
  tag_length : nat;
  tag_letters : jsstring;
  tag_attributes : option jsstring;
  tag_closing : bool
}.

(** The tag expression at the start of [s].  After [<], an optional [/]
    and the letters, either [>] follows at once, or white space, at least
    one more unit other than [>], and then [>].  Group 2 is what follows
    the white space, up to [>]; when only white space precedes [>], the
    match gives the last unit of it to group 2. *)
Definition match_srt_tag (s : jsstring) : option tag_match :=
  match s with
  | c :: r =>
      if c =? ch "<" then
        let '(closing, r1) :=
          match r with
          | d :: r' => if d =? ch "/" then (true, r') else (false, r)
          | [] => (false, r)
          end in
        let letters := takeWhile isLetter r1 in
        let r2 := dropWhile isLetter r1 in
        let head := (1 + (if closing then 1 else 0) + length letters)%nat in
        match letters with
        | [] => None
        | _ :: _ =>
            let body := takeWhile (fun x => negb (x =? ch ">")) r2 in
            match dropWhile (fun x => negb (x =? ch ">")) r2 with
            | [] => None
            | _ :: _ =>
                match body with
                | [] => Some (mkTagMatch (head + 1) letters None closing)
                | _ :: _ =>
                    let spaces := takeWhile isWhiteSpace body in
                    let value := dropWhile isWhiteSpace body in
                    match spaces, value with
                    | [], _ => None
                    | _ :: _, _ :: _ =>
                        Some (mkTagMatch (head + length body + 1) letters
                                (Some value) closing)
                    | _ :: _ :: _, [] =>
                        Some (mkTagMatch (head + length body + 1) letters
                                (Some [last spaces 0]) closing)
                    | [_], [] => None
                    end
                end
            end
        end
      else None
  | [] => None
  end.

Definition isQuote (c : char) : bool := (c =? 34) || (c =? 39).

(** The colour expression of [parseSRTText] at the start of [s]: the word
    color in any case, white space, [=], white space, a quote of either
    kind, then group 1, one or more units that are not quotes, and a
    closing quote of either kind.  The result is group 1. *)
Definition match_color_here (s : jsstring) : option jsstring :=
  if startsWith (lit "color") (toLowerCase (firstn 5 s)) then
    match dropWhile isWhiteSpace (skipn 5 s) with
    | e :: r =>
        if e =? ch "=" then
          match dropWhile isWhiteSpace r with
          | q :: r' =>
              if isQuote q then
                let value := takeWhile (fun x => negb (isQuote x)) r' in
                match value, dropWhile (fun x => negb (isQuote x)) r' with
                | _ :: _, _ :: _ => Some value
                | _, _ => None
                end
              else None
          | [] => None
          end
        else None
    | [] => None
    end
  else None.

(** [attributes.match(...)]: the first position where it matches. *)
Fixpoint match_color (s : jsstring) : option jsstring :=
  match match_color_here s with
  | Some v => Some v
  | None =>
      match s with
      | [] => None
      | _ :: t => match_color t
      end
  end.

(** The effect of one tag on [currentStyle]. *)
Definition apply_tag (t : tag_match) (st : StyleAttributes) : StyleAttributes :=
  let tagName := toLowerCase (tag_letters t) in
  if tag_closing t then
    if JsString.eqb tagName (lit "b") then
      mkStyleAttributes (Some false) (srtColor st) (srtItalics st) (srtPosition st)
        (srtUnderline st)
    else if JsString.eqb tagName (lit "i") then
      mkStyleAttributes (srtBold st) (srtColor st) (Some false) (srtPosition st)
        (srtUnderline st)
    else if JsString.eqb tagName (lit "u") then
      mkStyleAttributes (srtBold st) (srtColor st) (srtItalics st) (srtPosition st)
        (Some false)
    else if JsString.eqb tagName (lit "font") then
      mkStyleAttributes (srtBold st) None (srtItalics st) (srtPosition st)
        (srtUnderline st)
    else st
  else
    if JsString.eqb tagName (lit "b") then
      mkStyleAttributes (Some true) (srtColor st) (srtItalics st) (srtPosition st)
        (srtUnderline st)
    else if JsString.eqb tagName (lit "i") then
      mkStyleAttributes (srtBold st) (srtColor st) (Some true) (srtPosition st)
        (srtUnderline st)
    else if JsString.eqb tagName (lit "u") then
      mkStyleAttributes (srtBold st) (srtColor st) (srtItalics st) (srtPosition st)
        (Some true)
    else if JsString.eqb tagName (lit "font") then
      match tag_attributes t with
      | Some (a :: attributes) =>
          match match_color (a :: attributes) with
          | Some color =>
              mkStyleAttributes (srtBold st) (Some color) (srtItalics st)
                (srtPosition st) (srtUnderline st)
          | None => st
          end
      | _ => st
      end
    else st.

(** The text between two tags becomes a line item, unless it is empty or
    white space only; [text] is kept reversed while it is collected. *)
Definition push_text (text : jsstring) (st : StyleAttributes) (acc : list LineItem)
  : list LineItem :=
  let text := rev text in
  match trim text with
  | [] => acc
  | _ :: _ =>
      acc ++ [mkLineItem (if any_style st then Some st else None) (unescapeHTML text)]
  end.

(** The [while] loop over the matches of the tag expression, and the text
    behind the last match. *)
Fixpoint parse_tags (skip : nat) (text : jsstring) (currentStyle : StyleAttributes)
    (acc : list LineItem) (s : jsstring) : list LineItem :=
  match s with
  | [] => push_text text currentStyle acc
  | c :: t =>
      match skip with
      | S k => parse_tags k text currentStyle acc t
      | O =>
          match match_srt_tag s with
          | Some tag =>
              parse_tags (tag_length tag - 1) [] (apply_tag tag currentStyle)
                (push_text text currentStyle acc) t
          | None => parse_tags 0 (c :: text) currentStyle acc t
          end
      end
  end.

Definition parseSRTText (input : jsstring) (styleAttrs : StyleAttributes) : Line :=
  match trim input with
  | [] => mkLine [mkLineItem None []]
  | _ :: _ => mkLine (parse_tags 0 [] styleAttrs [] input)
  end.

Local Open Scope Z_scope.

(** [lastLine.items.length === 0 || lastLine.items.every((item) => !item.text)] *)
Definition blank_line (line : Line) : bool :=
  forallb (fun item => match text item with [] => true | _ => false end)
    (line_items line).

(** [while (lines.length > 0) { if (blank last line) lines.pop() else break }],
    on the reversed array. *)
Definition pop_blank_lines (lines : list Line) : list Line :=
  rev (dropWhile blank_line (rev lines)).

(** The regular expression [/\s+/] at a position. *)
Definition match_spaces (s : jsstring) : option nat :=
  match takeWhile isWhiteSpace s with
  | [] => None
  | run => Some (length run)
  end.

(** The variables of [readFromSRT] that its loop updates.  [tainted] is set
    once a timestamp has been stored that the embedding does not represent
    (NaN); the stored value is then a placeholder, and the run ends as
    [Unrepresented] unless a later line makes it throw. *)
Record reader : Type := mkReader {
  lineNum : Z;
  currentItem : Item Z;
  styleAttrs : StyleAttributes;
  read_items : list (Item Z);
  tainted : bool
}.

Definition new_item : Item Z := mkItem None 0 0 [].

(** [items.push(currentItem)] when it has lines or a positive start. *)
Definition push_if_content (item : Item Z) (out : list (Item Z)) : list (Item Z) :=
  if (0 <? length (lines item))%nat || (startAt item >? 0) then out ++ [item] else out.

(** A timestamp of the boundary line: the parsed value, and whether it is a
    placeholder; a throw is rethrown with the line number. *)
Definition parse_boundary_time (lineNum : Z) (what time : jsstring)
  : completion (Z * bool) :=
  match parseSRTDuration time with
  | Normal t => Normal (t, false)
  | Unrepresented => Normal (0, true)
  | Throw e =>
      Throw (Error (lit "Line " ++ toString lineNum ++ lit ": failed to parse "
                    ++ what ++ lit " time " ++ time ++ lit ": " ++ error_toString e))
  end.

(** One run of the loop body of [readFromSRT] on the line [raw]. *)
Definition read_line (raw : jsstring) (st : reader) : completion reader :=
  let line := trim raw in
  let lineNum := lineNum st + 1 in
  if includes SRT_TIME_BOUNDARIES_SEPARATOR line then
    (* Remove last item of previous subtitle (the index line) *)
    let previous := lines (currentItem st) in
    let indexStr :=
      match last_item previous with
      | Some lastLine => join [] (List.map text (line_items lastLine))
      | None => []
      end in
    let previous :=
      match indexStr with
      | [] => previous
      | _ :: _ => removelast previous
      end in
    (* Remove trailing empty lines *)
    let previous := pop_blank_lines previous in
    (* Save previous item if it has content *)
    let saved :=
      mkItem (index (currentItem st)) (startAt (currentItem st))
        (endAt (currentItem st)) previous in
    let out := push_if_content saved (read_items st) in
    (* Create new item, parse index *)
    let indexNum :=
      match indexStr with
      | [] => None
      | _ :: _ => parseInt indexStr
      end in
    (* Extract time boundaries *)
    let parts := split SRT_TIME_BOUNDARIES_SEPARATOR line in
    if (length parts <? 2)%nat then
      Throw (Error (lit "Line " ++ toString lineNum ++ lit ": time boundaries has only "
                    ++ toString (Z.of_nat (length parts)) ++ lit " element(s)"))
    else
      let startTime := trim (nth 0 parts []) in
      bind (parse_boundary_time lineNum (lit "start") startTime) (fun '(startAt, bad1) =>
      let endParts := split_regex match_spaces (trim (nth 1 parts [])) in
      let endTime := nth 0 endParts [] in
      bind (parse_boundary_time lineNum (lit "end") endTime) (fun '(endAt, bad2) =>
      Normal (mkReader lineNum (mkItem indexNum startAt endAt []) empty_style out
                (tainted st || bad1 || bad2))))
  else
    (* Add text line *)
    let parsedLine := parseSRTText line (styleAttrs st) in
    let item := currentItem st in
    let item :=
      if (0 <? length (line_items parsedLine))%nat
      then mkItem (index item) (startAt item) (endAt item) (lines item ++ [parsedLine])
      else item in
    Normal (mkReader lineNum item (styleAttrs st) (read_items st) (tainted st)).

(** [while (scanner.hasNext()) { line = scanner.next(); ... }]: the scanner
    hands out the lines of its array from the first on, so the loop is a
    recursion over them. *)
Fixpoint read_lines (lines : list jsstring) (st : reader) : completion reader :=
  match lines with
  | [] => Normal st
  | raw :: rest => bind (read_line raw st) (read_lines rest)
  end.

Definition readFromSRT (content : jsstring) : completion (Subtitles Z) :=
  let scanner_lines := splitLines (removeBOM content) in
  bind (read_lines scanner_lines (mkReader 0 new_item empty_style [] false)) (fun st =>
  (* Add last item if it has content *)
  let item := currentItem st in
  let out :=
    if (0 <? length (lines item))%nat || (startAt item >? 0) then
      read_items st
        ++ [mkItem (index item) (startAt item) (endAt item)
              (pop_blank_lines (lines item))]
    else read_items st in
  if tainted st then Unrepresented else Normal (mkSubtitles out)).

Definition lineItemToSRTString (item : LineItem) : jsstring :=
  let style := li_inlineStyle item in
  let color := match style with Some st => srtColor st | None => None end in
  let bold := match style with Some st => truthy_bool (srtBold st) | None => false end in
  let italic := match style with Some st => truthy_bool (srtItalics st) | None => false end in
  let underline :=
    match style with Some st => truthy_bool (srtUnderline st) | None => false end in
  let position := match style with Some st => srtPosition st | None => None end in
  (* Open tags *)
  (match color with
   | Some (c :: color') => lit "<font color=" ++ [34%N] ++ (c :: color') ++ [34%N] ++ lit ">"
   | _ => []
   end)
  ++ (if bold then lit "<b>" else [])
  ++ (if italic then lit "<i>" else [])
  ++ (if underline then lit "<u>" else [])
  ++ (match position with
      | Some p => if p =? 0 then [] else lit "{\an" ++ toString p ++ lit "}"
      | None => []
      end)
  (* Add text *)
  ++ escapeHTML (text item)
  (* Close tags (in reverse order) *)
  ++ (if underline then lit "</u>" else [])
  ++ (if italic then lit "</i>" else [])
  ++ (if bold then lit "</b>" else [])
  ++ (if truthy_string color then lit "</font>" else []).

Definition lineToSRTString (line : Line) : jsstring :=
  join [] (List.map lineItemToSRTString (line_items line)) ++ [10%N].

(** The body of the loop of [writeToSRT] for the item at index [i]. *)
Definition itemToSRTString (i : Z) (item : Item Z) : jsstring :=
  toString (i + 1) ++ [10%N]
  ++ formatSRTDuration (startAt item) ++ lit " " ++ SRT_TIME_BOUNDARIES_SEPARATOR
  ++ lit " " ++ formatSRTDuration (endAt item) ++ [10%N]
  ++ List.concat (List.map lineToSRTString (lines item))
  ++ [10%N].

Fixpoint write_items (i : Z) (l : list (Item Z)) : jsstring :=
  match l with
  | [] => []
  | item :: rest => itemToSRTString i item ++ write_items (i + 1) rest
  end.

Definition writeToSRT (subtitles : Subtitles Z) : completion jsstring :=
  match items subtitles with
  | [] => Throw (Error (lit "No subtitles to write"))
  | _ :: _ =>
      let output := BOM :: write_items 0 (items subtitles) in
      Normal (trimEnd output ++ [10%N])
  end.

End Srt.

(* ====================================================================== *)
(** * src/subtitles.ts: the unified read and write entry points            *)
(* ====================================================================== *)

Module Entry.
Import Scanner Srt.

(** Only the [case 'srt'] is there; the cases of the other formats are
    commented out in the source, so they take the [default] branch. *)
Definition readFromString (content : jsstring) (format : jsstring)
  : completion (Subtitles Z) :=
  if JsString.eqb (toLowerCase format) (lit "srt") then readFromSRT content
  else Throw InvalidExtensionError.

Definition writeToString (subtitles : Subtitles Z) (format : jsstring)
  : completion jsstring :=
  match items subtitles with
  | [] => Throw NoSubtitlesToWriteError
  | _ :: _ =>
      if JsString.eqb (toLowerCase format) (lit "srt") then writeToSRT subtitles
      else Throw InvalidExtensionError
  end.

End Entry.

(* ====================================================================== *)
(** * src/utils/helpers.ts: the other helpers                              *)
(* ====================================================================== *)

Module Helpers.
Import Scanner.

Local Open Scope Z_scope.

Definition addBOM (text : jsstring) : jsstring :=
  if hasBOM text then text else BOM :: text.

(** [s.repeat(n)] *)
Fixpoint repeat_string (s : jsstring) (n : nat) : jsstring :=
  match n with
  | O => []
  | S k => s ++ repeat_string s k
  end.

Inductive direction : Type := left | right.

Definition padString (str char : jsstring) (len : Z) (dir : direction) : jsstring :=
  if Z.of_nat (length str) >=? len then str
  else
    let padding := repeat_string char (Z.to_nat (len - Z.of_nat (length str))) in
    match dir with
    | left => padding ++ str
    | right => str ++ padding
    end.

Definition isBlank (str : jsstring) : bool :=
  (length (trim str) =? 0)%nat.

Definition isNotBlank (str : jsstring) : bool := negb (isBlank str).

Definition parseIntSafe (str : jsstring) (defaultValue : Z) : Z :=
  match parseInt str with
  | None => defaultValue
  | Some parsed => parsed
  end.

(** [Math.min(Math.max(value, min), max)] *)
Definition clamp (value min max : Z) : Z := Z.min (Z.max value min) max.

(** [s.lastIndexOf(c)] for a one-unit [c]; [None] is -1.  [i] is the index
    of the first unit of [s]. *)
Fixpoint lastIndexOf_from (c : char) (i : nat) (s : jsstring) : option nat :=
  match s with
  | [] => None
  | x :: t =>
      match lastIndexOf_from c (S i) t with
      | Some j => Some j
      | None => if (x =? c)%N then Some i else None
      end
  end.

Definition lastIndexOf (c : char) (s : jsstring) : option nat := lastIndexOf_from c 0 s.

Definition getFileExtension (filename : jsstring) : jsstring :=
  match lastIndexOf (ch ".") filename with
  | None => []
  | Some lastDot => toLowerCase (skipn lastDot filename)
  end.

Definition detectFormat (filename : jsstring) : option jsstring :=
  detectFormat_of_extension (getFileExtension filename).

End Helpers.

(* ====================================================================== *)
(** * src/utils/scanner.ts: the Scanner class and the line generators      *)
(* ====================================================================== *)

Module LineScanner.
Import Scanner.

(** The two private fields of the class. *)
Record Scanner : Type := mkScanner {
  sc_lines : list jsstring;
  currentIndex : nat
}.

Definition new_Scanner (text : jsstring) : Scanner := mkScanner (splitLines text) 0.

Definition hasNext (sc : Scanner) : bool :=
  (currentIndex sc <? length (sc_lines sc))%nat.

(** [next()]: the line, or [None] for [null], and the scanner afterwards. *)
Definition next (sc : Scanner) : option jsstring * Scanner :=
  if hasNext sc
  then (nth_error (sc_lines sc) (currentIndex sc),
        mkScanner (sc_lines sc) (currentIndex sc + 1))
  else (None, sc).

Definition peek (sc : Scanner) : option jsstring :=
  if hasNext sc then nth_error (sc_lines sc) (currentIndex sc) else None.

Definition remainingLines (sc : Scanner) : list jsstring * Scanner :=
  (skipn (currentIndex sc) (sc_lines sc), mkScanner (sc_lines sc) (length (sc_lines sc))).

Definition reset (sc : Scanner) : Scanner := mkScanner (sc_lines sc) 0.

Definition lineNumber (sc : Scanner) : nat := currentIndex sc + 1.

(** The values the generator [readLines] yields, in order. *)
Definition readLines (text : jsstring) : list jsstring := splitLines text.

(** The values the generator [readNonEmptyLines] yields, in order. *)
Fixpoint nonEmptyTrimmed (lines : list jsstring) : list jsstring :=
  match lines with
  | [] => []
  | line :: rest =>
      let trimmed := trim line in
      if (0 <? length trimmed)%nat then trimmed :: nonEmptyTrimmed rest
      else nonEmptyTrimmed rest
  end.

Definition readNonEmptyLines (text : jsstring) : list jsstring :=
  nonEmptyTrimmed (splitLines text).

End LineScanner.

(* ====================================================================== *)
(** * src/utils/html.ts: parseHTMLColor                                    *)
(* ====================================================================== *)

Module HtmlColor.

(** [tag.match(/color\s*=\s*.../i)]: the expression is the one
    [parseSRTText] uses for the attributes of a font tag; the result is its
    group 1, or [None] for [null]. *)
Definition parseHTMLColor (tag : jsstring) : option jsstring := Srt.match_color tag.

End HtmlColor.

(* ====================================================================== *)
(** * src/subtitles.ts: reading and writing files                          *)
(* ====================================================================== *)

Module Files.
Import Helpers Entry.

(** [openFile]: [read] is how [fs.readFileSync(filename, 'utf-8')] ends,
    which is called first. *)
Definition openFile (read : completion jsstring) (filename : jsstring)
  : completion (Subtitles Z) :=
  bind read (fun content =>
  match detectFormat filename with
  | None => Throw InvalidExtensionError
  | Some format => readFromString content format
  end).

(** [writeFile]: the content that is handed to [fs.writeFileSync] for
    [filename], when the call gets that far. *)
Definition writeFile (subtitles : Subtitles Z) (filename : jsstring)
  : completion jsstring :=
  match detectFormat filename with
  | None => Throw InvalidExtensionError
  | Some format => writeToString subtitles format
  end.

End Files.

(* ====================================================================== *)
(** * src/subtitles.ts: styles and regions                                 *)
(* ====================================================================== *)

(** [merge], [optimize] and [removeStyling] work on the references that
    the items, the line items and the regions hold to styles and regions,
    and on the two maps of the subtitles.  This module gives the model with
    those fields: the types of [src/types.ts] once more, now with [region]
    and [style], beside the fields the operations above use. *)

Module Styling.

Local Open Scope Z_scope.

#[warnings="-register-all"] Inductive Style : Type :=
| mkStyle (id : jsstring) (inlineStyle : option StyleAttributes) (style : option Style).

Definition style_id (st : Style) : jsstring := let 'mkStyle id _ _ := st in id.
Definition style_inlineStyle (st : Style) : option StyleAttributes :=
  let 'mkStyle _ a _ := st in a.
Definition style_style (st : Style) : option Style := let 'mkStyle _ _ p := st in p.

Record Region : Type := mkRegion {
  region_id : jsstring;
  region_inlineStyle : option StyleAttributes;
  region_style : option Style
}.

Record StyledLineItem : Type := mkStyledLineItem {
  sli_inlineStyle : option StyleAttributes;
  sli_style : option Style;
  sli_text : jsstring
}.

Record StyledLine : Type := mkStyledLine {
  sl_items : list StyledLineItem
}.

Record StyledItem : Type := mkStyledItem {
  si_index : option Z;
  si_startAt : Z;
  si_endAt : Z;
  si_inlineStyle : option StyleAttributes;
  si_lines : list StyledLine;
  si_region : option Region;
  si_style : option Style
}.

(** A [Map] with string keys: its entries in insertion order. *)
Definition string_map (V : Type) : Type := list (jsstring * V).

Record StyledSubtitles : Type := mkStyledSubtitles {
  s_items : list StyledItem;
  s_regions : string_map Region;
  s_styles : string_map Style
}.

(** [map.has(key)], [map.get(key)], [map.set(key, value)], [map.delete(key)] *)
Definition map_has {V} (m : string_map V) (key : jsstring) : bool :=
  existsb (fun e => JsString.eqb (fst e) key) m.

Definition map_get {V} (m : string_map V) (key : jsstring) : option V :=
  record_get m key.

Fixpoint map_replace {V} (m : string_map V) (key : jsstring) (value : V) : string_map V :=
  match m with
  | [] => []
  | (k, v) :: rest =>
      if JsString.eqb k key then (k, value) :: rest
      else (k, v) :: map_replace rest key value
  end.

Definition map_set {V} (m : string_map V) (key : jsstring) (value : V) : string_map V :=
  if map_has m key then map_replace m key value else m ++ [(key, value)].

Definition map_delete {V} (m : string_map V) (key : jsstring) : string_map V :=
  filter (fun e => negb (JsString.eqb (fst e) key)) m.

(** A [Set] of strings: [set.has(x)] on the list of what was added. *)
Definition set_has (set : list jsstring) (x : jsstring) : bool :=
  existsb (JsString.eqb x) set.

(** *** [order] and [merge] *)

Fixpoint insert_item (x : StyledItem) (l : list StyledItem) : list StyledItem :=
  match l with
  | [] => [x]
  | y :: l' =>
      if si_startAt x <=? si_startAt y then x :: y :: l' else y :: insert_item x l'
  end.

Definition order_items (l : list StyledItem) : list StyledItem :=
  if (length l <=? 1)%nat then l else fold_right insert_item [] l.

(** [for (const [id, value] of other) if (!map.has(id)) map.set(id, value)] *)
Fixpoint add_missing {V} (m : string_map V) (other : string_map V) : string_map V :=
  match other with
  | [] => m
  | (id, value) :: rest =>
      add_missing (if map_has m id then m else map_set m id value) rest
  end.

Definition merge (subtitles other : StyledSubtitles) : StyledSubtitles :=
  mkStyledSubtitles
    (order_items (s_items subtitles ++ s_items other))
    (add_missing (s_regions subtitles) (s_regions other))
    (add_missing (s_styles subtitles) (s_styles other)).

(** *** [optimize] *)

(** The first loop of [removeUnusedRegionsAndStyles]: what is added to
    [usedRegions] and to [usedStyles], item by item. *)
Definition line_item_styles (line : StyledLine) : list jsstring :=
  flat_map (fun lineItem =>
              match sli_style lineItem with
              | Some st => [style_id st]
              | None => []
              end) (sl_items line).

Fixpoint collect_used (l : list StyledItem) (usedRegions usedStyles : list jsstring)
  : list jsstring * list jsstring :=
  match l with
  | [] => (usedRegions, usedStyles)
  | item :: rest =>
      let usedRegions :=
        match si_region item with
        | Some r => usedRegions ++ [region_id r]
        | None => usedRegions
        end in
      let usedStyles :=
        match si_style item with
        | Some st => usedStyles ++ [style_id st]
        | None => usedStyles
        end in
      let usedStyles := usedStyles ++ flat_map line_item_styles (si_lines item) in
      collect_used rest usedRegions usedStyles
  end.

(** The loop over the regions: a used region adds its style to
    [usedStyles], an unused one is deleted.  The result is the map of
    regions after the loop, and [usedStyles]. *)
Fixpoint sweep_regions (entries : string_map Region) (usedRegions usedStyles : list jsstring)
  : string_map Region * list jsstring :=
  match entries with
  | [] => ([], usedStyles)
  | (id, region) :: rest =>
      if set_has usedRegions id then
        let usedStyles :=
          match region_style region with
          | Some st => usedStyles ++ [style_id st]
          | None => usedStyles
          end in
        let '(kept, usedStyles) := sweep_regions rest usedRegions usedStyles in
        ((id, region) :: kept, usedStyles)
      else sweep_regions rest usedRegions usedStyles
  end.

(** The loop over the styles: an unused one is deleted. *)
Fixpoint sweep_styles (entries : string_map Style) (usedStyles : list jsstring)
  : string_map Style :=
  match entries with
  | [] => []
  | (id, st) :: rest =>
      if negb (set_has usedStyles id) then sweep_styles rest usedStyles
      else (id, st) :: sweep_styles rest usedStyles
  end.

Definition removeUnusedRegionsAndStyles (subtitles : StyledSubtitles) : StyledSubtitles :=
  let '(usedRegions, usedStyles) := collect_used (s_items subtitles) [] [] in
  let '(regions, usedStyles) := sweep_regions (s_regions subtitles) usedRegions usedStyles in
  mkStyledSubtitles (s_items subtitles) regions (sweep_styles (s_styles subtitles) usedStyles).

Definition optimize (subtitles : StyledSubtitles) : StyledSubtitles :=
  match s_items subtitles with
  | [] => subtitles
  | _ :: _ => removeUnusedRegionsAndStyles subtitles
  end.

(** *** [removeStyling] *)

Definition clear_line_item (lineItem : StyledLineItem) : StyledLineItem :=
  mkStyledLineItem None None (sli_text lineItem).

Definition clear_line (line : StyledLine) : StyledLine :=
  mkStyledLine (List.map clear_line_item (sl_items line)).

Definition clear_item (item : StyledItem) : StyledItem :=
  mkStyledItem (si_index item) (si_startAt item) (si_endAt item) None
    (List.map clear_line (si_lines item)) None None.

Definition removeStyling (subtitles : StyledSubtitles) : StyledSubtitles :=
  mkStyledSubtitles (List.map clear_item (s_items subtitles)) [] [].

(** *** The view without references *)

Definition core_line_item (lineItem : StyledLineItem) : LineItem :=
  mkLineItem (sli_inlineStyle lineItem) (sli_text lineItem).

Definition core_line (line : StyledLine) : Line :=
  mkLine (List.map core_line_item (sl_items line)).

(** The item as the timeline operations of [Timeline] see it. *)
Definition core (item : StyledItem) : Item Z :=
  mkItem (si_index item) (si_startAt item) (si_endAt item)
    (List.map core_line (si_lines item)).

End Styling.

(* ====================================================================== *)
(** * src/formats/webvtt.ts: the X-TIMESTAMP-MAP header                    *)
(* ====================================================================== *)

Module WebVtt.
Import Scanner Duration.

Local Open Scope Z_scope.

Definition WEBVTT_TIMESTAMP_MAP_HEADER : jsstring := lit "X-TIMESTAMP-MAP".

Definition parseWebVTTDuration (input : jsstring) : completion Z :=
  parseDuration input (lit ".") 3.

Definition formatWebVTTDuration (duration : Z) : jsstring :=
  formatDuration duration (lit ".") 3.

Record TimestampMap : Type := mkTimestampMap {
  local : Z;
  mpegTS : Z
}.

(** The loop over the parts of the header value.  [part.split(':', 2)]
    keeps the first two segments; [key] is the first, [value] the second
    when there is one. *)
Fixpoint timestamp_map_parts (parts : list jsstring) (local mpegTS : Z)
  : completion TimestampMap :=
  match parts with
  | [] => Normal (mkTimestampMap local mpegTS)
  | part :: rest =>
      match firstn 2 (split (lit ":") part) with
      | key :: value :: _ =>
          match key, value with
          | _ :: _, _ :: _ =>
              let name := trim (toLowerCase key) in
              if JsString.eqb name (lit "local") then
                bind (parseWebVTTDuration value) (fun local =>
                timestamp_map_parts rest local mpegTS)
              else if JsString.eqb name (lit "mpegts") then
                match parseInt value with
                | Some mpegTS => timestamp_map_parts rest local mpegTS
                | None => Throw (Error (lit "Failed to parse MPEGTS value: " ++ value))
                end
              else timestamp_map_parts rest local mpegTS
          | _, _ => Throw (Error (lit "Invalid X-TIMESTAMP-MAP part: " ++ part))
          end
      | _ => Throw (Error (lit "Invalid X-TIMESTAMP-MAP part: " ++ part))
      end
  end.


Definition parseWebVTTTimestampMap (line : jsstring) : completion TimestampMap :=
  let splits := split (lit "=") line in
  if (length splits <=? 1)%nat then
    Throw (Error (lit "Invalid X-TIMESTAMP-MAP, no " ++ [34%N] ++ lit "=" ++ [34%N]
                  ++ lit " found"))
  else timestamp_map_parts (split (lit ",") (nth 1 splits [])) 0 0.

Definition formatWebVTTTimestampMap (local mpegTS : Z) : jsstring :=
  WEBVTT_TIMESTAMP_MAP_HEADER ++ lit "=LOCAL:" ++ formatWebVTTDuration local
  ++ lit ",MPEGTS:" ++ toString mpegTS.

End WebVtt.

(* ====================================================================== *)
(** * Theorems                                                             *)
(* ====================================================================== *)

(* ---------------------------------------------------------------------- *)
(** ** Properties of the HTML codec                                        *)
(* ---------------------------------------------------------------------- *)

Module HtmlFacts.
Import Html.
Local Open Scope N_scope.

Lemma escape_step (c : char) (s : jsstring) :
  escapeHTML (c :: s) =
  (if (c =? ch "&") || (c =? ch "<") || (c =? nbsp)
   then get_or_self HTML_ESCAPE_MAP [c] else [c]) ++ escapeHTML s.
Proof.
  unfold escapeHTML, replace_global. cbn [replace_scan match_escapable].
  destruct ((c =? ch "&") || (c =? ch "<") || (c =? nbsp)); reflexivity.
Qed.

Lemma unescape_plain (c : char) (s : jsstring) :
  c <> ch "&" -> unescapeHTML (c :: s) = c :: unescapeHTML s.
Proof.
  intros Hc. unfold unescapeHTML, replace_global.
  cbn [replace_scan match_entity].
  destruct (N.eqb_spec c (ch "&")); [contradiction | reflexivity].
Qed.

Lemma unescape_amp (s : jsstring) :
  unescapeHTML (lit "&amp;" ++ s) = ch "&" :: unescapeHTML s.
Proof. reflexivity. Qed.

Lemma unescape_lt (s : jsstring) :
  unescapeHTML (lit "&lt;" ++ s) = ch "<" :: unescapeHTML s.
Proof. reflexivity. Qed.

Lemma unescape_nbsp (s : jsstring) :
  unescapeHTML (lit "&nbsp;" ++ s) = nbsp :: unescapeHTML s.
Proof. reflexivity. Qed.

(** C9: for every string [s], [unescapeHTML (escapeHTML s)] is [s]; this
    includes strings that already contain entity-shaped text such as
    ["&lt;"], whose ampersand is escaped and restored. *)
Theorem unescape_escape_id (s : jsstring) : unescapeHTML (escapeHTML s) = s.
Proof.
  induction s as [|c s IH]; [reflexivity|].
  rewrite escape_step.
  destruct (N.eqb_spec c (ch "&")) as [->|Hamp].
  { cbn [orb]. change (get_or_self HTML_ESCAPE_MAP [ch "&"]) with (lit "&amp;").
    rewrite unescape_amp, IH. reflexivity. }
  destruct (N.eqb_spec c (ch "<")) as [->|Hlt].
  { cbn [orb]. change (get_or_self HTML_ESCAPE_MAP [ch "<"]) with (lit "&lt;").
    rewrite unescape_lt, IH. reflexivity. }
  destruct (N.eqb_spec c nbsp) as [->|Hnb].
  { cbn [orb]. change (get_or_self HTML_ESCAPE_MAP [nbsp]) with (lit "&nbsp;").
    rewrite unescape_nbsp, IH. reflexivity. }
  cbn [orb app]. rewrite unescape_plain by assumption. now rewrite IH.
Qed.

Example escape_entity_shaped :
  escapeHTML (lit "a&lt;b <c>") = lit "a&amp;lt;b &lt;c>"
  /\ unescapeHTML (lit "a&amp;lt;b &lt;c>") = lit "a&lt;b <c>".
Proof. split; reflexivity. Qed.

End HtmlFacts.

(* ---------------------------------------------------------------------- *)
(** ** String facts used by the duration codec                             *)
(* ---------------------------------------------------------------------- *)

Module JsStringFacts.

Local Open Scope N_scope.

(** [avoids c s]: the code unit [c] does not occur in [s]. *)
Definition avoids (c : char) (s : jsstring) : Prop := Forall (fun x => x <> c) s.

Definition all_digits (s : jsstring) : Prop := Forall (fun x => isDigit x = true) s.

Lemma isDigit_range c : isDigit c = true <-> 48 <= c <= 57.
Proof.
  unfold isDigit. rewrite andb_true_iff, !N.leb_le. reflexivity.
Qed.

Lemma digit_not_space c : isDigit c = true -> isWhiteSpace c = false.
Proof.
  rewrite isDigit_range. intros Hc. unfold isWhiteSpace.
  repeat match goal with
         | |- context [?a <=? ?b] => destruct (N.leb_spec a b); try lia
         | |- context [?a =? ?b] => destruct (N.eqb_spec a b); try lia
         end;
  reflexivity.
Qed.

Lemma all_digits_avoids c s :
  all_digits s -> ~ (48 <= c <= 57) -> avoids c s.
Proof.
  intros Hs Hc. unfold avoids, all_digits in *.
  eapply Forall_impl; [|exact Hs].
  intros x Hx%isDigit_range ->. lia.
Qed.

Lemma avoids_app c s t : avoids c s -> avoids c t -> avoids c (s ++ t).
Proof. intros Hs Ht. apply Forall_app. split; assumption. Qed.

Lemma avoids_cons c x s : x <> c -> avoids c s -> avoids c (x :: s).
Proof. intros. constructor; assumption. Qed.

(** *** [split] on a one-unit separator *)

Lemma split_scan_one_segment c cur a rest :
  avoids c a ->
  split_scan [c] 0 cur (a ++ rest) = split_scan [c] 0 (rev a ++ cur) rest.
Proof.
  intros Ha. revert cur. induction Ha as [|x a Hx Ha IH]; intros cur.
  - reflexivity.
  - cbn [app split_scan startsWith].
    destruct (N.eqb_spec c x) as [->|_]; [contradiction|].
    cbn [andb]. rewrite IH. cbn [rev]. now rewrite <- app_assoc.
Qed.

Lemma split_scan_one_sep c cur rest :
  split_scan [c] 0 cur (c :: rest) = rev cur :: split_scan [c] 0 [] rest.
Proof.
  cbn [split_scan startsWith]. now rewrite N.eqb_refl.
Qed.

Lemma split_one_more c a b :
  avoids c a -> split [c] (a ++ c :: b) = a :: split [c] b.
Proof.
  intros Ha. unfold split.
  rewrite split_scan_one_segment by assumption.
  rewrite split_scan_one_sep, app_nil_r, rev_involutive. reflexivity.
Qed.

Lemma split_one_last c a : avoids c a -> split [c] a = [a].
Proof.
  intros Ha. unfold split.
  rewrite <- (app_nil_r a) at 1.
  rewrite split_scan_one_segment by assumption.
  cbn [split_scan]. now rewrite app_nil_r, rev_involutive.
Qed.

(** *** [trim] leaves a string without white space alone *)

Definition no_space (s : jsstring) : Prop := Forall (fun x => isWhiteSpace x = false) s.

Lemma trimStart_no_space s : no_space s -> trimStart s = s.
Proof. intros [|x s' Hx _]; [reflexivity|]. cbn. now rewrite Hx. Qed.

Lemma trim_no_space s : no_space s -> trim s = s.
Proof.
  intros Hs. unfold trim, trimEnd.
  rewrite (trimStart_no_space Hs).
  rewrite trimStart_no_space, rev_involutive; [reflexivity|].
  apply Forall_rev. exact Hs.
Qed.

Lemma all_digits_no_space s : all_digits s -> no_space s.
Proof.
  intros Hs. eapply Forall_impl; [|exact Hs]. apply digit_not_space.
Qed.

(** *** [parseInt] on a string of digits *)

Lemma takeWhile_all {A} (p : A -> bool) l :
  Forall (fun x => p x = true) l -> takeWhile p l = l.
Proof.
  induction 1 as [|x l Hx _ IH]; [reflexivity|].
  cbn. now rewrite Hx, IH.
Qed.

Lemma parseInt_digits s :
  all_digits s -> s <> [] -> parseInt s = Some (digits_value s).
Proof.
  intros Hs Hne. unfold parseInt.
  rewrite (trimStart_no_space (all_digits_no_space Hs)).
  destruct s as [|c t]; [contradiction|].
  pose proof (Forall_inv Hs) as Hc. apply isDigit_range in Hc.
  destruct (N.eqb_spec c (ch "-")) as [E|_]; [cbn in E; lia|].
  destruct (N.eqb_spec c (ch "+")) as [E|_]; [cbn in E; lia|].
  rewrite (takeWhile_all _ Hs).
  f_equal. now destruct (digits_value (c :: t)).
Qed.

End JsStringFacts.

(* ---------------------------------------------------------------------- *)
(** ** Properties of the duration codec                                    *)
(* ---------------------------------------------------------------------- *)

Module DurationFacts.
Import Duration JsStringFacts.
Local Open Scope Z_scope.

(** A zero-padded field: [w] digits whose value is [n]. *)
Definition padded_field (w : nat) (n : Z) : bool :=
  let s := padStart w (ch "0") (toString n) in
  forallb isDigit s && (length s =? w)%nat && (digits_value s =? n).

Lemma padded_field_below_1000 :
  forallb (fun k => padded_field 3 (Z.of_nat k)) (seq 0 1000) = true.
Proof. vm_compute. reflexivity. Qed.

Lemma padded_field_below_100 :
  forallb (fun k => padded_field 2 (Z.of_nat k)) (seq 0 100) = true.
Proof. vm_compute. reflexivity. Qed.

Lemma padded_field_spec w n :
  padded_field w n = true ->
  let s := padStart w (ch "0") (toString n) in
  all_digits s /\ length s = w /\ digits_value s = n.
Proof.
  unfold padded_field. cbv zeta.
  rewrite !andb_true_iff, forallb_forall, Nat.eqb_eq, Z.eqb_eq.
  intros [[Hd Hl] Hv]. repeat split; try assumption.
  apply Forall_forall. exact Hd.
Qed.

Lemma pad3_field n :
  0 <= n < 1000 ->
  let s := padStart 3 (ch "0") (toString n) in
  all_digits s /\ length s = 3%nat /\ digits_value s = n.
Proof.
  intros Hn. apply padded_field_spec.
  pose proof padded_field_below_1000 as H.
  rewrite forallb_forall in H.
  specialize (H (Z.to_nat n)). rewrite Z2Nat.id in H by lia.
  apply H. apply in_seq. lia.
Qed.

Lemma pad2_field n :
  0 <= n < 100 ->
  let s := padStart 2 (ch "0") (toString n) in
  all_digits s /\ length s = 2%nat /\ digits_value s = n.
Proof.
  intros Hn. apply padded_field_spec.
  pose proof padded_field_below_100 as H.
  rewrite forallb_forall in H.
  specialize (H (Z.to_nat n)). rewrite Z2Nat.id in H by lia.
  apply H. apply in_seq. lia.
Qed.

Lemma nonempty_of_length {A} (l : list A) n : length l = S n -> l <> [].
Proof. destruct l; [discriminate | congruence]. Qed.

(** The separators of the SRT and WebVTT timestamps. *)
Definition comma_or_dot (sep : jsstring) : Prop := sep = lit "," \/ sep = lit ".".

Section Clock.

Variables H M S F : jsstring.
Variable sep : jsstring.
Hypothesis Hsep : comma_or_dot sep.
Hypothesis HH : all_digits H /\ H <> [].
Hypothesis HM : all_digits M /\ M <> [].
Hypothesis HS : all_digits S /\ S <> [].
Hypothesis HF : all_digits F /\ (1 <= length F <= 3)%nat.

(** What [parseDuration] returns on [H:M:S<sep>F]. *)
Lemma parseDuration_clock :
  parseDuration (H ++ lit ":" ++ M ++ lit ":" ++ S ++ sep ++ F) sep 3 =
  Normal (digits_value F * 10 ^ (3 - Z.of_nat (length F))
          + digits_value S * 1000 + digits_value M * 60 * 1000
          + digits_value H * 60 * 60 * 1000).
Proof.
  destruct HH as [dH nH], HM as [dM nM], HS as [dS nS], HF as [dF lF].
  assert (Hc : exists c, sep = [c] /\ ~ (48 <= c <= 57)%N /\ c <> ch ":").
  { destruct Hsep as [-> | ->]; eexists; (split; [reflexivity|]);
      cbn; split; lia. }
  destruct Hc as (c & -> & Hcd & Hcc).
  set (clock := H ++ lit ":" ++ M ++ lit ":" ++ S).
  assert (Hclock : avoids c clock).
  { unfold clock.
    repeat first [ apply avoids_app | apply avoids_cons
                 | apply all_digits_avoids; [assumption | exact Hcd]
                 | constructor ]; congruence. }
  assert (Hno : no_space clock).
  { unfold clock, no_space.
    repeat first [ apply Forall_app; split | apply all_digits_no_space; assumption
                 | constructor ]. }
  unfold parseDuration.
  replace (H ++ lit ":" ++ M ++ lit ":" ++ S ++ [c] ++ F) with (clock ++ c :: F)
    by (unfold clock; now rewrite <- !app_assoc).
  rewrite split_one_more by assumption.
  rewrite split_one_last by (apply all_digits_avoids; assumption).
  cbn [length Nat.leb last removelast join].
  rewrite (trim_no_space (all_digits_no_space dF)).
  destruct (Nat.ltb_spec 3 (length F)) as [Hlt|_]; [lia|].
  rewrite parseInt_digits
    by first [assumption | destruct F; cbn in lF; [lia|discriminate]].
  unfold scale_pow10.
  destruct (Z.ltb_spec (3 - Z.of_nat (length F)) 0) as [Hneg|_]; [lia|].
  rewrite (trim_no_space Hno). unfold clock.
  assert (Hcolon : forall s, all_digits s -> avoids (ch ":") s).
  { intros s Hs. apply all_digits_avoids; [assumption|]. cbn. lia. }
  change (lit ":") with [ch ":"].
  change ([ch ":"] ++ M ++ [ch ":"] ++ S) with (ch ":" :: M ++ ch ":" :: S).
  rewrite split_one_more by auto.
  rewrite split_one_more by auto.
  rewrite split_one_last by auto.
  rewrite !(trim_no_space (all_digits_no_space dH)),
          !(trim_no_space (all_digits_no_space dM)),
          !(trim_no_space (all_digits_no_space dS)).
  rewrite !parseInt_digits by assumption.
  reflexivity.
Qed.

End Clock.

Lemma formatDuration_fields d sep :
  0 <= d < 24 * 3600 * 1000 ->
  exists H M S F,
    formatDuration d sep 3 = H ++ lit ":" ++ M ++ lit ":" ++ S ++ sep ++ F
    /\ (all_digits H /\ H <> []) /\ (all_digits M /\ M <> [])
    /\ (all_digits S /\ S <> []) /\ (all_digits F /\ length F = 3%nat)
    /\ digits_value F + digits_value S * 1000 + digits_value M * 60 * 1000
       + digits_value H * 60 * 60 * 1000 = d.
Proof.
  intros Hd. unfold formatDuration, div_pow10.
  change (3 - 3 <? 0) with false. cbv iota.
  change (10 ^ (3 - 3)) with 1. change (Z.to_nat 3) with 3%nat.
  rewrite !Z.rem_mod_nonneg by lia. rewrite Z.div_1_r.
  set (h := d / (60 * 60 * 1000)).
  set (m := d mod (60 * 60 * 1000) / (60 * 1000)).
  set (s := d mod (60 * 1000) / 1000).
  set (f := d mod 1000).
  assert (Hh : 0 <= h < 100) by (unfold h; split;
    [apply Z.div_pos; lia | apply Z.div_lt_upper_bound; lia]).
  assert (Hm : 0 <= m < 100).
  { unfold m. pose proof (Z.mod_pos_bound d (60 * 60 * 1000) ltac:(lia)).
    split; [apply Z.div_pos; lia | apply Z.div_lt_upper_bound; lia]. }
  assert (Hs : 0 <= s < 100).
  { unfold s. pose proof (Z.mod_pos_bound d (60 * 1000) ltac:(lia)).
    split; [apply Z.div_pos; lia | apply Z.div_lt_upper_bound; lia]. }
  assert (Hf : 0 <= f < 1000) by (unfold f; apply Z.mod_pos_bound; lia).
  destruct (pad2_field Hh) as (dH & lH & vH).
  destruct (pad2_field Hm) as (dM & lM & vM).
  destruct (pad2_field Hs) as (dS & lS & vS).
  destruct (pad3_field Hf) as (dF & lF & vF).
  do 4 eexists. split; [reflexivity|].
  repeat split; try assumption; try (eapply nonempty_of_length; eassumption).
  rewrite vH, vM, vS, vF. unfold h, m, s, f.
  clear. Z.to_euclidean_division_equations. lia.
Qed.

(** C1 (amended): with three millisecond digits and the separator [,] or
    [.], parsing the formatted text of a duration [d] from zero up to, not
    including, 24 hours gives [d] back; and on parse with three expected
    digits, a millisecond segment [F] of one to three digits is multiplied
    by ten to the power three minus its length, for fields of digits whose
    value in milliseconds is a safe integer. *)
Theorem parseDuration_formatDuration (d : Z) (sep H M S F : jsstring)
    (Hd : 0 <= d < 24 * 3600 * 1000)
    (Hsep : comma_or_dot sep)
    (HH : all_digits H /\ H <> [])
    (HM : all_digits M /\ M <> [])
    (HS : all_digits S /\ S <> [])
    (HF : all_digits F /\ (1 <= length F <= 3)%nat)
    (Hsafe : digits_value F * 10 ^ (3 - Z.of_nat (length F))
             + digits_value S * 1000 + digits_value M * 60 * 1000
             + digits_value H * 60 * 60 * 1000 <= MAX_SAFE_INTEGER) :
  parseDuration (formatDuration d sep 3) sep 3 = Normal d
  /\ parseDuration (H ++ lit ":" ++ M ++ lit ":" ++ S ++ sep ++ F) sep 3 =
     Normal (digits_value F * 10 ^ (3 - Z.of_nat (length F))
             + digits_value S * 1000 + digits_value M * 60 * 1000
             + digits_value H * 60 * 60 * 1000).
Proof.
  split; [|now apply parseDuration_clock].
  destruct (formatDuration_fields sep Hd)
    as (H' & M' & S' & F' & -> & HH' & HM' & HS' & [dF lF] & Hval).
  rewrite parseDuration_clock; try assumption.
  - rewrite lF. change (10 ^ (3 - Z.of_nat 3)) with 1. rewrite Z.mul_1_r.
    now rewrite Hval.
  - split; [assumption | lia].
Qed.

Lemma all_digits_lit_check (s : jsstring) : forallb isDigit s = true -> all_digits s.
Proof. intros H. apply Forall_forall. now apply forallb_forall. Qed.

Lemma parseDuration_formatDuration_witness :
  parseDuration (formatDuration 83456 (lit ".") 3) (lit ".") 3 = Normal 83456
  /\ parseDuration (lit "00" ++ lit ":" ++ lit "01" ++ lit ":" ++ lit "23"
                    ++ lit "." ++ lit "5") (lit ".") 3 =
     Normal (digits_value (lit "5") * 10 ^ (3 - Z.of_nat (length (lit "5")))
             + digits_value (lit "23") * 1000 + digits_value (lit "01") * 60 * 1000
             + digits_value (lit "00") * 60 * 60 * 1000).
Proof.
  apply parseDuration_formatDuration.
  - lia.
  - right. reflexivity.
  - split; [now apply all_digits_lit_check | discriminate].
  - split; [now apply all_digits_lit_check | discriminate].
  - split; [now apply all_digits_lit_check | discriminate].
  - split; [now apply all_digits_lit_check | cbn; lia].
  - vm_compute. discriminate.
Defined.

(** C1, as stated, fails for two digits: [formatDuration] then keeps
    hundredths of a second only, so one millisecond is formatted as
    [00:00:00.00] and parsed as zero. *)
Lemma two_digit_round_trip_fails :
  formatDuration 1 (lit ".") 2 = lit "00:00:00.00"
  /\ parseDuration (formatDuration 1 (lit ".") 2) (lit ".") 2 = Normal 0
  /\ parseDuration (formatDuration 1 (lit ".") 2) (lit ".") 2 <> Normal 1.
Proof. split; [reflexivity | split; [reflexivity | discriminate]]. Qed.

End DurationFacts.

(* ---------------------------------------------------------------------- *)
(** ** Properties of the timeline operations                               *)
(* ---------------------------------------------------------------------- *)

Module TimelineFacts.
Import Timeline.
Local Open Scope Z_scope.

(** Timestamps that are safe integers: the integers JavaScript holds
    exactly, and between which the comparisons, sums and differences of
    the source are those of the integers. *)
Definition safe_item (it : Item Z) : Prop :=
  isSafeInteger (startAt it) /\ isSafeInteger (endAt it).

Definition safe (s : Subtitles Z) : Prop := Forall safe_item (items s).

Lemma jsstring_eqb_refl (s : jsstring) : JsString.eqb s s = true.
Proof.
  induction s as [|c s IH]; [reflexivity|].
  cbn. now rewrite N.eqb_refl, IH.
Qed.

Lemma last_item_snoc {A} (l : list A) (x : A) : last_item (l ++ [x]) = Some x.
Proof.
  unfold last_item. rewrite length_app. cbn [length].
  replace (length l + 1 - 1)%nat with (length l) by lia.
  rewrite nth_error_app2 by lia. now rewrite Nat.sub_diag.
Qed.

Lemma last_item_In {A} (l : list A) (x : A) : last_item l = Some x -> In x l.
Proof. unfold last_item. apply nth_error_In. Qed.

Lemma last_item_nil {A} (l : list A) : last_item l = None -> l = [].
Proof.
  unfold last_item. intros H%nth_error_None.
  destruct l; [reflexivity | cbn in H; lia].
Qed.

(** *** [order] *)

Lemma insert_by_start_perm x l : Permutation (insert_by_start x l) (x :: l).
Proof.
  induction l as [|y l IH]; cbn; [reflexivity|].
  destruct (startAt x <=? startAt y); [reflexivity|].
  rewrite IH. apply perm_swap.
Qed.

Lemma sort_by_start_perm l : Permutation (sort_by_start l) l.
Proof.
  induction l as [|x l IH]; cbn; [reflexivity|].
  rewrite insert_by_start_perm. now constructor.
Qed.

Lemma order_perm s : Permutation (items (order s)) (items s).
Proof.
  unfold order. destruct (length (items s) <=? 1)%nat; [reflexivity|].
  apply sort_by_start_perm.
Qed.

Lemma order_Forall (P : Item Z -> Prop) s :
  Forall P (items s) -> Forall P (items (order s)).
Proof.
  intros H. eapply Permutation_Forall; [|exact H].
  symmetry. apply order_perm.
Qed.

(** *** [fragment]: the result does not depend on the fuel *)

Lemma fragment_while_more fuel fuel' w lastEnd fs fe l r :
  (fuel <= fuel')%nat ->
  fragment_while fuel w lastEnd fs fe l = Some r ->
  fragment_while fuel' w lastEnd fs fe l = Some r.
Proof.
  revert fuel' fs fe l.
  induction fuel as [|fuel IH]; intros fuel' fs fe l Hle; cbn.
  - destruct fuel'; cbn; destruct (fs <? lastEnd); congruence.
  - destruct fuel' as [|fuel']; [lia|]. cbn.
    destruct (fs <? lastEnd); [|congruence].
    apply IH. lia.
Qed.

Lemma fragment_more fuel fuel' s w r :
  (fuel <= fuel')%nat -> fragment fuel s w = Some r -> fragment fuel' s w = Some r.
Proof.
  intros Hle. unfold fragment.
  destruct (last_item (items s)); [|congruence].
  destruct (fragment_while fuel _ _ _ _ _) eqn:E; [|discriminate].
  eapply fragment_while_more in E; [|exact Hle]. now rewrite E.
Qed.

Lemma fragment_while_terminates w lastEnd :
  0 < w ->
  forall fuel fs fe l,
    lastEnd - fs <= Z.of_nat fuel ->
    fragment_while fuel w lastEnd fs fe l <> None.
Proof.
  intros Hw. induction fuel as [|fuel IH]; intros fs fe l Hfuel; cbn.
  - destruct (Z.ltb_spec fs lastEnd); [lia | discriminate].
  - destruct (Z.ltb_spec fs lastEnd); [|discriminate].
    apply IH. lia.
Qed.

Lemma fragment_terminates s w :
  0 < w -> exists fuel, fragment fuel s w <> None.
Proof.
  intros Hw. unfold fragment.
  destruct (last_item (items s)) as [lastItem|]; [|exists O; discriminate].
  exists (Z.to_nat (endAt lastItem)).
  pose proof (@fragment_while_terminates w (endAt lastItem) Hw
                (Z.to_nat (endAt lastItem)) 0 w (items s)) as H.
  destruct (fragment_while _ _ _ _ _ _); [discriminate|].
  exfalso. apply H; [lia | reflexivity].
Qed.

(** C6 (amended): shifting by -2000 keeps the item that spans 1000 to 3000,
    as the item from 0 to 1000 (its end stays positive, so only its start
    is clamped), and turns the item that spans 1000 to 5000 into the item
    from 0 to 3000. *)
Theorem add_minus_2000 (idx : option Z) (ls : list Line) :
  add (mkSubtitles [mkItem idx 1000 3000 ls]) (-2000)
    = mkSubtitles [mkItem idx 0 1000 ls]
  /\ add (mkSubtitles [mkItem idx 1000 5000 ls]) (-2000)
    = mkSubtitles [mkItem idx 0 3000 ls].
Proof. split; reflexivity. Qed.

(** C6, as stated, fails: the item that spans 1000 to 3000 is not dropped
    by the shift of -2000; its end is 1000 after the shift, which is not at
    most zero. *)
Lemma shifted_item_is_kept :
  items (add (mkSubtitles [mkItem None 1000 3000 []]) (-2000)) <> []
  /\ List.map (fun it => (startAt it, endAt it))
       (items (add (mkSubtitles [mkItem None 1000 3000 []]) (-2000))) = [(0, 1000)].
Proof. split; [discriminate | reflexivity]. Qed.

(** C5: one item from 0 to 6000, fragmented with windows of 2000 (three
    runs of the loop are enough and give the three pieces) and then
    unfragmented, is again the one item from 0 to 6000 with its lines, and
    so with its rendered text. *)
Theorem unfragment_fragment_6000 (idx : option Z) (ls : list Line) :
  let item := mkItem idx 0 6000 ls in
  fragment 3 (mkSubtitles [item]) 2000
    = Some (mkSubtitles [mkItem idx 0 2000 ls; mkItem idx 2000 4000 ls;
                         mkItem idx 4000 6000 ls])
  /\ (forall fuel s', fragment fuel (mkSubtitles [item]) 2000 = Some s' ->
        unfragment s' = mkSubtitles [item]
        /\ List.map itemToString (items (unfragment s')) = [itemToString item]).
Proof.
  cbv zeta.
  assert (F3 : fragment 3 (mkSubtitles [mkItem idx 0 6000 ls]) 2000
    = Some (mkSubtitles [mkItem idx 0 2000 ls; mkItem idx 2000 4000 ls;
                         mkItem idx 4000 6000 ls])) by reflexivity.
  split; [exact F3|].
  intros fuel s' Hs'.
  assert (E : s' = mkSubtitles [mkItem idx 0 2000 ls; mkItem idx 2000 4000 ls;
                                mkItem idx 4000 6000 ls]).
  { eapply fragment_more in Hs'; [|apply (Nat.le_max_l fuel 3)].
    eapply fragment_more in F3; [|apply (Nat.le_max_r fuel 3)].
    congruence. }
  subst s'.
  assert (U : unfragment (mkSubtitles [mkItem idx 0 2000 ls; mkItem idx 2000 4000 ls;
                                       mkItem idx 4000 6000 ls])
              = mkSubtitles [mkItem idx 0 6000 ls]).
  { unfold unfragment, order.
    cbn [items length Nat.leb sort_by_start fold_right insert_by_start startAt Z.leb
         Z.compare Pos.compare Pos.compare_cont].
    simp unfragment_outer.
    cbn [unfragment_inner itemToString lines startAt endAt set_endAt index].
    rewrite !jsstring_eqb_refl.
    cbn. simp unfragment_outer. reflexivity. }
  rewrite U. split; reflexivity.
Qed.

(** *** [forceDuration] *)

Definition ends_by (d : Z) (it : Item Z) : Prop := endAt it <= d.

Lemma getDuration_le d (s : Subtitles Z) :
  0 <= d -> Forall (ends_by d) (items s) -> getDuration s <= d.
Proof.
  intros Hd Hall. unfold getDuration.
  destruct (last_item (items s)) as [it|] eqn:E; [|exact Hd].
  apply last_item_In in E. rewrite Forall_forall in Hall. now apply Hall.
Qed.

(** What the loop leaves in front of [lastIndex] (or in the whole array,
    when it did not break) ends at [duration] or before. *)
Lemma forceDuration_loop_ends d l :
  forall i, 0 <= i ->
    let '(l', lastIndex) := forceDuration_loop d i l in
    (lastIndex = -1 /\ Forall (ends_by d) l')
    \/ (i <= lastIndex /\ Forall (ends_by d) (firstn (Z.to_nat (lastIndex - i)) l')).
Proof.
  induction l as [|item rest IH]; intros i Hi; cbn [forceDuration_loop].
  - left. split; [reflexivity | constructor].
  - destruct (Z.geb_spec (startAt item) d) as [Hge|Hlt].
    + right. rewrite Z.sub_diag. split; [lia | constructor].
    + specialize (IH (i + 1) ltac:(lia)).
      destruct (forceDuration_loop d (i + 1) rest) as [rest' lastIndex].
      assert (Hit : ends_by d (if endAt item >? d then set_endAt d item else item)).
      { unfold ends_by. destruct (Z.gtb_spec (endAt item) d); cbn; lia. }
      destruct IH as [[-> Hall] | [Hle Hall]].
      * left. split; [reflexivity | now constructor].
      * right. split; [lia|].
        replace (Z.to_nat (lastIndex - i)) with (S (Z.to_nat (lastIndex - (i + 1))))
          by lia.
        cbn [firstn]. now constructor.
Qed.

(** An item with its end clipped to [d], and the items in front of the
    first one that starts at [d] or later. *)
Definition clip (d : Z) (it : Item Z) : Item Z :=
  if endAt it >? d then set_endAt d it else it.

Definition before (d : Z) (l : list (Item Z)) : list (Item Z) :=
  takeWhile (fun it => startAt it <? d) l.

(** What the loop of [forceDuration] and the [slice] behind it leave. *)
Lemma forceDuration_loop_kept d l :
  forall i, 0 <= i ->
    let '(l', lastIndex) := forceDuration_loop d i l in
    (lastIndex = -1 /\ l' = List.map (clip d) (before d l))
    \/ (i <= lastIndex
        /\ firstn (Z.to_nat (lastIndex - i)) l' = List.map (clip d) (before d l)).
Proof.
  induction l as [|item rest IH]; intros i Hi; cbn [forceDuration_loop before takeWhile].
  - left. split; reflexivity.
  - destruct (Z.geb_spec (startAt item) d) as [Hge|Hlt].
    + right. rewrite Z.sub_diag.
      destruct (Z.ltb_spec (startAt item) d); [lia|]. split; [lia | reflexivity].
    + destruct (Z.ltb_spec (startAt item) d); [|lia].
      specialize (IH (i + 1) ltac:(lia)).
      destruct (forceDuration_loop d (i + 1) rest) as [rest' lastIndex].
      fold (before d rest). fold (clip d item). cbn [List.map].
      destruct IH as [[-> E] | [Hle E]].
      * left. split; [reflexivity | now rewrite E].
      * right. split; [lia|].
        replace (Z.to_nat (lastIndex - i)) with (S (Z.to_nat (lastIndex - (i + 1))))
          by lia.
        cbn [firstn]. now rewrite E.
Qed.

Lemma forceDuration_cut_kept d (s : Subtitles Z) :
  let '(l, lastIndex) := forceDuration_loop d 0 (items s) in
  items (if negb (lastIndex =? -1) then mkSubtitles (firstn (Z.to_nat lastIndex) l)
         else mkSubtitles l)
  = List.map (clip d) (before d (items s)).
Proof.
  pose proof (@forceDuration_loop_kept d (items s) 0 (Z.le_refl 0)) as H.
  destruct (forceDuration_loop d 0 (items s)) as [l lastIndex].
  destruct H as [[-> E] | [Hle E]].
  - exact E.
  - destruct (Z.eqb_spec lastIndex (-1)); [lia|].
    cbn [negb items]. now rewrite Z.sub_0_r in E.
Qed.

Lemma clip_ends_by d it : ends_by d (clip d it).
Proof. unfold ends_by, clip. destruct (Z.gtb_spec (endAt it) d); cbn; lia. Qed.

(** C10 (amended): with [addDummyItem] set, a target from zero up that is
    a safe integer, and timestamps that are safe integers, [forceDuration]
    leaves [getDuration] equal to the target.  Items are dropped or
    clipped only when the last item ends after the target: then the items
    from the first one that starts at the target or later are dropped, the
    ones in front of it are clipped to end at the target or before, and
    the dummy item is appended when what is left ends before the target.
    Otherwise every item stays as it is, also one that ends after the
    target, and when the last item ends before the target the dummy item
    that ends at the target is appended. *)
Theorem forceDuration_getDuration (s : Subtitles Z) (target : Z)
    (Ht : 0 <= target <= MAX_SAFE_INTEGER)
    (Hsafe : safe s) :
  getDuration (forceDuration s target true) = target
  /\ (target < getDuration s ->
      let kept := List.map (clip target) (before target (items s)) in
      items (forceDuration s target true)
      = kept ++ (if getDuration (mkSubtitles kept) <? target
                 then [dummy_item target] else [])
      /\ Forall (ends_by target) (items (forceDuration s target true)))
  /\ (getDuration s <= target ->
      items (forceDuration s target true)
      = items s ++ (if getDuration s <? target then [dummy_item target] else [])).
Proof.
  assert (Hdummy : ends_by target (dummy_item target)) by (unfold ends_by; cbn; lia).
  unfold forceDuration.
  destruct (Z.eqb_spec (getDuration s) target) as [E|NE].
  { split; [exact E|]. split; [lia|]. intros _.
    rewrite E, Z.ltb_irrefl. now rewrite app_nil_r. }
  cbn [andb].
  destruct (Z.gtb_spec (getDuration s) target) as [Hgt|Hle].
  - pose proof (forceDuration_cut_kept target s) as Hkept.
    destruct (forceDuration_loop target 0 (items s)) as [l lastIndex].
    set (s1 := if negb (lastIndex =? -1) then _ else _) in *.
    assert (Hcut : Forall (ends_by target) (items s1)).
    { rewrite Hkept. apply Forall_map, Forall_forall. intros it _. apply clip_ends_by. }
    assert (Hs1 : getDuration s1 <= target) by (apply getDuration_le; [lia | exact Hcut]).
    assert (Hd : getDuration (mkSubtitles (List.map (clip target) (before target (items s))))
                 = getDuration s1).
    { unfold getDuration. cbn [items]. now rewrite Hkept. }
    split; [|split; [|lia]].
    + destruct (Z.ltb_spec (getDuration s1) target) as [Hlt|Hge]; [|lia].
      unfold getDuration. cbn [items]. now rewrite last_item_snoc.
    + intros _. cbv zeta. rewrite Hd.
      destruct (getDuration s1 <? target); cbn [items]; rewrite Hkept.
      * split; [reflexivity|]. rewrite <- Hkept.
        apply Forall_app. split; [exact Hcut | now constructor].
      * rewrite app_nil_r. split; [reflexivity|]. now rewrite <- Hkept.
  - assert (Hlt : getDuration s < target) by lia.
    apply Z.ltb_lt in Hlt. rewrite Hlt. cbn [items].
    split; [|split; [lia | reflexivity]].
    unfold getDuration. cbn [items]. now rewrite last_item_snoc.
Qed.

Lemma forceDuration_getDuration_witness :
  let s := mkSubtitles [mkItem None 0 9 []; mkItem None 10 20 []] in
  (0 <= 8 <= MAX_SAFE_INTEGER /\ safe s)
  /\ getDuration (forceDuration s 8 true) = 8
  /\ (8 < getDuration s ->
      let kept := List.map (clip 8) (before 8 (items s)) in
      items (forceDuration s 8 true)
      = kept ++ (if getDuration (mkSubtitles kept) <? 8 then [dummy_item 8] else [])
      /\ Forall (ends_by 8) (items (forceDuration s 8 true)))
  /\ (getDuration s <= 8 ->
      items (forceDuration s 8 true)
      = items s ++ (if getDuration s <? 8 then [dummy_item 8] else [])).
Proof.
  cbv zeta.
  assert (Ht : 0 <= 8 <= MAX_SAFE_INTEGER) by (split; vm_compute; discriminate).
  assert (Hsafe : safe (mkSubtitles [mkItem None 0 9 []; mkItem None 10 20 []])).
  { repeat (constructor; [split; split; vm_compute; discriminate|]). constructor. }
  split; [split; assumption|].
  exact (forceDuration_getDuration Ht Hsafe).
Defined.

(** C10, as stated, fails: nothing is dropped or clipped unless the last
    item ends after the target.  Of the items 0 to 50 and 10 to 20, with
    the target 30, the first is left ending at 50, and the dummy item is
    put behind them. *)
Lemma forceDuration_leaves_long_item :
  forceDuration (mkSubtitles [mkItem None 0 50 []; mkItem None 10 20 []]) 30 true
  = mkSubtitles [mkItem None 0 50 []; mkItem None 10 20 []; dummy_item 30]
  /\ exists it,
       In it (items (forceDuration
                (mkSubtitles [mkItem None 0 50 []; mkItem None 10 20 []]) 30 true))
       /\ startAt it = 0 /\ 30 < endAt it.
Proof.
  split; [reflexivity|].
  exists (mkItem None 0 50 []). split; [cbn; tauto | cbn; lia].
Qed.


(** *** Timestamps that stay at or above zero *)











(** *** [fragment]: window boundaries *)

Section FragmentWindows.

Variables w lastEnd : Z.
Hypothesis Hw : 0 < w.

(** The invariant of the [while] loop when [fragmentStart] is [n * w]: no
    item reaches behind [lastEnd], and the boundaries an item still spans
    are [n * w] or later. *)
Definition cut_below (n : Z) (it : Item Z) : Prop :=
  endAt it <= lastEnd /\ forall k, startAt it < k * w < endAt it -> n <= k.

Lemma boundary_lt k n : k * w < n * w -> k < n.
Proof. apply Z.mul_lt_mono_pos_r. exact Hw. Qed.

Lemma boundary_le k n : n <= k -> ~ k * w < n * w.
Proof. intros Hle Hlt%boundary_lt. lia. Qed.

Lemma fragment_pass_cut n l :
  Forall (cut_below n) l ->
  Forall (cut_below (n + 1)) (fragment_pass (n * w) (n * w + w) l).
Proof.
  assert (Hnext : n * w + w = (n + 1) * w) by ring.
  induction 1 as [|item rest [Hend Hcut] _ IH]; cbn [fragment_pass]; [constructor|].
  destruct (Z.ltb_spec (startAt item) (n * w)) as [Hs|Hs]; cbn [andb];
    [destruct (Z.gtb_spec (endAt item) (n * w)) as [He|He]|].
  - (* the item spans fragmentStart *)
    constructor; [|constructor; [|exact IH]]; split; cbn; try lia.
    + intros k [Hk1 Hk2]. pose proof (boundary_lt _ _ Hk2).
      specialize (Hcut k ltac:(lia)). lia.
    + intros k [Hk1 _]. apply boundary_lt in Hk1. lia.
  - (* it ends at fragmentStart or before *)
    assert (Hno : forall k, startAt item < k * w < endAt item -> n + 1 <= k).
    { intros k Hk. pose proof (Hcut k Hk).
      destruct (Z.eq_dec k n) as [->|]; lia. }
    destruct (Z.ltb_spec (startAt item) (n * w + w)); cbn [andb];
      [destruct (Z.gtb_spec (endAt item) (n * w + w))|].
    1: lia.
    all: constructor; [split; assumption | exact IH].
  - (* it starts at fragmentStart or later *)
    destruct (Z.ltb_spec (startAt item) (n * w + w)) as [Hs'|Hs']; cbn [andb];
      [destruct (Z.gtb_spec (endAt item) (n * w + w)) as [He'|He']|].
    + constructor; [|constructor; [|exact IH]]; split; cbn; try lia.
      * intros k [Hk1 Hk2]. rewrite Hnext in Hk2. apply boundary_lt in Hk2.
        assert (n * w <= startAt item < k * w) as [_ Hk3] by lia.
        assert (n * w < k * w) as Hk4%boundary_lt by lia. lia.
      * intros k [Hk1 _]. rewrite Hnext in Hk1. apply boundary_lt in Hk1. lia.
    + constructor; [split; [assumption|] | exact IH].
      intros k [Hk1 Hk2].
      assert (n * w < k * w) as Hk3%boundary_lt by lia. lia.
    + constructor; [split; [assumption|] | exact IH].
      intros k [Hk1 Hk2].
      assert (n * w < k * w) as Hk3%boundary_lt by lia. lia.
Qed.

Lemma fragment_while_cut fuel :
  forall n l r,
    Forall (cut_below n) l ->
    fragment_while fuel w lastEnd (n * w) (n * w + w) l = Some r ->
    Forall (fun it => forall k, ~ startAt it < k * w < endAt it) r.
Proof.
  induction fuel as [|fuel IH]; intros n l r Hl; cbn [fragment_while];
    destruct (Z.ltb_spec (n * w) lastEnd) as [Hlt|Hge]; try discriminate.
  - intros [= <-]. eapply Forall_impl; [|exact Hl].
    intros it [Hend Hcut] k Hk. specialize (Hcut k Hk).
    pose proof (boundary_le Hcut). lia.
  - replace (n * w + w) with ((n + 1) * w) at 1 by ring.
    replace (n * w + w + w) with ((n + 1) * w + w) by ring.
    apply IH. now apply fragment_pass_cut.
  - intros [= <-]. eapply Forall_impl; [|exact Hl].
    intros it [Hend Hcut] k Hk. specialize (Hcut k Hk).
    pose proof (boundary_le Hcut). lia.
Qed.

End FragmentWindows.

(** C4 (amended): when the window size is positive, no item starts before
    zero and no item ends behind the last item of the sequence, [fragment]
    returns, and in its result no item spans a multiple of the window
    size.  The timestamps are safe integers, and so is the end of the last
    item with two window sizes added, so that every window bound the loop
    computes is exact. *)
Theorem fragment_no_boundary (s : Subtitles Z) (w : Z)
    (Hw : 0 < w)
    (Hsafe : safe s)
    (Hbound : getDuration s + 2 * w <= MAX_SAFE_INTEGER)
    (Hstart : Forall (fun it => 0 <= startAt it) (items s))
    (Hlast : forall lastItem, last_item (items s) = Some lastItem ->
               Forall (fun it => endAt it <= endAt lastItem) (items s)) :
  (exists fuel, fragment fuel s w <> None)
  /\ (forall fuel s', fragment fuel s w = Some s' ->
        forall it k, In it (items s') -> ~ startAt it < k * w < endAt it).
Proof.
  split; [now apply fragment_terminates|].
  intros fuel s'. unfold fragment.
  destruct (last_item (items s)) as [lastItem|] eqn:E.
  - destruct (fragment_while fuel _ _ _ _ _) as [r|] eqn:Er; [|discriminate].
    intros [= <-] it k Hin.
    change w with (0 * w + w) in Er at 2. change 0 with (0 * w) in Er at 1.
    apply (@fragment_while_cut w (endAt lastItem) Hw) in Er.
    + apply (@order_Forall _ (mkSubtitles r)) in Er.
      rewrite Forall_forall in Er. now apply Er.
    + specialize (Hlast lastItem eq_refl).
      rewrite Forall_forall in *. intros x Hx. split; [now apply Hlast|].
      intros j [Hj _]. specialize (Hstart x Hx).
      assert (0 * w < j * w) as Hj'%(boundary_lt Hw) by lia. lia.
  - intros [= <-] it k Hin. apply last_item_nil in E. rewrite E in Hin. destruct Hin.
Qed.

Lemma fragment_no_boundary_witness :
  (exists fuel, fragment fuel (mkSubtitles [mkItem None 0 6000 []]) 2000 <> None)
  /\ (forall fuel s', fragment fuel (mkSubtitles [mkItem None 0 6000 []]) 2000 = Some s' ->
        forall it k, In it (items s') -> ~ startAt it < k * 2000 < endAt it).
Proof.
  apply fragment_no_boundary.
  - lia.
  - constructor; [split; split; vm_compute; discriminate | constructor].
  - vm_compute. discriminate.
  - constructor; [cbn; lia | constructor].
  - intros lastItem [= <-]. constructor; [cbn; lia | constructor].
Defined.

(** C4, as stated, fails: the loop stops at the end of the last item, so an
    earlier item that ends later keeps the boundaries behind that point.
    Of the items 0 to 10000 and 5000 to 6000, with windows of 2000, the
    piece from 6000 to 10000 is left spanning 8000. *)
Lemma fragment_leaves_boundary :
  exists s',
    fragment 3 (mkSubtitles [mkItem None 0 10000 []; mkItem None 5000 6000 []]) 2000
      = Some s'
    /\ exists it k, In it (items s') /\ startAt it < k * 2000 < endAt it.
Proof.
  eexists. split; [reflexivity|].
  exists (mkItem None 6000 10000 []), 4.
  split; [cbn; tauto | cbn; lia].
Qed.

End TimelineFacts.

(* ---------------------------------------------------------------------- *)
(** ** Properties of the linear correction                                 *)
(* ---------------------------------------------------------------------- *)

Module LinearCorrectionFacts.
Import JsNumber LinearCorrection.

Lemma infinity_not_finite c : is_finite (infinity c) = false.
Proof. now destruct c. Qed.

Lemma nmul_not_finite a x : is_finite a = false -> is_finite (nmul a x) = false.
Proof.
  destruct a as [q| | |]; [discriminate| | |]; intros _; cbn.
  - destruct (sign x); [apply infinity_not_finite | reflexivity].
  - destruct (sign x); [apply infinity_not_finite | reflexivity].
  - reflexivity.
Qed.

Lemma nadd_not_finite_l x y : is_finite x = false -> is_finite (nadd x y) = false.
Proof. destruct x; [discriminate| | |]; intros _; now destruct y. Qed.

Lemma nadd_not_finite_r x y : is_finite y = false -> is_finite (nadd x y) = false.
Proof. destruct y; [discriminate| | |]; intros _; now destruct x. Qed.

Lemma nopp_not_finite x : is_finite x = false -> is_finite (nopp x) = false.
Proof. now destruct x. Qed.

Lemma nfloor_not_finite x : is_finite x = false -> is_finite (nfloor x) = false.
Proof. now destruct x. Qed.

(** Equal numbers differ by zero, or by NaN when they are infinite. *)
Lemma nsub_equal x y :
  js_eq x y = true ->
  nsub y x = NaN \/ exists q, nsub y x = Fin q /\ Qeq_bool q 0 = true.
Proof.
  destruct x as [a| | |], y as [b| | |]; try discriminate;
    unfold nsub; cbn [nopp nadd js_eq].
  - intros Hab. right. eexists. split; [reflexivity|].
    apply Qeq_bool_iff in Hab. apply Qeq_bool_iff.
    rewrite !Qred_correct, Hab. ring.
  - now left.
  - now left.
Qed.

Lemma ndiv_by_zero x y :
  (y = NaN \/ exists q, y = Fin q /\ Qeq_bool q 0 = true) ->
  is_finite (ndiv x y) = false.
Proof.
  intros [-> | (q & -> & Hq)].
  - now destruct x.
  - destruct x as [a| | |]; cbn.
    + rewrite Hq. apply infinity_not_finite.
    + apply infinity_not_finite.
    + apply infinity_not_finite.
    + reflexivity.
Qed.

(** C7 (amended): when [actual1 == actual2], [applyLinearCorrection]
    returns all the same, with as many items as before, and every item's
    [startAt] and [endAt] is then NaN or an infinity. *)
Theorem applyLinearCorrection_degenerate (s : Subtitles number)
    (actual1 desired1 actual2 desired2 : number)
    (Heq : js_eq actual1 actual2 = true) :
  let s' := applyLinearCorrection s actual1 desired1 actual2 desired2 in
  length (items s') = length (items s)
  /\ Forall (fun it => is_finite (startAt it) = false /\ is_finite (endAt it) = false)
       (items s').
Proof.
  cbv zeta. unfold applyLinearCorrection. cbn [items].
  split; [apply length_map|].
  set (a := ndiv _ _).
  assert (Ha : is_finite a = false).
  { unfold a. apply ndiv_by_zero. now apply nsub_equal. }
  apply Forall_forall. intros it (x & <- & _)%in_map_iff. cbn.
  split; apply nfloor_not_finite, nadd_not_finite_l, nmul_not_finite, Ha.
Qed.

Lemma applyLinearCorrection_degenerate_witness :
  let s := mkSubtitles [mkItem None (of_Z (-1000)) (of_Z 3000) []] in
  let s' := applyLinearCorrection s (of_Z 1000) (of_Z 2000) (of_Z 1000) (of_Z 7000) in
  length (items s') = length (items s)
  /\ Forall (fun it => is_finite (startAt it) = false /\ is_finite (endAt it) = false)
       (items s').
Proof.
  exact (@applyLinearCorrection_degenerate
           (mkSubtitles [mkItem None (of_Z (-1000)) (of_Z 3000) []])
           (of_Z 1000) (of_Z 2000) (of_Z 1000) (of_Z 7000) eq_refl).
Defined.

(** C7, as stated, fails: with [actual1 = actual2 = 1000] the call returns,
    and the item it was given from 1000 to 3000 comes back with NaN for
    both timestamps. *)
Lemma applyLinearCorrection_writes_NaN :
  applyLinearCorrection (mkSubtitles [mkItem None (of_Z 1000) (of_Z 3000) []])
    (of_Z 1000) (of_Z 2000) (of_Z 1000) (of_Z 7000)
  = mkSubtitles [mkItem None NaN NaN []].
Proof. reflexivity. Qed.

(** The example of the specification: the points 1000 to 2000 and 5000 to
    7000 give [a = 1.25], [b = 750], and 3000 is moved to 4500. *)
Example applyLinearCorrection_example :
  applyLinearCorrection (mkSubtitles [mkItem None (of_Z 3000) (of_Z 4000) []])
    (of_Z 1000) (of_Z 2000) (of_Z 5000) (of_Z 7000)
  = mkSubtitles [mkItem None (of_Z 4500) (of_Z 5750) []].
Proof. reflexivity. Qed.

End LinearCorrectionFacts.

(* ---------------------------------------------------------------------- *)
(** ** Properties of the SRT reader and of the entry points                *)
(* ---------------------------------------------------------------------- *)

Module SrtFacts.
Import Scanner Srt Entry.

Definition newline : jsstring := [10%N].

(** The input of the scenario: three lines, each ended by a line feed. *)
Definition hello_world_srt : jsstring :=
  lit "1" ++ newline ++ lit "00:01:00,000 --> 00:02:00,000" ++ newline
  ++ lit "Hello World" ++ newline.

(** C8: [readFromSRT] on the three lines [1], [00:01:00,000 -->
    00:02:00,000] and [Hello World] returns one item, from 60000 to 120000,
    with one line of one line item whose text is [Hello World] (and with
    the index 1 read from the first line). *)
Theorem readFromSRT_hello_world :
  readFromSRT hello_world_srt =
  Normal (mkSubtitles
            [mkItem (Some 1%Z) 60000%Z 120000%Z
               [mkLine [mkLineItem None (lit "Hello World")]]]).
Proof. vm_compute. reflexivity. Qed.

(** The loop of [readFromSRT] throws plain errors only. *)
Lemma parse_boundary_time_throw n what time e :
  parse_boundary_time n what time = Throw e -> exists m, e = Error m.
Proof.
  unfold parse_boundary_time.
  destruct (parseSRTDuration time); intros [= <-]. eexists. reflexivity.
Qed.

Lemma read_line_throw raw st e :
  read_line raw st = Throw e -> exists m, e = Error m.
Proof.
  unfold read_line.
  destruct (includes _ _); [|discriminate].
  destruct (length _ <? 2)%nat; [intros [= <-]; eexists; reflexivity|].
  destruct (parse_boundary_time _ (lit "start") _) as [[t1 b1]| |] eqn:E1; cbn [bind].
  - destruct (parse_boundary_time _ (lit "end") _) as [[t2 b2]| |] eqn:E2; cbn [bind];
      try discriminate.
    intros [= <-]. eapply parse_boundary_time_throw. exact E2.
  - intros [= <-]. eapply parse_boundary_time_throw. exact E1.
  - discriminate.
Qed.

Lemma read_lines_throw ls :
  forall st e, read_lines ls st = Throw e -> exists m, e = Error m.
Proof.
  induction ls as [|raw rest IH]; intros st e; cbn [read_lines]; [discriminate|].
  destruct (read_line raw st) as [st'| |] eqn:E; cbn [bind].
  - apply IH.
  - intros [= <-]. eapply read_line_throw. exact E.
  - discriminate.
Qed.

Lemma readFromSRT_throw content e :
  readFromSRT content = Throw e -> exists m, e = Error m.
Proof.
  unfold readFromSRT.
  destruct (read_lines _ _) as [st| |] eqn:E; cbn [bind].
  - destruct (tainted st); discriminate.
  - intros [= <-]. eapply read_lines_throw. exact E.
  - discriminate.
Qed.

(** What the entry points do: [readFromString] throws the extension error
    exactly when the lower-cased format name is not [srt], and
    [writeToString] throws exactly when there are no items or the
    lower-cased format name is not [srt]. *)
Lemma readFromString_extension_error content format :
  readFromString content format = Throw InvalidExtensionError
  <-> JsString.eqb (toLowerCase format) (lit "srt") = false.
Proof.
  unfold readFromString.
  destruct (JsString.eqb (toLowerCase format) (lit "srt")); split;
    try reflexivity; try discriminate.
  intros H. apply readFromSRT_throw in H as [m Hm]. discriminate.
Qed.

Lemma writeToString_throws (s : Subtitles Z) format :
  is_throw (writeToString s format) = true
  <-> items s = [] \/ JsString.eqb (toLowerCase format) (lit "srt") = false.
Proof.
  unfold writeToString, writeToSRT.
  destruct (items s) as [|item rest].
  - split; [now left | reflexivity].
  - destruct (JsString.eqb (toLowerCase format) (lit "srt")); cbn [is_throw]; split.
    + discriminate.
    + intros [|]; discriminate.
    + now right.
    + reflexivity.
Qed.

(** The input of the README for the WebVTT format. *)
Definition hello_world_vtt : jsstring :=
  lit "WEBVTT" ++ newline ++ newline ++ lit "1" ++ newline
  ++ lit "00:01:00.000 --> 00:02:00.000" ++ newline ++ lit "Hello World".

(** C3: the format name [webvtt] is not dispatched to the WebVTT codec; both
    entry points throw the extension error for it, while [srt] is
    dispatched. *)
Theorem webvtt_not_dispatched :
  readFromString hello_world_vtt (lit "webvtt") = Throw InvalidExtensionError
  /\ writeToString
       (mkSubtitles [mkItem (Some 1%Z) 60000%Z 120000%Z
                       [mkLine [mkLineItem None (lit "Hello World")]]])
       (lit "webvtt") = Throw InvalidExtensionError
  /\ readFromString hello_world_srt (lit "srt") = readFromSRT hello_world_srt
  /\ writeToString
       (mkSubtitles [mkItem (Some 1%Z) 60000%Z 120000%Z
                       [mkLine [mkLineItem None (lit "Hello World")]]])
       (lit "srt") = Normal (BOM :: hello_world_srt).
Proof. repeat split; vm_compute; reflexivity. Qed.

End SrtFacts.

(* ---------------------------------------------------------------------- *)
(** ** Timestamps below zero                                               *)
(* ---------------------------------------------------------------------- *)

Module ClampFacts.
Import Timeline TimelineFacts JsNumber LinearCorrection.
Local Open Scope Z_scope.




End ClampFacts.

(* ---------------------------------------------------------------------- *)
(** ** Integers as text, in general                                        *)
(* ---------------------------------------------------------------------- *)

Module JsIntFacts.
Import JsStringFacts Helpers.
Local Open Scope Z_scope.

Definition digit_step (acc : Z) (c : char) : Z := 10 * acc + (Z.of_N c - 48).

Lemma uint_chars_digits u : all_digits (uint_chars u).
Proof. induction u; cbn; constructor; auto. Qed.

Lemma fold_uint_chars_acc u :
  forall acc : positive,
    fold_left digit_step (uint_chars u) (Z.pos acc) = Z.pos (Pos.of_uint_acc u acc).
Proof.
  induction u; intros acc; cbn [uint_chars fold_left Pos.of_uint_acc];
    try reflexivity;
    match goal with
    | |- fold_left _ _ ?z = Z.pos (Pos.of_uint_acc _ ?p) =>
        replace z with (Z.pos p) by (unfold digit_step; lia)
    end; apply IHu.
Qed.

Lemma fold_uint_chars u :
  fold_left digit_step (uint_chars u) 0 = Z.of_N (Pos.of_uint u).
Proof.
  induction u; cbn [uint_chars fold_left Pos.of_uint]; try reflexivity;
    [exact IHu | ..];
    match goal with
    | |- fold_left _ _ ?z = Z.of_N (N.pos (Pos.of_uint_acc _ ?p)) =>
        replace z with (Z.pos p) by (unfold digit_step; lia)
    end; apply fold_uint_chars_acc.
Qed.

Lemma digits_value_uint u : digits_value (uint_chars u) = Z.of_N (Pos.of_uint u).
Proof. apply fold_uint_chars. Qed.

Lemma uint_chars_nonempty u : u <> Decimal.Nil -> uint_chars u <> [].
Proof. destruct u; cbn; congruence. Qed.

(** The text of an integer that is not negative: digits, at least one, with
    the integer as their value. *)
Lemma toString_nonneg n :
  0 <= n ->
  all_digits (toString n) /\ toString n <> [] /\ digits_value (toString n) = n.
Proof.
  intros Hn. destruct n as [|p|p]; [| |lia].
  - repeat split; [repeat constructor | discriminate].
  - cbn [toString Z.to_N N.to_uint].
    split; [apply uint_chars_digits|]. split.
    + apply uint_chars_nonempty, DecimalPos.Unsigned.to_uint_nonnil.
    + rewrite digits_value_uint, DecimalPos.Unsigned.of_to. reflexivity.
Qed.

Lemma parseInt_minus_digits s :
  all_digits s -> s <> [] -> parseInt (ch "-" :: s) = Some (- digits_value s).
Proof.
  intros Hs Hne. unfold parseInt. cbn.
  rewrite (takeWhile_all _ Hs).
  destruct s as [|c t]; [contradiction|].
  f_equal; try lia; now destruct (digits_value (c :: t)).
Qed.

Lemma parseInt_toString n : parseInt (toString n) = Some n.
Proof.
  destruct (Z.neg_nonneg_cases n) as [Hneg|Hpos].
  - destruct n as [|p|p]; try lia.
    cbn [toString].
    rewrite parseInt_minus_digits.
    + rewrite digits_value_uint, DecimalPos.Unsigned.of_to. reflexivity.
    + apply uint_chars_digits.
    + apply uint_chars_nonempty, DecimalPos.Unsigned.to_uint_nonnil.
  - destruct (toString_nonneg Hpos) as (Hd & Hne & Hv).
    rewrite parseInt_digits by assumption. now rewrite Hv.
Qed.

(** X28: [parseIntSafe] reads back the text of every safe integer, negative
    ones too, whatever the default. *)
Theorem parseIntSafe_toString (n defaultValue : Z) :
  isSafeInteger n -> parseIntSafe (toString n) defaultValue = n.
Proof. intros _. unfold parseIntSafe. now rewrite parseInt_toString. Qed.

Lemma parseIntSafe_toString_witness : parseIntSafe (toString (-1204)) 7 = -1204.
Proof. apply parseIntSafe_toString. split; vm_compute; discriminate. Defined.

(** [parseIntSafe] gives the default for the empty text and for a text
    that starts with something other than white space, a sign or a digit. *)
Lemma parseIntSafe_default (c : char) (rest : jsstring) (defaultValue : Z) :
  isDigit c = false -> isWhiteSpace c = false -> c <> ch "-" -> c <> ch "+" ->
  parseIntSafe (c :: rest) defaultValue = defaultValue
  /\ parseIntSafe [] defaultValue = defaultValue.
Proof.
  intros Hd Hw Hm Hp. split; [|reflexivity].
  unfold parseIntSafe, parseInt. cbn [trimStart]. rewrite Hw.
  destruct (N.eqb_spec c (ch "-")); [contradiction|].
  destruct (N.eqb_spec c (ch "+")); [contradiction|].
  cbn [takeWhile]. now rewrite Hd.
Qed.

Lemma parseIntSafe_default_witness :
  parseIntSafe (lit "x12") 7 = 7 /\ parseIntSafe [] 7 = 7.
Proof.
  apply parseIntSafe_default; try reflexivity; discriminate.
Defined.

End JsIntFacts.

(* ---------------------------------------------------------------------- *)
(** ** The duration codec beyond the claims                                *)
(* ---------------------------------------------------------------------- *)

Module DurationMoreFacts.
Import Duration JsStringFacts DurationFacts JsIntFacts.
Local Open Scope Z_scope.

(** *** Padding a string of digits *)

Lemma digits_value_zeros k s :
  digits_value (repeat (ch "0") k ++ s) = digits_value s.
Proof.
  unfold digits_value. rewrite fold_left_app.
  replace (fold_left _ (repeat (ch "0") k) 0) with 0; [reflexivity|].
  induction k as [|k IH]; [reflexivity | exact IH].
Qed.

Lemma padStart_digits w s :
  all_digits s -> s <> [] ->
  all_digits (padStart w (ch "0") s) /\ padStart w (ch "0") s <> []
  /\ digits_value (padStart w (ch "0") s) = digits_value s.
Proof.
  intros Hs Hne. unfold padStart. repeat split.
  - apply Forall_app. split; [|exact Hs].
    apply Forall_forall. intros x Hx%repeat_spec. now subst.
  - destruct (repeat _ _); [exact Hne | discriminate].
  - apply digits_value_zeros.
Qed.

Lemma padded_nonneg w n :
  0 <= n ->
  let s := padStart w (ch "0") (toString n) in
  all_digits s /\ s <> [] /\ digits_value s = n.
Proof.
  intros Hn. destruct (toString_nonneg Hn) as (Hd & Hne & Hv).
  destruct (padStart_digits w Hd Hne) as (Hd' & Hne' & Hv').
  cbv zeta. rewrite Hv' , Hv. auto.
Qed.

(** *** The last segment of a split *)

Lemma split_scan_last c F :
  avoids c F ->
  forall A cur,
    let parts := split_scan [c] 0 cur (A ++ c :: F) in
    last parts [] = F /\ (2 <= length parts)%nat.
Proof.
  intros HF. induction A as [|x A IH]; intros cur; cbv zeta.
  - cbn [app]. rewrite split_scan_one_sep.
    change (split_scan [c] 0 [] F) with (split [c] F).
    rewrite split_one_last by assumption. split; [reflexivity | cbn; lia].
  - cbn [app]. destruct (N.eqb_spec x c) as [->|Hx].
    + rewrite split_scan_one_sep.
      destruct (IH []) as [Hl Hn]. cbv zeta in Hl, Hn.
      destruct (split_scan [c] 0 [] (A ++ c :: F)) as [|p ps] eqn:E;
        [cbn in Hn; lia|].
      split; [exact Hl | cbn; lia].
    + cbn [split_scan startsWith].
      destruct (N.eqb_spec c x) as [->|_]; [contradiction|]. cbn [andb].
      apply IH.
Qed.

(** X6: More than three units in the millisecond segment: [parseDuration]
    throws, whatever stands before the last separator and whatever number
    of digits is expected. *)
Theorem parseDuration_too_many_digits (A F : jsstring) (c : char) (digits : Z) :
  avoids c F -> (3 < length (trim F))%nat ->
  parseDuration (A ++ c :: F) [c] digits =
  Throw (Error (lit "Invalid number of millisecond digits detected in " ++ A ++ c :: F)).
Proof.
  intros HF Hlen. unfold parseDuration, split.
  destruct (split_scan_last HF A []) as [Hl Hn]. cbv zeta in Hl, Hn.
  destruct (Nat.leb_spec 2 (length (split_scan [c] 0 [] (A ++ c :: F)))); [|lia].
  rewrite Hl.
  destruct (Nat.ltb_spec 3 (length (trim F))); [reflexivity | lia].
Qed.

Lemma parseDuration_too_many_digits_witness :
  parseDuration (lit "00:00:01" ++ ch "." :: lit "1234") [ch "."] 3 =
  Throw (Error (lit "Invalid number of millisecond digits detected in "
                ++ lit "00:00:01" ++ ch "." :: lit "1234")).
Proof.
  apply parseDuration_too_many_digits.
  - repeat constructor; discriminate.
  - cbn. lia.
Defined.

(** *** Timestamps with any separator and any number of expected digits *)

Section ClockAny.

Variables H M S F : jsstring.
Variable c : char.
Variable digits : Z.
Hypothesis Hcd : ~ (48 <= c <= 57)%N.
Hypothesis Hcc : c <> ch ":".
Hypothesis HH : all_digits H /\ H <> [].
Hypothesis HM : all_digits M /\ M <> [].
Hypothesis HS : all_digits S /\ S <> [].
Hypothesis HF : all_digits F /\ (1 <= length F <= 3)%nat.
Hypothesis Hdigits : Z.of_nat (length F) <= digits.

Lemma colon_avoided s : all_digits s -> avoids (ch ":") s.
Proof. intros Hs. apply all_digits_avoids; [assumption|]. cbn. lia. Qed.

Lemma millis_segment :
  trim F = F /\ (3 <? length F)%nat = false /\ parseInt F = Some (digits_value F)
  /\ scale_pow10 (digits_value F) (digits - Z.of_nat (length F))
     = Some (digits_value F * 10 ^ (digits - Z.of_nat (length F))).
Proof.
  destruct HF as [dF lF]. repeat split.
  - apply trim_no_space, all_digits_no_space, dF.
  - apply Nat.ltb_ge. lia.
  - apply parseInt_digits; [exact dF|]. destruct F; cbn in lF; [lia | discriminate].
  - unfold scale_pow10.
    destruct (Z.ltb_spec (digits - Z.of_nat (length F)) 0); [lia | reflexivity].
Qed.

(** Hours, minutes, seconds and a millisecond segment. *)
Lemma parseDuration_hms :
  parseDuration (H ++ lit ":" ++ M ++ lit ":" ++ S ++ c :: F) [c] digits =
  Normal (digits_value F * 10 ^ (digits - Z.of_nat (length F))
          + digits_value S * 1000 + digits_value M * 60 * 1000
          + digits_value H * 60 * 60 * 1000).
Proof.
  destruct HH as [dH nH], HM as [dM nM], HS as [dS nS].
  destruct millis_segment as (Ht & Hl & Hp & Hsc).
  set (clock := H ++ lit ":" ++ M ++ lit ":" ++ S).
  assert (Hclock : avoids c clock).
  { unfold clock.
    repeat first [ apply avoids_app | apply avoids_cons
                 | apply all_digits_avoids; [assumption | exact Hcd]
                 | constructor ]; congruence. }
  assert (Hno : no_space clock).
  { unfold clock, no_space.
    repeat first [ apply Forall_app; split | apply all_digits_no_space; assumption
                 | constructor ]. }
  unfold parseDuration.
  replace (H ++ lit ":" ++ M ++ lit ":" ++ S ++ c :: F) with (clock ++ c :: F)
    by (unfold clock; now rewrite <- !app_assoc).
  rewrite split_one_more by assumption.
  rewrite split_one_last by (apply all_digits_avoids; [apply HF | exact Hcd]).
  cbn [length Nat.leb last removelast join].
  rewrite Ht, Hl, Hp, Hsc.
  rewrite (trim_no_space Hno). unfold clock.
  change (lit ":") with [ch ":"].
  change ([ch ":"] ++ M ++ [ch ":"] ++ S) with (ch ":" :: M ++ ch ":" :: S).
  rewrite split_one_more by now apply colon_avoided.
  rewrite split_one_more by now apply colon_avoided.
  rewrite split_one_last by now apply colon_avoided.
  rewrite !(trim_no_space (all_digits_no_space dH)),
          !(trim_no_space (all_digits_no_space dM)),
          !(trim_no_space (all_digits_no_space dS)).
  rewrite !parseInt_digits by assumption.
  reflexivity.
Qed.

(** Minutes, seconds and a millisecond segment: the hours are zero. *)
Lemma parseDuration_ms :
  parseDuration (M ++ lit ":" ++ S ++ c :: F) [c] digits =
  Normal (digits_value F * 10 ^ (digits - Z.of_nat (length F))
          + digits_value S * 1000 + digits_value M * 60 * 1000).
Proof.
  destruct HM as [dM nM], HS as [dS nS].
  destruct millis_segment as (Ht & Hl & Hp & Hsc).
  set (clock := M ++ lit ":" ++ S).
  assert (Hclock : avoids c clock).
  { unfold clock.
    repeat first [ apply avoids_app | apply avoids_cons
                 | apply all_digits_avoids; [assumption | exact Hcd]
                 | constructor ]; congruence. }
  assert (Hno : no_space clock).
  { unfold clock, no_space.
    repeat first [ apply Forall_app; split | apply all_digits_no_space; assumption
                 | constructor ]. }
  unfold parseDuration.
  replace (M ++ lit ":" ++ S ++ c :: F) with (clock ++ c :: F)
    by (unfold clock; now rewrite <- !app_assoc).
  rewrite split_one_more by assumption.
  rewrite split_one_last by (apply all_digits_avoids; [apply HF | exact Hcd]).
  cbn [length Nat.leb last removelast join].
  rewrite Ht, Hl, Hp, Hsc.
  rewrite (trim_no_space Hno). unfold clock.
  change (lit ":") with [ch ":"].
  change ([ch ":"] ++ S) with (ch ":" :: S).
  rewrite split_one_more by now apply colon_avoided.
  rewrite split_one_last by now apply colon_avoided.
  rewrite !(trim_no_space (all_digits_no_space dM)),
          !(trim_no_space (all_digits_no_space dS)).
  rewrite !parseInt_digits by assumption.
  f_equal. ring.
Qed.

End ClockAny.

End DurationMoreFacts.

Module DurationLaws.
Import Duration JsStringFacts DurationFacts JsIntFacts DurationMoreFacts.
Local Open Scope Z_scope.

(** The text [formatDuration] produces for a duration that is not
    negative, with two or three millisecond digits. *)
Lemma formatDuration_fields_any d (c : char) digits :
  0 <= d -> digits = 2 \/ digits = 3 ->
  exists H M S F,
    formatDuration d [c] digits = H ++ lit ":" ++ M ++ lit ":" ++ S ++ c :: F
    /\ (all_digits H /\ H <> []) /\ (all_digits M /\ M <> [])
    /\ (all_digits S /\ S <> [])
    /\ all_digits F /\ Z.of_nat (length F) = digits
    /\ digits_value F = d mod 1000 / 10 ^ (3 - digits)
    /\ digits_value S * 1000 + digits_value M * 60 * 1000
       + digits_value H * 60 * 60 * 1000 = d - d mod 1000.
Proof.
  intros Hd Hdigits. unfold formatDuration, div_pow10.
  assert (Hlt : (3 - digits <? 0) = false) by (apply Z.ltb_ge; lia).
  rewrite Hlt. rewrite !Z.rem_mod_nonneg by lia.
  set (h := d / (60 * 60 * 1000)).
  set (m := d mod (60 * 60 * 1000) / (60 * 1000)).
  set (s := d mod (60 * 1000) / 1000).
  set (f := d mod 1000 / 10 ^ (3 - digits)).
  assert (Hh : 0 <= h) by (unfold h; apply Z.div_pos; lia).
  assert (Hm : 0 <= m < 100).
  { unfold m. pose proof (Z.mod_pos_bound d (60 * 60 * 1000) ltac:(lia)).
    split; [apply Z.div_pos; lia | apply Z.div_lt_upper_bound; lia]. }
  assert (Hs : 0 <= s < 100).
  { unfold s. pose proof (Z.mod_pos_bound d (60 * 1000) ltac:(lia)).
    split; [apply Z.div_pos; lia | apply Z.div_lt_upper_bound; lia]. }
  destruct (padded_nonneg 2 Hh) as (dH & nH & vH).
  destruct (pad2_field Hm) as (dM & lM & vM).
  destruct (pad2_field Hs) as (dS & lS & vS).
  assert (HF : all_digits (padStart (Z.to_nat digits) (ch "0") (toString f))
               /\ Z.of_nat (length (padStart (Z.to_nat digits) (ch "0") (toString f)))
                  = digits
               /\ digits_value (padStart (Z.to_nat digits) (ch "0") (toString f)) = f).
  { pose proof (Z.mod_pos_bound d 1000 ltac:(lia)) as Hb.
    destruct Hdigits as [-> | ->]; unfold f.
    - change (10 ^ (3 - 2)) with 10. change (Z.to_nat 2) with 2%nat.
      assert (Hf : 0 <= d mod 1000 / 10 < 100)
        by (split; [apply Z.div_pos; lia | apply Z.div_lt_upper_bound; lia]).
      destruct (pad2_field Hf) as (dF & lF & vF).
      repeat split; try assumption. now rewrite lF.
    - change (10 ^ (3 - 3)) with 1. change (Z.to_nat 3) with 3%nat.
      rewrite Z.div_1_r.
      destruct (pad3_field Hb) as (dF & lF & vF).
      repeat split; try assumption. now rewrite lF. }
  destruct HF as (dF & lF & vF).
  do 4 eexists. split; [reflexivity|].
  repeat split; try assumption; try (eapply nonempty_of_length; eassumption).
  rewrite vH, vM, vS. unfold h, m, s.
  clear. Z.to_euclidean_division_equations. lia.
Qed.

Lemma parseDuration_formatDuration_any d (c : char) digits :
  0 <= d -> digits = 2 \/ digits = 3 -> ~ (48 <= c <= 57)%N -> c <> ch ":" ->
  parseDuration (formatDuration d [c] digits) [c] digits
  = Normal (d - d mod 1000 + d mod 1000 / 10 ^ (3 - digits)).
Proof.
  intros Hd Hdigits Hcd Hcc.
  destruct (@formatDuration_fields_any d c digits Hd Hdigits)
    as (H & M & S & F & E & HH & HM & HS & dF & lF & vF & Hsum).
  rewrite E. rewrite parseDuration_hms; try assumption.
  - rewrite lF, Z.sub_diag, Z.mul_1_r, vF. f_equal. lia.
  - split; [assumption | lia].
  - lia.
Qed.

(** X2: The timestamps of SRT and WebVTT are read back exactly, for every
    duration from zero up that is a safe integer (the hours take as many
    digits as they need): by the parsers of [duration.ts], and by the
    parser of [srt.ts] that tries the three separators. *)
Theorem timestamp_round_trip (d : Z) :
  0 <= d <= MAX_SAFE_INTEGER ->
  Duration.parseSRTDuration (Duration.formatSRTDuration d) = Normal d
  /\ parseWebVTTDuration (formatWebVTTDuration d) = Normal d
  /\ Srt.parseSRTDuration (Srt.formatSRTDuration d) = Normal d.
Proof.
  intros [Hd _].
  assert (Hc : parseDuration (formatDuration d (lit ",") 3) (lit ",") 3 = Normal d).
  { change (lit ",") with [ch ","].
    rewrite (@parseDuration_formatDuration_any d (ch ",") 3 Hd (or_intror eq_refl)
               ltac:(cbn; lia) ltac:(discriminate)).
    change (10 ^ (3 - 3)) with 1. rewrite Z.div_1_r. f_equal. lia. }
  assert (Hp : parseDuration (formatDuration d (lit ".") 3) (lit ".") 3 = Normal d).
  { change (lit ".") with [ch "."].
    rewrite (@parseDuration_formatDuration_any d (ch ".") 3 Hd (or_intror eq_refl)
               ltac:(cbn; lia) ltac:(discriminate)).
    change (10 ^ (3 - 3)) with 1. rewrite Z.div_1_r. f_equal. lia. }
  split; [exact Hc|]. split; [exact Hp|].
  unfold Srt.parseSRTDuration, Srt.formatSRTDuration.
  cbn [Srt.parseSRTDuration_from]. now rewrite Hc.
Qed.

Lemma timestamp_round_trip_witness :
  Duration.parseSRTDuration (Duration.formatSRTDuration 360000001) = Normal 360000001
  /\ parseWebVTTDuration (formatWebVTTDuration 360000001) = Normal 360000001
  /\ Srt.parseSRTDuration (Srt.formatSRTDuration 360000001) = Normal 360000001.
Proof. apply timestamp_round_trip. split; vm_compute; discriminate. Defined.

(** X3: The SSA pair does not read back what it wrote: the two digits written
    are hundredths of a second, and they are read as milliseconds.  What
    comes back, for a duration from zero up that is a safe integer, is the
    duration with its part below a second divided by ten. *)
Theorem ssa_round_trip (d : Z) :
  0 <= d <= MAX_SAFE_INTEGER ->
  parseSSADuration (formatSSADuration d) = Normal (d - d mod 1000 + d mod 1000 / 10).
Proof.
  intros [Hd _]. unfold parseSSADuration, formatSSADuration.
  change (lit ".") with [ch "."].
  rewrite (@parseDuration_formatDuration_any d (ch ".") 2 Hd (or_introl eq_refl)
             ltac:(cbn; lia) ltac:(discriminate)).
  reflexivity.
Qed.

Lemma ssa_round_trip_witness :
  parseSSADuration (formatSSADuration 1250)
  = Normal (1250 - 1250 mod 1000 + 1250 mod 1000 / 10).
Proof. apply ssa_round_trip. split; vm_compute; discriminate. Defined.

(** X7: The form without hours: minutes, seconds and a millisecond segment of
    one to three digits, which is scaled to three digits, for fields of
    digits whose value in milliseconds is a safe integer. *)
Theorem parseDuration_minutes_seconds (M S F : jsstring) (c : char) :
  ~ (48 <= c <= 57)%N -> c <> ch ":" ->
  all_digits M /\ M <> [] -> all_digits S /\ S <> [] ->
  all_digits F /\ (1 <= length F <= 3)%nat ->
  digits_value F * 10 ^ (3 - Z.of_nat (length F))
  + digits_value S * 1000 + digits_value M * 60 * 1000 <= MAX_SAFE_INTEGER ->
  parseDuration (M ++ lit ":" ++ S ++ c :: F) [c] 3 =
  Normal (digits_value F * 10 ^ (3 - Z.of_nat (length F))
          + digits_value S * 1000 + digits_value M * 60 * 1000).
Proof.
  intros Hcd Hcc HM HS HF _. apply parseDuration_ms; try assumption. lia.
Qed.

Lemma parseDuration_minutes_seconds_witness :
  parseDuration (lit "01" ++ lit ":" ++ lit "23" ++ ch "." :: lit "45") [ch "."] 3 =
  Normal (digits_value (lit "45") * 10 ^ (3 - Z.of_nat (length (lit "45")))
          + digits_value (lit "23") * 1000 + digits_value (lit "01") * 60 * 1000).
Proof.
  apply parseDuration_minutes_seconds.
  - cbn. lia.
  - discriminate.
  - split; [now apply all_digits_lit_check | discriminate].
  - split; [now apply all_digits_lit_check | discriminate].
  - split; [now apply all_digits_lit_check | cbn; lia].
  - vm_compute. discriminate.
Defined.

End DurationLaws.

(* ---------------------------------------------------------------------- *)
(** ** The separators of the SRT timestamps                                *)
(* ---------------------------------------------------------------------- *)

Module SrtDurationFacts.
Import Duration JsStringFacts DurationFacts JsIntFacts DurationMoreFacts.
Local Open Scope Z_scope.

Lemma takeWhile_digits_prefix S (c : char) rest :
  all_digits S -> isDigit c = false -> takeWhile isDigit (S ++ c :: rest) = S.
Proof.
  intros HS Hc. induction HS as [|x S Hx _ IH]; cbn [app takeWhile].
  - now rewrite Hc.
  - now rewrite Hx, IH.
Qed.

(** [parseInt] stops at the first unit that is not a digit. *)
Lemma parseInt_digits_prefix S (c : char) rest :
  all_digits S -> S <> [] -> isDigit c = false ->
  parseInt (S ++ c :: rest) = Some (digits_value S).
Proof.
  intros HS Hne Hc. unfold parseInt.
  destruct S as [|x S']; [contradiction|].
  pose proof (Forall_inv HS) as Hx.
  cbn [app trimStart]. rewrite (digit_not_space _ Hx).
  apply isDigit_range in Hx.
  destruct (N.eqb_spec x (ch "-")) as [E|_]; [cbn in E; lia|].
  destruct (N.eqb_spec x (ch "+")) as [E|_]; [cbn in E; lia|].
  change (x :: S' ++ c :: rest) with ((x :: S') ++ c :: rest).
  rewrite (@takeWhile_digits_prefix (x :: S') c rest HS Hc).
  f_equal. now destruct (digits_value (x :: S')).
Qed.

(** X4: The reader of SRT timestamps tries the comma first.  On a timestamp
    written with a comma it gives the full value.  On one written with a
    dot the comma attempt already succeeds, with the dot and what follows
    it read as part of the seconds and dropped by [parseInt]: the
    milliseconds are lost, and the attempt with the dot is never made.
    The fields are digits whose value in milliseconds is a safe integer. *)
Theorem parseSRTDuration_comma_and_dot (H M S F : jsstring) :
  all_digits H /\ H <> [] -> all_digits M /\ M <> [] -> all_digits S /\ S <> [] ->
  all_digits F /\ (1 <= length F <= 3)%nat ->
  digits_value F * 10 ^ (3 - Z.of_nat (length F))
  + digits_value S * 1000 + digits_value M * 60 * 1000
  + digits_value H * 60 * 60 * 1000 <= MAX_SAFE_INTEGER ->
  Srt.parseSRTDuration (H ++ lit ":" ++ M ++ lit ":" ++ S ++ lit "," ++ F)
  = Normal (digits_value F * 10 ^ (3 - Z.of_nat (length F))
            + digits_value S * 1000 + digits_value M * 60 * 1000
            + digits_value H * 60 * 60 * 1000)
  /\ Srt.parseSRTDuration (H ++ lit ":" ++ M ++ lit ":" ++ S ++ lit "." ++ F)
  = Normal (digits_value S * 1000 + digits_value M * 60 * 1000
            + digits_value H * 60 * 60 * 1000).
Proof.
  intros HH HM HS HF _. unfold Srt.parseSRTDuration. cbn [Srt.parseSRTDuration_from]. split.
  - change (lit ",") with [ch ","]. cbn [app].
    rewrite parseDuration_hms;
      [reflexivity
      | first [assumption | discriminate | cbn; lia | destruct HF; lia] ..].
  - destruct HH as [dH nH], HM as [dM nM], HS as [dS nS], HF as [dF lF].
    set (input := H ++ lit ":" ++ M ++ lit ":" ++ S ++ lit "." ++ F).
    assert (Hcomma : forall s, all_digits s -> avoids (ch ",") s)
      by (intros s Hs; apply all_digits_avoids; [assumption | cbn; lia]).
    assert (Hcolon : forall s, all_digits s -> avoids (ch ":") s)
      by (intros s Hs; apply all_digits_avoids; [assumption | cbn; lia]).
    assert (Hin : avoids (ch ",") input).
    { unfold input.
      repeat first [ apply avoids_app | apply avoids_cons | now apply Hcomma
                   | constructor ]; discriminate. }
    assert (Hno : no_space input).
    { unfold input, no_space.
      repeat first [ apply Forall_app; split | apply all_digits_no_space; assumption
                   | constructor ]. }
    unfold parseDuration. change (lit ",") with [ch ","].
    rewrite split_one_last by assumption.
    cbn [length Nat.leb]. rewrite (trim_no_space Hno). unfold input.
    change (lit ":") with [ch ":"].
    change ([ch ":"] ++ M ++ [ch ":"] ++ S ++ lit "." ++ F)
      with (ch ":" :: M ++ ch ":" :: (S ++ lit "." ++ F)).
    rewrite split_one_more by now apply Hcolon.
    rewrite split_one_more by now apply Hcolon.
    assert (Hsec : no_space (S ++ lit "." ++ F)).
    { unfold no_space.
      repeat first [ apply Forall_app; split | apply all_digits_no_space; assumption
                   | constructor ]. }
    rewrite split_one_last.
    2:{ repeat first [ apply avoids_app | apply avoids_cons | now apply Hcolon
                     | constructor ]; discriminate. }
    rewrite (trim_no_space (all_digits_no_space dH)),
            (trim_no_space (all_digits_no_space dM)), (trim_no_space Hsec).
    rewrite !parseInt_digits by assumption.
    change (lit "." ++ F) with (ch "." :: F).
    rewrite parseInt_digits_prefix by (try assumption; reflexivity).
    reflexivity.
Qed.

Lemma parseSRTDuration_comma_and_dot_witness :
  Srt.parseSRTDuration (lit "00" ++ lit ":" ++ lit "03" ++ lit ":" ++ lit "00"
                        ++ lit "," ++ lit "500")
  = Normal (digits_value (lit "500") * 10 ^ (3 - Z.of_nat (length (lit "500")))
            + digits_value (lit "00") * 1000 + digits_value (lit "03") * 60 * 1000
            + digits_value (lit "00") * 60 * 60 * 1000)
  /\ Srt.parseSRTDuration (lit "00" ++ lit ":" ++ lit "03" ++ lit ":" ++ lit "00"
                           ++ lit "." ++ lit "500")
  = Normal (digits_value (lit "00") * 1000 + digits_value (lit "03") * 60 * 1000
            + digits_value (lit "00") * 60 * 60 * 1000).
Proof.
  apply parseSRTDuration_comma_and_dot;
    first [vm_compute; discriminate
          | split; [now apply all_digits_lit_check | first [discriminate | cbn; lia]]].
Defined.

End SrtDurationFacts.

(* ---------------------------------------------------------------------- *)
(** ** The HTML codec beyond the claims                                    *)
(* ---------------------------------------------------------------------- *)

Module HtmlMoreFacts.
Import Html HtmlFacts JsStringFacts HtmlColor.
Local Open Scope N_scope.

(** *** Text that the scans leave alone *)

Lemma stripHTMLTags_plain (c : char) (s : jsstring) :
  c <> ch "<" -> stripHTMLTags (c :: s) = c :: stripHTMLTags s.
Proof.
  intros Hc. unfold stripHTMLTags, replace_global.
  cbn [replace_scan match_tag].
  destruct (N.eqb_spec c (ch "<")); [contradiction | reflexivity].
Qed.

Lemma stripHTMLTags_no_tag (s : jsstring) :
  avoids (ch "<") s -> stripHTMLTags s = s.
Proof.
  induction 1 as [|c s Hc _ IH]; [reflexivity|].
  now rewrite stripHTMLTags_plain, IH.
Qed.

Lemma unescapeHTML_no_entity (s : jsstring) :
  avoids (ch "&") s -> unescapeHTML s = s.
Proof.
  induction 1 as [|c s Hc _ IH]; [reflexivity|].
  now rewrite unescape_plain, IH.
Qed.

Lemma escapeHTML_avoids (s : jsstring) :
  avoids (ch "<") (escapeHTML s) /\ avoids nbsp (escapeHTML s).
Proof.
  induction s as [|c s [IH1 IH2]]; [split; constructor|].
  rewrite escape_step.
  destruct (N.eqb_spec c (ch "&")) as [->|Hamp];
    [|destruct (N.eqb_spec c (ch "<")) as [->|Hlt];
      [|destruct (N.eqb_spec c nbsp) as [->|Hnb]]];
    cbn [orb];
    (split; apply avoids_app; try assumption);
    repeat (constructor; try discriminate); assumption.
Qed.

(** X23: In what [escapeHTML] returns there is no [<] and no non-breaking space
    left, so [stripHTMLTags] finds nothing to remove in it. *)
Theorem escapeHTML_leaves_no_tag (s : jsstring) :
  ~ In (ch "<") (escapeHTML s) /\ ~ In nbsp (escapeHTML s)
  /\ stripHTMLTags (escapeHTML s) = escapeHTML s.
Proof.
  destruct (escapeHTML_avoids s) as [H1 H2].
  unfold avoids in *. rewrite Forall_forall in H1, H2.
  repeat split.
  - intros Hin. now apply (H1 _ Hin).
  - intros Hin. now apply (H2 _ Hin).
  - apply stripHTMLTags_no_tag. apply Forall_forall. exact H1.
Qed.

(** *** What [stripHTMLTags] removes *)

Lemma upto_gt_tag t rest :
  avoids (ch ">") t -> upto_gt (t ++ ch ">" :: rest) = Some (t ++ [ch ">"]).
Proof.
  induction 1 as [|c t Hc _ IH]; cbn [app upto_gt].
  - reflexivity.
  - destruct (N.eqb_spec c (ch ">")); [contradiction|]. now rewrite IH.
Qed.

Lemma upto_gt_none s : avoids (ch ">") s -> upto_gt s = None.
Proof.
  induction 1 as [|c t Hc _ IH]; cbn [upto_gt]; [reflexivity|].
  destruct (N.eqb_spec c (ch ">")); [contradiction|]. now rewrite IH.
Qed.

Lemma replace_scan_skip m f (x rest : jsstring) :
  replace_scan m f (length x) (x ++ rest) = replace_scan m f 0 rest.
Proof. induction x as [|c x IH]; [reflexivity | exact IH]. Qed.

(** X24: [stripHTMLTags] keeps the text in front of the first [<]; it removes
    the tag from that [<] to the next [>] and goes on behind it; and it
    keeps a [<] that no [>] follows, with all that comes after it. *)
Theorem stripHTMLTags_tag (a t b : jsstring) :
  avoids (ch "<") a -> avoids (ch ">") t ->
  stripHTMLTags (a ++ lit "<" ++ t ++ lit ">" ++ b) = a ++ stripHTMLTags b
  /\ stripHTMLTags (a ++ lit "<" ++ t) = a ++ lit "<" ++ stripHTMLTags t.
Proof.
  intros Ha Ht. split.
  - induction Ha as [|c a Hc _ IH].
    + unfold stripHTMLTags, replace_global.
      change ([] ++ lit "<" ++ t ++ lit ">" ++ b) with (ch "<" :: (t ++ ch ">" :: b)).
      cbn [replace_scan match_tag]. rewrite N.eqb_refl, upto_gt_tag by assumption.
      cbn [option_map app length Nat.sub].
      rewrite Nat.sub_0_r.
      replace (t ++ ch ">" :: b) with ((t ++ [ch ">"]) ++ b)
        by now rewrite <- app_assoc.
      apply replace_scan_skip.
    + cbn [app]. rewrite stripHTMLTags_plain by assumption. cbn [app] in IH.
      now rewrite IH.
  - induction Ha as [|c a Hc _ IH].
    + unfold stripHTMLTags, replace_global.
      change ([] ++ lit "<" ++ t) with (ch "<" :: t).
      cbn [replace_scan match_tag]. rewrite N.eqb_refl, upto_gt_none by assumption.
      reflexivity.
    + cbn [app]. rewrite stripHTMLTags_plain by assumption. cbn [app] in IH.
      now rewrite IH.
Qed.

Lemma stripHTMLTags_tag_witness :
  stripHTMLTags (lit "a " ++ lit "<" ++ lit "b class='x'" ++ lit ">" ++ lit "c")
    = lit "a " ++ stripHTMLTags (lit "c")
  /\ stripHTMLTags (lit "a " ++ lit "<" ++ lit "b class='x'")
    = lit "a " ++ lit "<" ++ stripHTMLTags (lit "b class='x'").
Proof.
  apply stripHTMLTags_tag; repeat constructor; discriminate.
Defined.

(** *** [parseHTMLColor] *)

Definition no_quote (s : jsstring) : Prop :=
  Forall (fun c => Srt.isQuote c = false) s.

Lemma takeWhile_no_quote v (q : char) rest :
  no_quote v -> Srt.isQuote q = true ->
  takeWhile (fun x => negb (Srt.isQuote x)) (v ++ q :: rest) = v
  /\ Srt.dropWhile (fun x => negb (Srt.isQuote x)) (v ++ q :: rest) = q :: rest.
Proof.
  intros Hv Hq. induction Hv as [|c v Hc _ [IH1 IH2]]; cbn [app takeWhile Srt.dropWhile].
  - rewrite Hq. split; reflexivity.
  - rewrite Hc. cbn [negb]. rewrite IH1, IH2. split; reflexivity.
Qed.

Lemma isQuote_cases (q : char) : Srt.isQuote q = true -> q = 34 \/ q = 39.
Proof.
  unfold Srt.isQuote. intros [E|E]%orb_true_iff; apply N.eqb_eq in E; auto.
Qed.

Lemma match_color_skip (x : char) (s : jsstring) :
  Srt.match_color_here (x :: s) = None -> Srt.match_color (x :: s) = Srt.match_color s.
Proof. intros H. cbn [Srt.match_color]. now rewrite H. Qed.

(** X25: The colour of a font tag: the value between the quotes, of either
    kind and not necessarily the same one at both ends, when it is not
    empty and holds no quote. *)
Theorem parseHTMLColor_font (q1 q2 : char) (color rest : jsstring) :
  Srt.isQuote q1 = true -> Srt.isQuote q2 = true ->
  no_quote color -> color <> [] ->
  parseHTMLColor (lit "<font color=" ++ q1 :: color ++ q2 :: rest) = Some color.
Proof.
  intros H1 H2 Hc Hne. unfold parseHTMLColor.
  destruct (@takeWhile_no_quote color q2 rest Hc H2) as [Ht Hd].
  cbn [app lit List.map String.list_ascii_of_string].
  do 6 (rewrite match_color_skip by reflexivity).
  cbn [Srt.match_color]. unfold Srt.match_color_here.
  destruct (@isQuote_cases q1 H1) as [-> | ->]; cbn; rewrite Ht, Hd;
    (destruct color; [contradiction | reflexivity]).
Qed.

Lemma parseHTMLColor_font_witness :
  parseHTMLColor (lit "<font color=" ++ 34 :: lit "red" ++ 39 :: lit ">") = Some (lit "red").
Proof.
  apply parseHTMLColor_font; try reflexivity; [repeat constructor | discriminate].
Defined.

End HtmlMoreFacts.

(* ---------------------------------------------------------------------- *)
(** ** The timeline operations beyond the claims                           *)
(* ---------------------------------------------------------------------- *)

Module OrderFacts.
Import Timeline TimelineFacts.
Local Open Scope Z_scope.

Definition starts_le (a b : Item Z) : Prop := startAt a <= startAt b.

Lemma insert_by_start_sorted x l :
  StronglySorted starts_le l -> StronglySorted starts_le (insert_by_start x l).
Proof.
  induction 1 as [|y l Hl IH Hy]; cbn [insert_by_start].
  - repeat constructor.
  - destruct (Z.leb_spec (startAt x) (startAt y)) as [Hle|Hgt].
    + constructor; [now constructor|].
      constructor; [exact Hle|].
      eapply Forall_impl; [|exact Hy]. unfold starts_le. intros; lia.
    + constructor; [exact IH|].
      eapply Permutation_Forall; [symmetry; apply insert_by_start_perm|].
      constructor; [unfold starts_le; lia | exact Hy].
Qed.

Lemma sort_by_start_sorted l : StronglySorted starts_le (sort_by_start l).
Proof.
  induction l as [|x l IH]; cbn; [constructor|].
  now apply insert_by_start_sorted.
Qed.

(** X12: [order] returns the items it was given, rearranged so that every item
    starts no later than all the items behind it. *)
Theorem order_sorted (s : Subtitles Z) :
  StronglySorted starts_le (items (order s))
  /\ Permutation (items (order s)) (items s).
Proof.
  split; [|apply order_perm].
  unfold order. destruct (Nat.leb_spec (length (items s)) 1) as [Hle|_].
  - destruct (items s) as [|x [|y l]]; [constructor | repeat constructor|].
    cbn in Hle. lia.
  - apply sort_by_start_sorted.
Qed.

(** *** Stability *)

Definition starts_at (t : Z) (it : Item Z) : bool := startAt it =? t.

Lemma insert_by_start_filter t x l :
  filter (starts_at t) (insert_by_start x l) = filter (starts_at t) (x :: l).
Proof.
  induction l as [|y l IH]; [reflexivity|].
  cbn [insert_by_start].
  destruct (Z.leb_spec (startAt x) (startAt y)) as [Hle|Hgt]; [reflexivity|].
  cbn [filter] in *. rewrite IH. unfold starts_at.
  destruct (Z.eqb_spec (startAt x) t), (Z.eqb_spec (startAt y) t);
    try reflexivity; lia.
Qed.

Lemma sort_by_start_filter t l :
  filter (starts_at t) (sort_by_start l) = filter (starts_at t) l.
Proof.
  induction l as [|x l IH]; [reflexivity|].
  cbn [sort_by_start fold_right]. rewrite insert_by_start_filter.
  cbn [filter]. unfold sort_by_start in IH. now rewrite IH.
Qed.

Lemma sort_by_start_sorted_id l :
  StronglySorted starts_le l -> sort_by_start l = l.
Proof.
  induction 1 as [|x l Hl IH Hx]; [reflexivity|].
  cbn [sort_by_start fold_right]. unfold sort_by_start in IH. rewrite IH.
  destruct l as [|y l]; [reflexivity|].
  cbn [insert_by_start]. apply Forall_inv in Hx. unfold starts_le in Hx.
  destruct (Z.leb_spec (startAt x) (startAt y)); [reflexivity | lia].
Qed.

(** X13: [order] is stable: the items that start at one and the same time keep
    the order they had.  And [order] of what [order] returned changes
    nothing. *)
Theorem order_stable (s : Subtitles Z) :
  (forall t, filter (starts_at t) (items (order s)) = filter (starts_at t) (items s))
  /\ order (order s) = order s.
Proof.
  split.
  - intros t. unfold order. destruct (length (items s) <=? 1)%nat; [reflexivity|].
    apply sort_by_start_filter.
  - unfold order at 2 3. destruct (Nat.leb_spec (length (items s)) 1) as [Hle|Hgt].
    + unfold order. now rewrite (proj2 (Nat.leb_le _ _) Hle).
    + unfold order. cbn [items].
      destruct (length (sort_by_start (items s)) <=? 1)%nat; [reflexivity|].
      f_equal. apply sort_by_start_sorted_id, sort_by_start_sorted.
Qed.

End OrderFacts.

Module ShiftFacts.
Import Timeline TimelineFacts.
Local Open Scope Z_scope.






End ShiftFacts.

Module TruncateFacts.
Import Timeline TimelineFacts.
Local Open Scope Z_scope.

Definition within (d : Z) (it : Item Z) : Prop := startAt it < d /\ endAt it <= d.

(** What the loop of [forceDuration] leaves in front of [lastIndex] (or in
    the whole array, when it did not break) starts before [duration] and
    ends at [duration] or before. *)
Lemma forceDuration_loop_within d l :
  forall i, 0 <= i ->
    let '(l', lastIndex) := forceDuration_loop d i l in
    (lastIndex = -1 /\ Forall (within d) l' /\ length l' = length l)
    \/ (i <= lastIndex /\ Forall (within d) (firstn (Z.to_nat (lastIndex - i)) l')
        /\ length l' = length l).
Proof.
  induction l as [|item rest IH]; intros i Hi; cbn [forceDuration_loop].
  - left. repeat split. constructor.
  - destruct (Z.geb_spec (startAt item) d) as [Hge|Hlt].
    + right. rewrite Z.sub_diag. repeat split; [lia | constructor].
    + specialize (IH (i + 1) ltac:(lia)).
      destruct (forceDuration_loop d (i + 1) rest) as [rest' lastIndex].
      assert (Hit : within d (if endAt item >? d then set_endAt d item else item)).
      { unfold within. destruct (Z.gtb_spec (endAt item) d); cbn; lia. }
      destruct IH as [(-> & Hall & Hlen) | (Hle & Hall & Hlen)].
      * left. repeat split; [now constructor | cbn; lia].
      * right. repeat split; [lia | | cbn; lia].
        replace (Z.to_nat (lastIndex - i)) with (S (Z.to_nat (lastIndex - (i + 1))))
          by lia.
        cbn [firstn]. now constructor.
Qed.

(** X16: Cutting down: when the current duration is above the target, and
    the target and the timestamps are safe integers, every item
    [forceDuration] leaves starts before the target and ends at the target
    or before, with or without the dummy item; and without the dummy item
    there are never more items than before. *)
Theorem forceDuration_cuts (s : Subtitles Z) (target : Z) (addDummyItem : bool) :
  isSafeInteger target -> safe s ->
  target < getDuration s ->
  Forall (within target) (items (forceDuration s target addDummyItem))
  /\ (length (items (forceDuration s target false)) <= length (items s))%nat.
Proof.
  intros _ _ Hgt. unfold forceDuration.
  destruct (Z.eqb_spec (getDuration s) target) as [E|_]; [lia|].
  destruct (Z.gtb_spec (getDuration s) target) as [_|Hle]; [|lia].
  pose proof (@forceDuration_loop_within target (items s) 0 (Z.le_refl 0)) as H.
  destruct (forceDuration_loop target 0 (items s)) as [l lastIndex].
  set (s1 := if negb (lastIndex =? -1) then _ else _).
  assert (Hs1 : Forall (within target) (items s1)
                /\ (length (items s1) <= length (items s))%nat).
  { unfold s1. destruct H as [(-> & Hall & Hlen) | (Hi & Hall & Hlen)].
    - change (negb (-1 =? -1)) with false. cbn [items]. split; [exact Hall | lia].
    - destruct (Z.eqb_spec lastIndex (-1)); [lia|]. cbn [negb items].
      rewrite Z.sub_0_r in Hall. split; [exact Hall|].
      rewrite length_firstn. lia. }
  destruct Hs1 as [Hall Hlen]. split.
  - destruct (addDummyItem && (getDuration s1 <? target)); [|exact Hall].
    cbn [items]. apply Forall_app. split; [exact Hall|].
    repeat constructor; cbn; lia.
  - cbn [andb]. exact Hlen.
Qed.

Lemma forceDuration_cuts_witness :
  let s := mkSubtitles [mkItem None 0 5 []; mkItem None 6 20 []] in
  Forall (within 8) (items (forceDuration s 8 true))
  /\ (length (items (forceDuration s 8 false)) <= length (items s))%nat.
Proof.
  apply (@forceDuration_cuts (mkSubtitles [mkItem None 0 5 []; mkItem None 6 20 []]) 8 true).
  - split; vm_compute; discriminate.
  - repeat (constructor; [split; split; vm_compute; discriminate|]). constructor.
  - cbn. lia.
Defined.

End TruncateFacts.

Module FragmentMoreFacts.
Import Timeline TimelineFacts.
Local Open Scope Z_scope.








End FragmentMoreFacts.

Module UnfragmentFacts.
Import Timeline TimelineFacts.
Local Open Scope Z_scope.

(** [grown_from input it']: the item [it'] is an item of [input] whose end
    has stayed or has moved to the later end of another item of [input]. *)
Definition grown_from (input : list (Item Z)) (it' : Item Z) : Prop :=
  exists it,
    In it input /\ startAt it' = startAt it /\ index it' = index it
    /\ lines it' = lines it /\ endAt it <= endAt it'
    /\ exists it2, In it2 input /\ endAt it' = endAt it2.

Lemma grown_from_incl input input' it :
  incl input input' -> grown_from input it -> grown_from input' it.
Proof.
  intros Hincl (x & Hx & H1 & H2 & H3 & H4 & y & Hy & H5).
  exists x. repeat split; auto. exists y. auto.
Qed.

Lemma grown_from_self input it : In it input -> grown_from input it.
Proof.
  intros Hin. exists it. repeat split; auto; [lia|]. exists it. auto.
Qed.

Lemma unfragment_inner_spec str l :
  forall cur,
    let r := unfragment_inner str cur l in
    incl (snd r) l /\ startAt (fst r) = startAt cur /\ index (fst r) = index cur
    /\ lines (fst r) = lines cur /\ endAt cur <= endAt (fst r)
    /\ (endAt (fst r) = endAt cur \/ exists it2, In it2 l /\ endAt (fst r) = endAt it2)
    /\ (length (snd r) <= length l)%nat.
Proof.
  induction l as [|nxt rest IH]; intros cur; cbv zeta; cbn [unfragment_inner].
  - cbn. repeat split; auto; try lia. apply incl_refl.
  - destruct (JsString.eqb str (itemToString nxt) && (endAt cur >=? startAt nxt)).
    + set (cur' := if endAt cur <? endAt nxt then set_endAt (endAt nxt) cur else cur).
      destruct (IH cur') as (I1 & I2 & I3 & I4 & I5 & I6 & I7).
      assert (C : startAt cur' = startAt cur /\ index cur' = index cur
                  /\ lines cur' = lines cur /\ endAt cur <= endAt cur'
                  /\ (endAt cur' = endAt cur \/ endAt cur' = endAt nxt)).
      { unfold cur'. destruct (Z.ltb_spec (endAt cur) (endAt nxt)); cbn;
          repeat split; auto; lia. }
      destruct C as (C1 & C2 & C3 & C4 & C5).
      repeat split; try congruence; try lia.
      * now apply incl_tl.
      * destruct I6 as [E | (y & Hy & E)].
        -- destruct C5 as [E' | E']; [left; congruence|].
           right. exists nxt. split; [now left | congruence].
        -- right. exists y. split; [now right | exact E].
      * cbn [length]. lia.
    + destruct (endAt cur <? startAt nxt).
      * cbn. repeat split; auto; try lia. apply incl_refl.
      * destruct (IH cur) as (I1 & I2 & I3 & I4 & I5 & I6 & I7).
        destruct (unfragment_inner str cur rest) as [cur' rest']. cbn [fst snd] in *.
        repeat split; auto.
        -- apply incl_cons; [now left | now apply incl_tl].
        -- destruct I6 as [E | (y & Hy & E)]; [now left|].
           right. exists y. split; [now right | exact E].
        -- cbn [length]. lia.
Qed.

Lemma unfragment_outer_spec l :
  Forall (grown_from l) (unfragment_outer l)
  /\ (length (unfragment_outer l) <= length l)%nat.
Proof.
  funelim (unfragment_outer l); simp unfragment_outer.
  - split; [constructor | apply Nat.le_refl].
  - destruct (unfragment_inner_spec (itemToString currentItem) rest currentItem)
      as (I1 & I2 & I3 & I4 & I5 & I6 & I7). cbv zeta in *.
    match goal with IH : Forall _ _ /\ _ |- _ => destruct IH as [IHa IHb] end.
    split.
    + constructor.
      * exists currentItem. repeat split; auto; [now left|].
        destruct I6 as [E | (y & Hy & E)].
        -- exists currentItem. split; [now left | exact E].
        -- exists y. split; [now right | exact E].
      * eapply Forall_impl; [|exact IHa].
        intros it. apply grown_from_incl.
        intros x Hx. right. now apply I1.
    + cbn [length]. lia.
Qed.

(** X18: [unfragment] only merges: it never returns more items than it was
    given, and every item it returns is an item it was given, with the same
    start, index and lines, whose end has stayed or has moved to the later
    end of another given item. *)
Theorem unfragment_only_merges (s : Subtitles Z) :
  (length (items (unfragment s)) <= length (items s))%nat
  /\ Forall (grown_from (items s)) (items (unfragment s)).
Proof.
  unfold unfragment. destruct (length (items s) <=? 1)%nat.
  - split; [apply Nat.le_refl|].
    apply Forall_forall. intros it Hit. now apply grown_from_self.
  - cbn [items].
    destruct (unfragment_outer_spec (items (order s))) as [Ha Hb].
    pose proof (order_perm s) as Hp.
    split; [now rewrite <- (Permutation_length Hp)|].
    eapply Forall_impl; [|exact Ha].
    intros it. apply grown_from_incl.
    intros x Hx. eapply Permutation_in; eassumption.
Qed.

End UnfragmentFacts.

(* ---------------------------------------------------------------------- *)
(** ** Linear correction with two equal offsets                            *)
(* ---------------------------------------------------------------------- *)

Module OffsetFacts.
Import JsNumber LinearCorrection TimelineFacts.
Local Open Scope Z_scope.












End OffsetFacts.

(* ---------------------------------------------------------------------- *)
(** ** Lines, the scanner and the helpers                                  *)
(* ---------------------------------------------------------------------- *)

Module LineFacts.
Import Scanner LineScanner TimelineFacts.
Local Open Scope N_scope.

(** A line as the scanner hands it out: no line feed and no carriage
    return in it. *)
Definition plain_line (l : jsstring) : Prop := Forall (fun c => c <> 10 /\ c <> 13) l.

Lemma match_newline_none (c : char) (t : jsstring) :
  match_newline (c :: t) = None -> c <> 10 /\ c <> 13.
Proof.
  intros H. split; intros ->; cbn in H; [discriminate|].
  destruct t as [|d t]; [discriminate|].
  destruct (N.eq_dec d 10) as [->|]; [discriminate|].
  destruct d as [|p]; [discriminate|].
  do 4 (destruct p; try discriminate).
Qed.

Lemma match_newline_plain (c : char) (t : jsstring) :
  c <> 10 -> c <> 13 -> match_newline (c :: t) = None.
Proof.
  intros H10 H13. destruct c as [|p]; [reflexivity|].
  do 4 (destruct p; try reflexivity); congruence.
Qed.

Lemma split_regex_scan_plain skip cur s :
  plain_line cur -> Forall plain_line (split_regex_scan match_newline skip cur s).
Proof.
  revert skip cur. induction s as [|c t IH]; intros skip cur Hcur; cbn [split_regex_scan].
  - constructor; [|constructor]. now apply Forall_rev.
  - destruct skip as [|k]; [|now apply IH].
    destruct (match_newline (c :: t)) as [n|] eqn:E.
    + constructor; [now apply Forall_rev|]. apply IH. constructor.
    + apply IH. constructor; [|exact Hcur]. now apply match_newline_none in E.
Qed.

Lemma Forall_removelast {A} (P : A -> Prop) (l : list A) :
  Forall P l -> Forall P (removelast l).
Proof.
  induction 1 as [|x l Hx Hl IH]; [constructor|].
  cbn [removelast]. destruct l; [constructor | now constructor].
Qed.

(** X21: No line that [splitLines] returns holds a line feed or a carriage
    return, whatever the text. *)
Theorem splitLines_plain (text : jsstring) : Forall plain_line (splitLines text).
Proof.
  unfold splitLines, pop_empty_last, split_regex.
  pose proof (@split_regex_scan_plain 0%nat [] text ltac:(constructor)) as H.
  destruct (last_item _) as [[|c l]|]; try exact H.
  now apply Forall_removelast.
Qed.

(** *** Lines joined and split again *)

Lemma split_regex_scan_line cur line rest :
  plain_line line ->
  split_regex_scan match_newline 0 cur (line ++ rest)
  = split_regex_scan match_newline 0 (rev line ++ cur) rest.
Proof.
  intros Hl. revert cur. induction Hl as [|c line [H10 H13] _ IH]; intros cur.
  - reflexivity.
  - cbn [app split_regex_scan]. rewrite match_newline_plain by assumption.
    rewrite IH. cbn [rev]. now rewrite <- app_assoc.
Qed.

(** The two line ends that the texts of this library are written with. *)
Definition line_end (nl : jsstring) : Prop := nl = [10] \/ nl = [13; 10].

Lemma split_regex_scan_end cur nl rest :
  line_end nl ->
  split_regex_scan match_newline 0 cur (nl ++ rest)
  = rev cur :: split_regex_scan match_newline 0 [] rest.
Proof. intros [-> | ->]; reflexivity. Qed.

Definition terminated (nl : jsstring) (lines : list jsstring) : jsstring :=
  List.concat (List.map (fun l => l ++ nl) lines).

Lemma split_terminated nl lines :
  line_end nl -> Forall plain_line lines ->
  split_regex match_newline (terminated nl lines) = lines ++ [[]].
Proof.
  intros Hnl Hl. unfold split_regex, terminated.
  induction Hl as [|l lines Hp _ IH]; [reflexivity|].
  cbn [List.map List.concat]. rewrite <- app_assoc.
  rewrite split_regex_scan_line by assumption.
  rewrite split_regex_scan_end by assumption.
  rewrite app_nil_r, rev_involutive, IH. reflexivity.
Qed.

Lemma split_joined nl lines :
  line_end nl -> Forall plain_line lines -> lines <> [] ->
  split_regex match_newline (join nl lines) = lines.
Proof.
  intros Hnl Hl Hne. unfold split_regex.
  induction Hl as [|l lines Hp Hl IH]; [contradiction|].
  destruct lines as [|l2 lines].
  - cbn [join]. rewrite <- (app_nil_r l) at 1.
    rewrite split_regex_scan_line by assumption.
    cbn [split_regex_scan]. now rewrite app_nil_r, rev_involutive.
  - change (join nl (l :: l2 :: lines)) with (l ++ nl ++ join nl (l2 :: lines)).
    rewrite split_regex_scan_line by assumption.
    rewrite split_regex_scan_end by assumption.
    rewrite app_nil_r, rev_involutive, IH by discriminate. reflexivity.
Qed.

Lemma removelast_snoc {A} (l : list A) (x : A) : removelast (l ++ [x]) = l.
Proof. apply removelast_last. Qed.

(** X20: [splitLines] gives back the lines of a text: of lines that are each
    ended by a line feed (or each by carriage return and line feed), and of
    lines that are joined by it when the last line is not empty.  An empty
    last line of a joined text is dropped. *)
Theorem splitLines_lines (nl : jsstring) (lines : list jsstring) :
  line_end nl -> Forall plain_line lines -> lines <> [] ->
  splitLines (terminated nl lines) = lines
  /\ (last_item lines <> Some [] -> splitLines (join nl lines) = lines)
  /\ (last_item lines = Some [] -> splitLines (join nl lines) = removelast lines).
Proof.
  intros Hnl Hl Hne. unfold splitLines, pop_empty_last.
  rewrite split_terminated, split_joined by assumption.
  rewrite last_item_snoc, removelast_snoc.
  split; [reflexivity|]. split; intros Hlast.
  - destruct (last_item lines) as [[|c l]|]; [contradiction | reflexivity | reflexivity].
  - now rewrite Hlast.
Qed.

Lemma splitLines_lines_witness :
  let lines := [lit "1"; lit "a --> b"; []] in
  splitLines (terminated [10] lines) = lines
  /\ (last_item lines <> Some [] -> splitLines (join [10] lines) = lines)
  /\ (last_item lines = Some [] -> splitLines (join [10] lines) = removelast lines).
Proof.
  apply splitLines_lines.
  - now left.
  - repeat constructor; discriminate.
  - discriminate.
Defined.

(** *** The Scanner class *)

(** A client that calls [next] up to [k] times and collects what it gets. *)
Fixpoint read_some (k : nat) (sc : Scanner) : list jsstring * Scanner :=
  match k with
  | O => ([], sc)
  | S k' =>
      match next sc with
      | (Some line, sc') => let '(got, sc'') := read_some k' sc' in (line :: got, sc'')
      | (None, sc') => ([], sc')
      end
  end.

Lemma skipn_nth_error {A} (l : list A) :
  forall i x, nth_error l i = Some x -> skipn i l = x :: skipn (S i) l.
Proof.
  induction l as [|y l IH]; intros [|i] x; cbn; try discriminate.
  - now intros [= ->].
  - intros H. now rewrite (IH _ _ H).
Qed.

Lemma read_some_spec k :
  forall sc,
    (currentIndex sc <= length (sc_lines sc))%nat ->
    let '(got, sc') := read_some k sc in
    got = firstn k (skipn (currentIndex sc) (sc_lines sc))
    /\ sc_lines sc' = sc_lines sc
    /\ currentIndex sc' = Nat.min (currentIndex sc + k) (length (sc_lines sc)).
Proof.
  induction k as [|k IH]; intros sc Hle; cbn [read_some].
  - repeat split. lia.
  - unfold next, hasNext. destruct (Nat.ltb_spec (currentIndex sc) (length (sc_lines sc))) as [Hlt|Hge].
    + destruct (nth_error (sc_lines sc) (currentIndex sc)) as [line|] eqn:E.
      2:{ apply nth_error_None in E. lia. }
      specialize (IH (mkScanner (sc_lines sc) (currentIndex sc + 1))).
      cbn [sc_lines currentIndex] in IH. specialize (IH ltac:(lia)).
      destruct (read_some k _) as [got sc''].
      destruct IH as (-> & H2 & H3). repeat split; [|exact H2|lia].
      rewrite (skipn_nth_error _ _ E). cbn [firstn].
      now rewrite Nat.add_1_r.
    + rewrite skipn_all2 by lia. split; [reflexivity | split; [reflexivity | lia]].
Qed.

(** X22: Reading a text through the scanner: [k] calls of [next] hand out the
    first [k] lines in order (or all of them, when there are fewer), and
    [remainingLines] then hands out exactly the rest; after that nothing is
    left, [next] and [peek] give null, and [reset] starts over. *)
Theorem scanner_reads_all_lines (text : jsstring) (k : nat) :
  let all := splitLines text in
  let '(got, sc) := read_some k (new_Scanner text) in
  let '(rest, sc') := remainingLines sc in
  got = firstn k all /\ rest = skipn k all /\ got ++ rest = all
  /\ peek sc = nth_error all k
  /\ lineNumber sc = (Nat.min k (length all) + 1)%nat
  /\ hasNext sc' = false /\ fst (next sc') = None /\ peek sc' = None
  /\ reset sc' = new_Scanner text.
Proof.
  cbv zeta. unfold new_Scanner.
  pose proof (@read_some_spec k (mkScanner (splitLines text) 0)) as H.
  cbn [sc_lines currentIndex length] in H. specialize (H ltac:(lia)).
  destruct (read_some k _) as [got sc]. destruct H as (-> & Hl & Hi).
  cbn [skipn Nat.add] in *.
  unfold remainingLines, peek, next, hasNext, lineNumber, reset.
  cbn [sc_lines currentIndex fst]. rewrite Hl, Hi.
  rewrite Nat.ltb_irrefl.
  assert (Hskip : skipn (Nat.min k (length (splitLines text))) (splitLines text)
                  = skipn k (splitLines text)).
  { destruct (Nat.le_ge_cases k (length (splitLines text))) as [Hle|Hge].
    - now rewrite Nat.min_l.
    - rewrite Nat.min_r by assumption. now rewrite skipn_all, skipn_all2. }
  rewrite Hskip.
  repeat apply conj; try reflexivity.
  - apply firstn_skipn.
  - destruct (Nat.ltb_spec (Nat.min k (length (splitLines text))) (length (splitLines text)))
      as [Hlt|Hge].
    + now rewrite Nat.min_l by lia.
    + symmetry. apply nth_error_None. lia.
Qed.

End LineFacts.

Module HelperFacts.
Import Scanner Helpers JsStringFacts Entry Files.
Local Open Scope N_scope.

(** *** The byte order mark *)

(** X30: [addBOM] puts one mark in front unless there is one, so a second
    [addBOM] changes nothing, and [removeBOM] takes off what [addBOM] put
    there. *)
Theorem addBOM_removeBOM (text : jsstring) :
  hasBOM (addBOM text) = true
  /\ addBOM (addBOM text) = addBOM text
  /\ removeBOM (addBOM text) = removeBOM text
  /\ (hasBOM text = false -> removeBOM (addBOM text) = text).
Proof.
  unfold addBOM, removeBOM. destruct (hasBOM text) eqn:E; cbv iota.
  - rewrite ?E. repeat apply conj; try reflexivity. discriminate.
  - change (hasBOM (BOM :: text)) with true. cbv iota. cbn [tl].
    rewrite ?E. repeat apply conj; reflexivity.
Qed.

(** *** Blank strings *)

Lemma trimStart_nil s : trimStart s = [] <-> forallb isWhiteSpace s = true.
Proof.
  induction s as [|c s IH]; cbn; [tauto|].
  destruct (isWhiteSpace c); cbn; [exact IH|]. split; discriminate.
Qed.

Lemma trimStart_keeps_last s (x : char) :
  isWhiteSpace x = false -> trimStart (s ++ [x]) <> [].
Proof.
  intros Hx. induction s as [|c s IH]; cbn.
  - now rewrite Hx.
  - destruct (isWhiteSpace c); [exact IH | discriminate].
Qed.

(** X29: [isBlank] holds exactly of the strings made of white space only, the
    empty one among them. *)
Theorem isBlank_white_space (str : jsstring) :
  isBlank str = forallb isWhiteSpace str
  /\ isNotBlank str = existsb (fun c => negb (isWhiteSpace c)) str.
Proof.
  assert (H : isBlank str = forallb isWhiteSpace str).
  { unfold isBlank, trim, trimEnd.
    destruct (forallb isWhiteSpace str) eqn:E.
    - apply trimStart_nil in E. now rewrite E.
    - destruct (trimStart str) as [|x r] eqn:Et.
      + apply trimStart_nil in Et. congruence.
      + assert (Hx : isWhiteSpace x = false).
        { clear E. induction str as [|c s IH]; [discriminate|].
          cbn in Et. destruct (isWhiteSpace c) eqn:Ec; [now apply IH|].
          congruence. }
        cbn [rev].
        destruct (trimStart (rev r ++ [x])) eqn:E2.
        { apply (trimStart_keeps_last (rev r)) in Hx. contradiction. }
        rewrite length_rev. reflexivity. }
  split; [exact H|].
  unfold isNotBlank. rewrite H. clear H.
  induction str as [|c s IH]; [reflexivity|].
  cbn. rewrite <- IH. now destruct (isWhiteSpace c), (forallb isWhiteSpace s).
Qed.

(** *** [clamp] and [padString] *)

(** [clamp] gives a value between the bounds when they are in order, and
    the value itself when it lies between them; when the bounds are out of
    order it gives the upper one. *)
Lemma clamp_bounds (value min max : Z) :
  ((min <= max -> min <= clamp value min max <= max)
   /\ (min <= value <= max -> clamp value min max = value)
   /\ (max < min -> clamp value min max = max))%Z.
Proof. unfold clamp. lia. Qed.

Lemma length_repeat_string s n : length (repeat_string s n) = (n * length s)%nat.
Proof. induction n as [|n IH]; cbn; [reflexivity|]. rewrite length_app, IH. lia. Qed.

(** With a pad of one unit, [padString] returns a string of the asked
    length, or the string itself when it is that long already; padding on
    the left is [padStart], and the string is kept at the end (or at the
    start, for the right). *)
Lemma padString_length (str : jsstring) (c : char) (len : Z) :
  Z.of_nat (length (padString str [c] len left)) = Z.max (Z.of_nat (length str)) len
  /\ Z.of_nat (length (padString str [c] len right)) = Z.max (Z.of_nat (length str)) len
  /\ padString str [c] len left = padStart (Z.to_nat len) c str
  /\ exists padding, padString str [c] len left = padding ++ str
                     /\ padString str [c] len right = str ++ padding
                     /\ Forall (fun x => x = c) padding.
Proof.
  unfold padString, padStart.
  assert (Hrep : forall n, repeat_string [c] n = repeat c n)
    by (induction n as [|n IH]; cbn; [reflexivity | now rewrite IH]).
  destruct (Z.geb_spec (Z.of_nat (length str)) len) as [Hge|Hlt].
  - replace (Z.to_nat len - length str)%nat with 0%nat by lia.
    repeat split; try lia. exists []. rewrite app_nil_r. repeat split. constructor.
  - rewrite !length_app, length_repeat_string, Hrep. cbn [length].
    replace (Z.to_nat (len - Z.of_nat (length str)))
      with (Z.to_nat len - length str)%nat by lia.
    repeat split; try lia.
    eexists. repeat split. apply Forall_forall. intros x Hx. now apply repeat_spec in Hx.
Qed.

End HelperFacts.

(* ---------------------------------------------------------------------- *)
(** ** File names and formats                                              *)
(* ---------------------------------------------------------------------- *)

Module FileFacts.
Import Scanner Helpers JsStringFacts Entry Files.
Local Open Scope N_scope.

Lemma lastIndexOf_from_none (c : char) s :
  avoids c s -> forall i, lastIndexOf_from c i s = None.
Proof.
  induction 1 as [|x s Hx _ IH]; intros i; cbn [lastIndexOf_from]; [reflexivity|].
  rewrite IH. destruct (N.eqb_spec x c); [contradiction | reflexivity].
Qed.

Lemma lastIndexOf_from_last (c : char) base e :
  avoids c e ->
  forall i, lastIndexOf_from c i (base ++ c :: e) = Some (i + length base)%nat.
Proof.
  intros He. induction base as [|x base IH]; intros i; cbn [app lastIndexOf_from length].
  - rewrite lastIndexOf_from_none by assumption. rewrite N.eqb_refl. f_equal. lia.
  - rewrite IH. f_equal. lia.
Qed.

Lemma toLowerCase_idempotent s : toLowerCase (toLowerCase s) = toLowerCase s.
Proof.
  unfold toLowerCase. rewrite map_map. apply map_ext. intros c.
  destruct ((65 <=? c) && (c <=? 90)) eqn:E; [|now rewrite E].
  apply andb_true_iff in E as [E1%N.leb_le E2%N.leb_le].
  destruct (N.leb_spec 65 (c + 32)); destruct (N.leb_spec (c + 32) 90);
    cbn [andb]; try reflexivity; lia.
Qed.

Lemma getFileExtension_last base e :
  avoids (ch ".") e ->
  getFileExtension (base ++ lit "." ++ e) = toLowerCase (lit "." ++ e).
Proof.
  intros He. unfold getFileExtension, lastIndexOf.
  change (lit "." ++ e) with (ch "." :: e).
  rewrite lastIndexOf_from_last by assumption. cbn [Nat.add].
  rewrite skipn_app, skipn_all, Nat.sub_diag. reflexivity.
Qed.

(** X26: The format of a file name is decided by what follows its last dot,
    whatever the case of the letters; a name without a dot has no format;
    and eight extensions are known. *)
Theorem detectFormat_last_extension (base e : jsstring) :
  avoids (ch ".") e ->
  detectFormat (base ++ lit "." ++ e) = detectFormat (lit "." ++ toLowerCase e)
  /\ detectFormat e = None
  /\ List.map (fun x => detectFormat (lit "movie.final" ++ x))
       [lit ".srt"; lit ".VTT"; lit ".ttml"; lit ".dfxp"; lit ".ssa"; lit ".Ass";
        lit ".stl"; lit ".ts"; lit ".txt"; lit "."]
     = [Some (lit "srt"); Some (lit "webvtt"); Some (lit "ttml"); Some (lit "ttml");
        Some (lit "ssa"); Some (lit "ssa"); Some (lit "stl"); Some (lit "teletext");
        None; None].
Proof.
  intros He. repeat apply conj.
  - unfold detectFormat. rewrite getFileExtension_last by assumption.
    assert (Hl : avoids (ch ".") (toLowerCase e)).
    { unfold avoids, toLowerCase in *. apply Forall_map.
      eapply Forall_impl; [|exact He]. intros c Hc.
      destruct ((65 <=? c) && (c <=? 90)) eqn:E; [|exact Hc].
      apply andb_true_iff in E as [E1%N.leb_le E2%N.leb_le]. cbn. lia. }
    pose proof (@getFileExtension_last [] (toLowerCase e) Hl) as H0.
    change (getFileExtension (lit "." ++ toLowerCase e)
            = toLowerCase (lit "." ++ toLowerCase e)) in H0.
    rewrite H0.
    change (lit "." ++ toLowerCase e) with (toLowerCase (lit "." ++ e)).
    now rewrite toLowerCase_idempotent.
  - unfold detectFormat, getFileExtension, lastIndexOf.
    now rewrite lastIndexOf_from_none.
  - reflexivity.
Qed.

Lemma detectFormat_last_extension_witness :
  detectFormat (lit "a.b" ++ lit "." ++ lit "SrT") = detectFormat (lit "." ++ toLowerCase (lit "SrT"))
  /\ detectFormat (lit "SrT") = None
  /\ List.map (fun x => detectFormat (lit "movie.final" ++ x))
       [lit ".srt"; lit ".VTT"; lit ".ttml"; lit ".dfxp"; lit ".ssa"; lit ".Ass";
        lit ".stl"; lit ".ts"; lit ".txt"; lit "."]
     = [Some (lit "srt"); Some (lit "webvtt"); Some (lit "ttml"); Some (lit "ttml");
        Some (lit "ssa"); Some (lit "ssa"); Some (lit "stl"); Some (lit "teletext");
        None; None].
Proof.
  apply detectFormat_last_extension. repeat constructor; discriminate.
Defined.

(** The names [detectFormat] can return. *)
Lemma detectFormat_of_extension_values ext format :
  detectFormat_of_extension ext = Some format ->
  In format [lit "srt"; lit "webvtt"; lit "ttml"; lit "ssa"; lit "stl"; lit "teletext"].
Proof.
  unfold detectFormat_of_extension.
  repeat match goal with
         | |- context [if ?b then _ else _] => destruct b
         end; intros [= <-]; cbn; tauto.
Qed.

(** X27: Opening and writing files: a file is read as SRT exactly when its
    extension is [.srt]; with any other name, also with the extensions
    that [detectFormat] knows, [openFile] throws the extension error once
    the file has been read, and [writeFile] throws without handing
    anything to the file system.  An error of the read itself comes
    first. *)
Theorem openFile_only_srt (content filename : jsstring) (s : Subtitles Z) (e : error) :
  (detectFormat filename = Some (lit "srt") ->
     openFile (Normal content) filename = Srt.readFromSRT content
     /\ writeFile s filename = writeToString s (lit "srt"))
  /\ (detectFormat filename <> Some (lit "srt") ->
     openFile (Normal content) filename = Throw InvalidExtensionError
     /\ is_throw (writeFile s filename) = true)
  /\ openFile (Throw e) filename = Throw e.
Proof.
  unfold openFile, writeFile. cbn [bind]. repeat apply conj; try reflexivity.
  - intros ->. split; reflexivity.
  - intros Hne. unfold detectFormat in *.
    destruct (detectFormat_of_extension (getFileExtension filename)) as [format|] eqn:E;
      [|split; reflexivity].
    apply detectFormat_of_extension_values in E.
    cbn [In] in E. unfold writeToString.
    destruct E as [<-|[<-|[<-|[<-|[<-|[<-|[]]]]]]]; try contradiction;
      (split; [reflexivity | destruct (items s); reflexivity]).
Qed.

End FileFacts.

(* ---------------------------------------------------------------------- *)
(** ** Lines of text in the SRT codec                                      *)
(* ---------------------------------------------------------------------- *)

Module SrtTextFacts.
Import Scanner Srt Html HtmlFacts HtmlMoreFacts JsStringFacts.
Local Open Scope N_scope.

Lemma match_srt_tag_plain (c : char) (t : jsstring) :
  c <> ch "<" -> match_srt_tag (c :: t) = None.
Proof.
  intros Hc. unfold match_srt_tag.
  destruct (N.eqb_spec c (ch "<")); [contradiction | reflexivity].
Qed.

Lemma parse_tags_plain text st acc a rest :
  avoids (ch "<") a ->
  parse_tags 0 text st acc (a ++ rest) = parse_tags 0 (rev a ++ text) st acc rest.
Proof.
  intros Ha. revert text. induction Ha as [|c a Hc _ IH]; intros text; [reflexivity|].
  cbn [app parse_tags]. rewrite match_srt_tag_plain by assumption.
  rewrite IH. cbn [rev]. now rewrite <- app_assoc.
Qed.

(** A line without [<] that is not blank is read as one line item: its
    text is the line with the entities replaced, and it carries the style
    it was called with when that style sets anything. *)
Lemma parseSRTText_plain (input : jsstring) (st : StyleAttributes) :
  avoids (ch "<") input -> trim input <> [] ->
  parseSRTText input st
  = mkLine [mkLineItem (if any_style st then Some st else None) (unescapeHTML input)].
Proof.
  intros Hin Hne. unfold parseSRTText.
  destruct (trim input) eqn:E; [contradiction|].
  rewrite <- (app_nil_r input) at 1.
  rewrite parse_tags_plain by assumption.
  cbn [parse_tags]. unfold push_text. rewrite app_nil_r, rev_involutive, E.
  reflexivity.
Qed.

(** What was escaped reads back: the helper of the codecs' round trips. *)
Lemma escaped_reads_back (s : jsstring) : unescapeHTML (escapeHTML s) = s.
Proof.
  induction s as [|c s IH]; [reflexivity|].
  rewrite escape_step.
  destruct (N.eqb_spec c (ch "&")) as [->|Hamp].
  { cbn [orb]. change (get_or_self HTML_ESCAPE_MAP [ch "&"]) with (lit "&amp;").
    rewrite unescape_amp, IH. reflexivity. }
  destruct (N.eqb_spec c (ch "<")) as [->|Hlt].
  { cbn [orb]. change (get_or_self HTML_ESCAPE_MAP [ch "<"]) with (lit "&lt;").
    rewrite unescape_lt, IH. reflexivity. }
  destruct (N.eqb_spec c nbsp) as [->|Hnb].
  { cbn [orb]. change (get_or_self HTML_ESCAPE_MAP [nbsp]) with (lit "&nbsp;").
    rewrite unescape_nbsp, IH. reflexivity. }
  cbn [orb app]. rewrite unescape_plain by assumption. now rewrite IH.
Qed.

End SrtTextFacts.


(* ====================================================================== *)
(** * Styles and regions: [merge], [optimize], [removeStyling]             *)
(* ====================================================================== *)

Module StylingFacts.
Import JsString Styling.
Local Open Scope Z_scope.

Lemma eqb_eq (s t : jsstring) : JsString.eqb s t = true <-> s = t.
Proof.
  revert t. induction s as [|c s IH]; intros [|d t]; cbn; try easy.
  rewrite andb_true_iff, N.eqb_eq, IH. split.
  - now intros [-> ->].
  - intros [= -> ->]. now split.
Qed.

Lemma eqb_same (s : jsstring) : JsString.eqb s s = true.
Proof. now apply eqb_eq. Qed.

Lemma set_has_In (set : list jsstring) (x : jsstring) :
  set_has set x = true <-> In x set.
Proof.
  unfold set_has. rewrite existsb_exists. split.
  - intros (y & Hy & E). apply eqb_eq in E. now subst.
  - intros H. exists x. split; [exact H | apply eqb_same].
Qed.

(** *** [merge] *)

Definition starts_le (a b : StyledItem) : Prop := si_startAt a <= si_startAt b.

Lemma insert_item_perm x l : Permutation (insert_item x l) (x :: l).
Proof.
  induction l as [|y l IH]; cbn [insert_item]; [reflexivity|].
  destruct (si_startAt x <=? si_startAt y); [reflexivity|].
  rewrite IH. apply perm_swap.
Qed.

Lemma insert_item_sorted x l :
  StronglySorted starts_le l -> StronglySorted starts_le (insert_item x l).
Proof.
  induction 1 as [|y l Hl IH Hy]; cbn [insert_item].
  - repeat constructor.
  - destruct (Z.leb_spec (si_startAt x) (si_startAt y)) as [Hle|Hgt].
    + constructor; [now constructor|].
      constructor; [exact Hle|].
      eapply Forall_impl; [|exact Hy]. unfold starts_le. intros; lia.
    + constructor; [exact IH|].
      eapply Permutation_Forall; [symmetry; apply insert_item_perm|].
      constructor; [unfold starts_le; lia | exact Hy].
Qed.

Lemma order_items_perm l : Permutation (order_items l) l.
Proof.
  unfold order_items. destruct (length l <=? 1)%nat; [reflexivity|].
  induction l as [|x l IH]; cbn [fold_right]; [reflexivity|].
  rewrite insert_item_perm. now constructor.
Qed.

Lemma order_items_sorted l : StronglySorted starts_le (order_items l).
Proof.
  unfold order_items. destruct (Nat.leb_spec (length l) 1) as [Hle|_].
  - destruct l as [|x [|y l]]; [constructor | repeat constructor|].
    cbn in Hle. lia.
  - induction l as [|x l IH]; cbn [fold_right]; [constructor|].
    now apply insert_item_sorted.
Qed.

Lemma map_get_app {V} (m1 m2 : string_map V) id :
  map_get (m1 ++ m2) id
  = match map_get m1 id with Some v => Some v | None => map_get m2 id end.
Proof.
  unfold map_get. induction m1 as [|[k v] m1 IH]; cbn [app record_get]; [reflexivity|].
  destruct (JsString.eqb k id); [reflexivity | exact IH].
Qed.

Lemma map_has_get {V} (m : string_map V) id :
  map_has m id = match map_get m id with Some _ => true | None => false end.
Proof.
  unfold map_has, map_get. induction m as [|[k v] m IH]; cbn [existsb record_get fst];
    [reflexivity|].
  destruct (JsString.eqb k id); [reflexivity | exact IH].
Qed.

Lemma add_missing_get {V} (other m : string_map V) id :
  map_get (add_missing m other) id
  = match map_get m id with Some v => Some v | None => map_get other id end.
Proof.
  revert m. induction other as [|[k v] other IH]; intros m; cbn [add_missing].
  - now destruct (map_get m id).
  - rewrite IH. clear IH. rewrite map_has_get.
    destruct (map_get m k) as [w|] eqn:Ek.
    + destruct (map_get m id) as [u|] eqn:Eid; [reflexivity|].
      unfold map_get at 2. cbn [record_get].
      destruct (JsString.eqb k id) eqn:E; [|reflexivity].
      apply eqb_eq in E. subst. congruence.
    + unfold map_set. rewrite map_has_get, Ek. rewrite map_get_app.
      destruct (map_get m id) as [u|] eqn:Eid; [reflexivity|].
      unfold map_get at 1 3. cbn [record_get].
      destruct (JsString.eqb k id); reflexivity.
Qed.

(** X8: [merge] keeps everything the receiver had.  The items afterwards are
    the items of both, rearranged in order of start time; a region or
    style id known to the receiver keeps the receiver's value, and any
    other id has the value of [other]. *)
Theorem merge_receiver_wins (subtitles other : StyledSubtitles) :
  Permutation (s_items (merge subtitles other)) (s_items subtitles ++ s_items other)
  /\ StronglySorted starts_le (s_items (merge subtitles other))
  /\ (forall id,
        map_get (s_regions (merge subtitles other)) id
        = match map_get (s_regions subtitles) id with
          | Some r => Some r
          | None => map_get (s_regions other) id
          end)
  /\ (forall id,
        map_get (s_styles (merge subtitles other)) id
        = match map_get (s_styles subtitles) id with
          | Some st => Some st
          | None => map_get (s_styles other) id
          end).
Proof.
  unfold merge. cbn [s_items s_regions s_styles].
  split; [apply order_items_perm|].
  split; [apply order_items_sorted|].
  split; intros id; apply add_missing_get.
Qed.

(** *** [optimize] *)

(** The ids of the regions that items refer to, and of the styles that
    items and line items refer to. *)
Definition item_region_ids (l : list StyledItem) : list jsstring :=
  flat_map (fun item => match si_region item with
                        | Some r => [region_id r]
                        | None => []
                        end) l.

Definition item_style_ids (l : list StyledItem) : list jsstring :=
  flat_map (fun item =>
              match si_style item with
              | Some st => [style_id st]
              | None => []
              end ++ flat_map line_item_styles (si_lines item)) l.

Lemma collect_used_eq l usedRegions usedStyles :
  collect_used l usedRegions usedStyles
  = (usedRegions ++ item_region_ids l, usedStyles ++ item_style_ids l).
Proof.
  revert usedRegions usedStyles.
  induction l as [|item l IH]; intros uR uS; cbn [collect_used item_region_ids item_style_ids flat_map].
  - now rewrite !app_nil_r.
  - rewrite IH. unfold item_region_ids, item_style_ids. f_equal.
    + destruct (si_region item); [now rewrite <- app_assoc | reflexivity].
    + destruct (si_style item); now rewrite <- ?app_assoc.
Qed.

Definition region_kept (usedRegions : list jsstring) (e : jsstring * Region) : bool :=
  set_has usedRegions (fst e).

Definition region_style_ids (entries : string_map Region) : list jsstring :=
  flat_map (fun e => match region_style (snd e) with
                     | Some st => [style_id st]
                     | None => []
                     end) entries.

Lemma sweep_regions_eq entries usedRegions usedStyles :
  sweep_regions entries usedRegions usedStyles
  = (filter (region_kept usedRegions) entries,
     usedStyles ++ region_style_ids (filter (region_kept usedRegions) entries)).
Proof.
  revert usedStyles.
  induction entries as [|[id region] entries IH]; intros uS.
  - cbn. now rewrite app_nil_r.
  - cbn [sweep_regions filter].
    assert (E : region_kept usedRegions (id, region) = set_has usedRegions id)
      by reflexivity.
    rewrite E. clear E.
    destruct (set_has usedRegions id).
    + rewrite IH. cbn [region_style_ids flat_map snd].
      fold (region_style_ids (filter (region_kept usedRegions) entries)).
      destruct (region_style region); [now rewrite <- app_assoc | reflexivity].
    + apply IH.
Qed.

Definition style_kept (usedStyles : list jsstring) (e : jsstring * Style) : bool :=
  set_has usedStyles (fst e).

Lemma sweep_styles_eq entries usedStyles :
  sweep_styles entries usedStyles = filter (style_kept usedStyles) entries.
Proof.
  induction entries as [|[id st] entries IH]; cbn [sweep_styles filter]; [reflexivity|].
  assert (E : style_kept usedStyles (id, st) = set_has usedStyles id) by reflexivity.
  rewrite E, IH. now destruct (set_has usedStyles id).
Qed.

Lemma filter_twice {A} (f : A -> bool) l : filter f (filter f l) = filter f l.
Proof.
  induction l as [|x l IH]; cbn [filter]; [reflexivity|].
  destruct (f x) eqn:E; cbn [filter]; [rewrite E; now f_equal | exact IH].
Qed.

Lemma removeUnused_eq s :
  removeUnusedRegionsAndStyles s
  = let regions := filter (region_kept (item_region_ids (s_items s))) (s_regions s) in
    mkStyledSubtitles (s_items s) regions
      (filter (style_kept (item_style_ids (s_items s) ++ region_style_ids regions))
              (s_styles s)).
Proof.
  unfold removeUnusedRegionsAndStyles.
  rewrite collect_used_eq. cbn [app].
  rewrite sweep_regions_eq, sweep_styles_eq. reflexivity.
Qed.

Lemma get_filter_key {V} (f : jsstring -> bool) (m : string_map V) id :
  map_get (filter (fun e => f (fst e)) m) id = if f id then map_get m id else None.
Proof.
  unfold map_get. induction m as [|[k v] m IH]; cbn [filter record_get fst].
  - now destruct (f id).
  - destruct (f k) eqn:Ek; cbn [record_get].
    + destruct (JsString.eqb k id) eqn:E; [|exact IH].
      apply eqb_eq in E. subst. now rewrite Ek.
    + rewrite IH. destruct (JsString.eqb k id) eqn:E; [|reflexivity].
      apply eqb_eq in E. subst. now rewrite Ek.
Qed.

(** An item refers to the region [id]; an item or one of its line items
    refers to the style [id]; a region has the style [id]. *)
Definition item_uses_region (s : StyledSubtitles) (id : jsstring) : Prop :=
  exists item r, In item (s_items s) /\ si_region item = Some r /\ region_id r = id.

Definition item_uses_style (s : StyledSubtitles) (id : jsstring) : Prop :=
  exists item, In item (s_items s)
    /\ ((exists st, si_style item = Some st /\ style_id st = id)
        \/ exists line lineItem st,
             In line (si_lines item) /\ In lineItem (sl_items line)
             /\ sli_style lineItem = Some st /\ style_id st = id).

Definition region_uses_style (regions : string_map Region) (id : jsstring) : Prop :=
  exists key r st, In (key, r) regions /\ region_style r = Some st /\ style_id st = id.

Lemma item_region_ids_In s id :
  In id (item_region_ids (s_items s)) <-> item_uses_region s id.
Proof.
  unfold item_region_ids, item_uses_region. rewrite in_flat_map. split.
  - intros (item & Hin & H). destruct (si_region item) as [r|] eqn:E; [|easy].
    destruct H as [<-|[]]. now exists item, r.
  - intros (item & r & Hin & E & <-). exists item. split; [exact Hin|].
    rewrite E. now left.
Qed.

Lemma line_item_styles_In line id :
  In id (line_item_styles line)
  <-> exists lineItem st,
        In lineItem (sl_items line) /\ sli_style lineItem = Some st /\ style_id st = id.
Proof.
  unfold line_item_styles. rewrite in_flat_map. split.
  - intros (li & Hin & H). destruct (sli_style li) as [st|] eqn:E; [|easy].
    destruct H as [<-|[]]. now exists li, st.
  - intros (li & st & Hin & E & <-). exists li. split; [exact Hin|].
    rewrite E. now left.
Qed.

Lemma item_style_ids_In s id :
  In id (item_style_ids (s_items s)) <-> item_uses_style s id.
Proof.
  unfold item_style_ids, item_uses_style. rewrite in_flat_map. split.
  - intros (item & Hin & H). exists item. split; [exact Hin|].
    apply in_app_or in H. destruct H as [H|H].
    + left. destruct (si_style item) as [st|]; [|easy].
      destruct H as [<-|[]]. now exists st.
    + right. apply in_flat_map in H. destruct H as (line & Hl & H).
      apply line_item_styles_In in H. destruct H as (li & st & H1 & H2 & H3).
      now exists line, li, st.
  - intros (item & Hin & H). exists item. split; [exact Hin|].
    apply in_or_app. destruct H as [(st & E & <-)|(line & li & st & H1 & H2 & H3 & H4)].
    + left. rewrite E. now left.
    + right. apply in_flat_map. exists line. split; [exact H1|].
      apply line_item_styles_In. now exists li, st.
Qed.

Lemma region_style_ids_In regions id :
  In id (region_style_ids regions) <-> region_uses_style regions id.
Proof.
  unfold region_style_ids, region_uses_style. rewrite in_flat_map. split.
  - intros ([key r] & Hin & H). cbn [snd] in H.
    destruct (region_style r) as [st|] eqn:E; [|easy].
    destruct H as [<-|[]]. now exists key, r, st.
  - intros (key & r & st & Hin & E & <-). exists (key, r). split; [exact Hin|].
    cbn [snd]. rewrite E. now left.
Qed.

(** X9: what [optimize] keeps when there are items.  The items are
    untouched.  A region stays under its id exactly when some item refers
    to a region with that id; a style stays under its id exactly when an
    item or a line item refers to a style with that id, or a region that
    stays has such a style.  (A style that is only the parent of another
    style is therefore removed.) *)
Theorem optimize_keeps_used (s : StyledSubtitles) (Hitems : s_items s <> []) :
  s_items (optimize s) = s_items s
  /\ (forall id r,
        map_get (s_regions (optimize s)) id = Some r
        <-> map_get (s_regions s) id = Some r /\ item_uses_region s id)
  /\ (forall id st,
        map_get (s_styles (optimize s)) id = Some st
        <-> map_get (s_styles s) id = Some st
            /\ (item_uses_style s id
                \/ region_uses_style (s_regions (optimize s)) id)).
Proof.
  unfold optimize. destruct (s_items s) as [|item0 l] eqn:El; [easy|].
  rewrite removeUnused_eq. rewrite El. cbn [s_items s_regions s_styles].
  rewrite <- El.
  split; [reflexivity|]. split.
  - intros id r. unfold region_kept.
    rewrite (get_filter_key (set_has (item_region_ids (s_items s)))).
    destruct (set_has (item_region_ids (s_items s)) id) eqn:E.
    + apply set_has_In, item_region_ids_In in E. tauto.
    + split; [easy|]. intros [_ H]. apply item_region_ids_In, set_has_In in H. congruence.
  - intros id st. unfold style_kept.
    rewrite (get_filter_key (set_has _)).
    match goal with |- context [set_has ?U id] => destruct (set_has U id) eqn:E end.
    + apply set_has_In, in_app_or in E.
      rewrite item_style_ids_In, region_style_ids_In in E. tauto.
    + split; [easy|]. intros [_ H].
      rewrite <- item_style_ids_In, <- region_style_ids_In in H.
      apply in_or_app, set_has_In in H.
      pose proof (eq_trans (eq_sym H) E) as Habs. discriminate Habs.
Qed.

Lemma optimize_keeps_used_witness :
  let st := mkStyle (lit "s1") None None in
  let r := mkRegion (lit "r1") None (Some st) in
  let item := mkStyledItem None 0 1000 None [] (Some r) None in
  let s := mkStyledSubtitles [item]
             [(lit "r1", r); (lit "r2", mkRegion (lit "r2") None None)]
             [(lit "s1", st); (lit "s2", mkStyle (lit "s2") None None)] in
  s_items s <> []
  /\ map_get (s_regions (optimize s)) (lit "r2") = None
  /\ map_get (s_styles (optimize s)) (lit "s2") = None
  /\ (map_get (s_styles (optimize s)) (lit "s1") = Some st
      <-> map_get (s_styles s) (lit "s1") = Some st
          /\ (item_uses_style s (lit "s1")
              \/ region_uses_style (s_regions (optimize s)) (lit "s1"))).
Proof.
  cbv zeta.
  split; [discriminate|].
  split; [reflexivity|].
  split; [reflexivity|].
  apply optimize_keeps_used. discriminate.
Defined.

(** X10: [optimize] removes all it can in one go: a second call changes
    nothing. *)
Theorem optimize_twice (s : StyledSubtitles) : optimize (optimize s) = optimize s.
Proof.
  unfold optimize. destruct (s_items s) as [|item0 l] eqn:El.
  - now rewrite El.
  - rewrite (removeUnused_eq s). cbv zeta. cbn [s_items]. rewrite El.
    rewrite removeUnused_eq. cbv zeta. cbn [s_items s_regions s_styles].
    unfold region_kept, style_kept.
    rewrite !filter_twice. reflexivity.
Qed.

(** *** [removeStyling] *)

Definition texts (item : StyledItem) : list (list jsstring) :=
  List.map (fun line => List.map sli_text (sl_items line)) (si_lines item).

Definition unstyled_line_item (lineItem : StyledLineItem) : Prop :=
  sli_inlineStyle lineItem = None /\ sli_style lineItem = None.

Definition unstyled (item : StyledItem) : Prop :=
  si_region item = None /\ si_style item = None /\ si_inlineStyle item = None
  /\ Forall (fun line => Forall unstyled_line_item (sl_items line)) (si_lines item).

Definition same_cue (a b : StyledItem) : Prop :=
  si_index a = si_index b /\ si_startAt a = si_startAt b /\ si_endAt a = si_endAt b
  /\ texts a = texts b.

Lemma clear_item_same item : same_cue item (clear_item item).
Proof.
  unfold same_cue, clear_item, texts. cbn [si_index si_startAt si_endAt si_lines].
  repeat apply conj; try reflexivity.
  rewrite map_map. apply map_ext. intros line. unfold clear_line. cbn [sl_items].
  rewrite map_map. now apply map_ext.
Qed.

Lemma clear_item_unstyled item : unstyled (clear_item item).
Proof.
  unfold unstyled, clear_item. cbn [si_region si_style si_inlineStyle si_lines].
  repeat apply conj; try reflexivity.
  apply Forall_map, Forall_forall. intros line _. unfold clear_line. cbn [sl_items].
  apply Forall_map, Forall_forall. intros li _. now split.
Qed.

Lemma clear_item_twice item : clear_item (clear_item item) = clear_item item.
Proof.
  unfold clear_item. cbn [si_index si_startAt si_endAt si_lines]. f_equal.
  rewrite map_map. apply map_ext. intros line. unfold clear_line. cbn [sl_items].
  f_equal. rewrite map_map. now apply map_ext.
Qed.

(** X11: [removeStyling] leaves the cues as they are (index, times and the
    text of every line item, item by item) and leaves no reference to a
    style or region anywhere: the maps are empty and every item and line
    item is without style.  There is then nothing left for [optimize] or
    for a second [removeStyling] to do. *)
Theorem removeStyling_plain (s : StyledSubtitles) :
  Forall2 same_cue (s_items s) (s_items (removeStyling s))
  /\ Forall unstyled (s_items (removeStyling s))
  /\ s_regions (removeStyling s) = [] /\ s_styles (removeStyling s) = []
  /\ optimize (removeStyling s) = removeStyling s
  /\ removeStyling (removeStyling s) = removeStyling s.
Proof.
  unfold removeStyling. cbn [s_items s_regions s_styles].
  split.
  { induction (s_items s) as [|item l IH]; cbn [List.map]; constructor;
      [apply clear_item_same | exact IH]. }
  split.
  { apply Forall_map, Forall_forall. intros item _. apply clear_item_unstyled. }
  split; [reflexivity|]. split; [reflexivity|]. split.
  - unfold optimize. cbn [s_items].
    destruct (List.map clear_item (s_items s)) as [|x l] eqn:E; [reflexivity|].
    rewrite removeUnused_eq. cbn [s_items s_regions s_styles filter]. reflexivity.
  - f_equal. rewrite map_map. apply map_ext, clear_item_twice.
Qed.

End StylingFacts.


(* ====================================================================== *)
(** * SubRip: what is written is read back                                 *)
(* ====================================================================== *)

Module SrtFileFacts.
Import Scanner Srt Html HtmlFacts HtmlMoreFacts JsStringFacts JsIntFacts.
Import DurationLaws LineFacts SrtTextFacts TimelineFacts.
Local Open Scope N_scope.

(** *** Strings without white space at their ends *)

(** A string that is not empty and that [trim] leaves as it is. *)
Definition solid (s : jsstring) : Prop := s <> [] /\ trim s = s.

Lemma trimStart_length s : (length (trimStart s) <= length s)%nat.
Proof.
  induction s as [|c s IH]; cbn; [lia|].
  destruct (isWhiteSpace c); cbn; lia.
Qed.

Lemma trimStart_same_length s : length (trimStart s) = length s -> trimStart s = s.
Proof.
  destruct s as [|c s]; [reflexivity|]. cbn.
  destruct (isWhiteSpace c); [|reflexivity].
  pose proof (trimStart_length s). cbn. lia.
Qed.

Lemma trim_fixed s : trim s = s -> trimStart s = s /\ trimStart (rev s) = rev s.
Proof.
  unfold trim, trimEnd. intros H.
  assert (Hlen : length (trimStart s) = length s).
  { apply Nat.le_antisymm; [apply trimStart_length|].
    rewrite <- H at 1. rewrite length_rev.
    etransitivity; [apply trimStart_length|]. now rewrite length_rev. }
  apply trimStart_same_length in Hlen. rewrite Hlen in H.
  split; [exact Hlen|].
  rewrite <- H at 2. now rewrite rev_involutive.
Qed.

Lemma trimStart_head_solid (c : char) m :
  trimStart (c :: m) = c :: m -> isWhiteSpace c = false.
Proof.
  cbn. destruct (isWhiteSpace c); [|reflexivity].
  intros H. pose proof (trimStart_length m) as Hl. rewrite H in Hl. cbn in Hl. lia.
Qed.

Lemma solid_head s : solid s -> exists (c : char) m, s = c :: m /\ isWhiteSpace c = false.
Proof.
  intros [Hne H]. apply trim_fixed in H. destruct H as [H _].
  destruct s as [|c m]; [contradiction|].
  exists c, m. split; [reflexivity|]. exact (@trimStart_head_solid c m H).
Qed.

Lemma solid_last s : solid s -> exists m (d : char), s = m ++ [d] /\ isWhiteSpace d = false.
Proof.
  intros [Hne H]. apply trim_fixed in H. destruct H as [_ H].
  destruct (rev s) as [|d m] eqn:E.
  - apply (f_equal (@rev char)) in E. rewrite rev_involutive in E. contradiction.
  - exists (rev m), d. split.
    + apply (f_equal (@rev char)) in E. rewrite rev_involutive in E. exact E.
    + exact (@trimStart_head_solid d m H).
Qed.

Definition spaces (ws : jsstring) : Prop := Forall (fun x => isWhiteSpace x = true) ws.

Lemma trimStart_spaces ws s : spaces ws -> trimStart (ws ++ s) = trimStart s.
Proof.
  induction 1 as [|x ws Hx _ IH]; [reflexivity|].
  cbn. now rewrite Hx.
Qed.

Lemma trimEnd_last m (d : char) ws :
  isWhiteSpace d = false -> spaces ws -> trimEnd (m ++ d :: ws) = m ++ [d].
Proof.
  intros Hd Hws. unfold trimEnd.
  rewrite rev_app_distr. cbn [rev]. rewrite <- !app_assoc.
  rewrite trimStart_spaces by (now apply Forall_rev).
  cbn [app trimStart]. rewrite Hd. cbn [rev]. now rewrite rev_involutive.
Qed.

Lemma trim_edges (c d : char) mid :
  isWhiteSpace c = false -> isWhiteSpace d = false ->
  trim (c :: mid ++ [d]) = c :: mid ++ [d].
Proof.
  intros Hc Hd. unfold trim. cbn [trimStart]. rewrite Hc.
  change (c :: mid ++ [d]) with ((c :: mid) ++ [d]).
  now apply trimEnd_last; [|constructor].
Qed.

Lemma solid_edges (c d : char) mid s :
  isWhiteSpace c = false -> isWhiteSpace d = false ->
  (s = [c] \/ s = c :: mid ++ [d]) -> solid s.
Proof.
  intros Hc Hd [-> | ->]; split; try discriminate.
  - unfold trim, trimEnd. cbn. rewrite Hc. cbn. now rewrite Hc.
  - now apply trim_edges.
Qed.

Lemma no_space_solid s : no_space s -> s <> [] -> solid s.
Proof. intros Hs Hne. split; [exact Hne | now apply trim_no_space]. Qed.

(** *** What [escapeHTML] keeps *)

Definition escapable (c : char) : bool := (c =? ch "&") || (c =? ch "<") || (c =? nbsp).

Lemma escape_cases (c : char) s :
  (escapable c = false /\ escapeHTML (c :: s) = c :: escapeHTML s)
  \/ (c = ch "&" /\ escapeHTML (c :: s) = lit "&amp;" ++ escapeHTML s)
  \/ (c = ch "<" /\ escapeHTML (c :: s) = lit "&lt;" ++ escapeHTML s)
  \/ (c = nbsp /\ escapeHTML (c :: s) = lit "&nbsp;" ++ escapeHTML s).
Proof.
  rewrite escape_step. unfold escapable.
  destruct (N.eqb_spec c (ch "&")) as [->|Hamp]; [right; left; now split|].
  destruct (N.eqb_spec c (ch "<")) as [->|Hlt]; [right; right; left; now split|].
  destruct (N.eqb_spec c nbsp) as [->|Hnb]; [right; right; right; now split|].
  left. now split.
Qed.

Lemma escapeHTML_app a b : escapeHTML (a ++ b) = escapeHTML a ++ escapeHTML b.
Proof.
  induction a as [|c a IH]; [reflexivity|].
  cbn [app]. rewrite !escape_step, IH. now rewrite app_assoc.
Qed.

Lemma escapeHTML_solid t : solid t -> solid (escapeHTML t).
Proof.
  intros Ht.
  destruct (solid_head Ht) as (c & m & E & Hc).
  destruct (solid_last Ht) as (m' & d & E' & Hd).
  assert (Hhead : exists (c' : char) r, escapeHTML t = c' :: r /\ isWhiteSpace c' = false).
  { rewrite E.
    destruct (escape_cases c m) as [[_ ->]|[[_ ->]|[[_ ->]|[_ ->]]]];
      cbn [lit List.map String.list_ascii_of_string app];
      do 2 eexists; (split; [reflexivity|]); first [exact Hc | reflexivity]. }
  assert (Hlast : exists r (d' : char), escapeHTML t = r ++ [d'] /\ isWhiteSpace d' = false).
  { rewrite E', escapeHTML_app.
    destruct (escape_cases d []) as [[_ ->]|[[_ ->]|[[_ ->]|[_ ->]]]].
    - exists (escapeHTML m'), d. now split.
    - exists (escapeHTML m' ++ lit "&amp"), (ch ";"). rewrite <- app_assoc. now split.
    - exists (escapeHTML m' ++ lit "&lt"), (ch ";"). rewrite <- app_assoc. now split.
    - exists (escapeHTML m' ++ lit "&nbsp"), (ch ";"). rewrite <- app_assoc. now split. }
  destruct Hhead as (c' & r & Er & Hc'). destruct Hlast as (r' & d' & Er' & Hd').
  split; [rewrite Er; discriminate|].
  unfold trim. rewrite Er. cbn [trimStart]. rewrite Hc'. rewrite <- Er, Er'.
  now apply trimEnd_last; [|constructor].
Qed.

Lemma escapeHTML_plain_line t : plain_line t -> plain_line (escapeHTML t).
Proof.
  induction 1 as [|c t Hc _ IH]; [constructor|].
  destruct (escape_cases c t) as [[_ E]|[[_ E]|[[_ E]|[_ E]]]];
    unfold char in E; rewrite E;
    repeat (constructor; [first [exact Hc | split; discriminate]|]); exact IH.
Qed.

Definition arrow : jsstring := SRT_TIME_BOUNDARIES_SEPARATOR.

Lemma startsWith_escaped p t :
  Forall (fun d => escapable d = false) p ->
  startsWith p (escapeHTML t) = startsWith p t.
Proof.
  intros Hp. revert t. induction Hp as [|d p Hd _ IH]; intros t; [reflexivity|].
  destruct t as [|c t]; [reflexivity|].
  assert (Hamp : (d =? ch "&") = false).
  { unfold escapable in Hd. now destruct (d =? ch "&"). }
  destruct (escape_cases c t) as [[_ ->]|[[-> ->]|[[-> ->]|[-> ->]]]];
    cbn [startsWith app lit List.map String.list_ascii_of_string].
  - now rewrite IH.
  - now rewrite !Hamp.
  - rewrite Hamp. unfold escapable in Hd.
    destruct (d =? ch "<"); [|reflexivity]. now rewrite orb_true_r in Hd.
  - rewrite Hamp. unfold escapable in Hd.
    destruct (d =? nbsp); [|reflexivity]. now rewrite !orb_true_r in Hd.
Qed.

Lemma includes_skip (x : char) s : x <> ch "-" -> includes arrow (x :: s) = includes arrow s.
Proof.
  intros Hx. cbn [includes]. unfold arrow, SRT_TIME_BOUNDARIES_SEPARATOR at 1.
  cbn [lit List.map String.list_ascii_of_string startsWith].
  destruct (N.eqb_spec (ch "-") x) as [E|_]; [congruence|]. reflexivity.
Qed.

Lemma includes_escaped t : includes arrow (escapeHTML t) = includes arrow t.
Proof.
  induction t as [|c t IH]; [reflexivity|].
  destruct (escape_cases c t) as [[Hc E]|[[-> ->]|[[-> ->]|[-> ->]]]].
  - rewrite E. cbn [includes]. rewrite IH. f_equal.
    rewrite <- E. apply startsWith_escaped. repeat constructor.
  - cbn [lit List.map String.list_ascii_of_string app].
    rewrite !includes_skip by discriminate. exact IH.
  - cbn [lit List.map String.list_ascii_of_string app].
    rewrite !includes_skip by discriminate. exact IH.
  - cbn [lit List.map String.list_ascii_of_string app].
    rewrite !includes_skip by discriminate. exact IH.
Qed.

(** *** The timestamps as written *)

(** The code units of a written timestamp: digits, colon and comma. *)
Definition clock_char (c : char) : Prop := c = ch "," \/ 48 <= c <= 58.

Definition clock_text (s : jsstring) : Prop := Forall clock_char s /\ s <> [].

Lemma all_digits_clock s : all_digits s -> Forall clock_char s.
Proof.
  intros Hs. eapply Forall_impl; [|exact Hs].
  intros c Hc. apply isDigit_range in Hc. right. lia.
Qed.

Lemma formatSRTDuration_clock d : (0 <= d)%Z -> clock_text (formatSRTDuration d).
Proof.
  intros Hd. unfold formatSRTDuration. change (lit ",") with [ch ","].
  destruct (@formatDuration_fields_any d (ch ",") 3 Hd (or_intror eq_refl))
    as (H & M & S & F & E & [HH HHne] & [HM _] & [HS _] & HF & _).
  rewrite E. split.
  - repeat (apply Forall_app; split); try (now apply all_digits_clock).
    + constructor; [right; cbn; lia | constructor].
    + constructor; [right; cbn; lia | constructor].
    + constructor; [now left | now apply all_digits_clock].
  - destruct H; [contradiction | discriminate].
Qed.

Lemma clock_char_solid (c : char) : clock_char c -> isWhiteSpace c = false.
Proof.
  intros [->|Hc]; [reflexivity|]. unfold isWhiteSpace.
  repeat match goal with
         | |- context [?a <=? ?b] => destruct (N.leb_spec a b); try lia
         | |- context [?a =? ?b] => destruct (N.eqb_spec a b); try lia
         end;
  reflexivity.
Qed.

Lemma clock_no_space s : Forall clock_char s -> no_space s.
Proof. intros Hs. eapply Forall_impl; [|exact Hs]. apply clock_char_solid. Qed.

Lemma clock_avoids (x : char) s : ~ clock_char x -> Forall clock_char s -> avoids x s.
Proof.
  intros Hx Hs. eapply Forall_impl; [|exact Hs].
  intros c Hc E. subst. contradiction.
Qed.

Lemma not_clock (x : char) : x <> ch "," -> ~ (48 <= x <= 58) -> ~ clock_char x.
Proof. intros H1 H2 [H|H]; contradiction. Qed.

Lemma clock_plain_line s : Forall clock_char s -> plain_line s.
Proof.
  intros Hs. eapply Forall_impl; [|exact Hs].
  intros c [->|Hc]; split; try discriminate; lia.
Qed.

Lemma clock_solid s : clock_text s -> solid s.
Proof. intros [Hs Hne]. apply no_space_solid; [now apply clock_no_space | exact Hne]. Qed.

Lemma srt_time_reads_back d :
  (0 <= d)%Z -> parseSRTDuration (formatSRTDuration d) = Normal d.
Proof.
  intros Hd. unfold parseSRTDuration, formatSRTDuration.
  cbn [parseSRTDuration_from].
  change (lit ",") with [ch ","].
  rewrite (@parseDuration_formatDuration_any d (ch ",") 3 Hd (or_intror eq_refl)
             ltac:(cbn; lia) ltac:(discriminate)).
  change (10 ^ (3 - 3))%Z with 1%Z. rewrite Z.div_1_r. f_equal. lia.
Qed.

(** *** The line of the time boundaries *)

Definition time_line (s e : Z) : jsstring :=
  formatSRTDuration s ++ lit " " ++ SRT_TIME_BOUNDARIES_SEPARATOR ++ lit " "
  ++ formatSRTDuration e.

Lemma includes_arrow a b : includes arrow (a ++ arrow ++ b) = true.
Proof.
  induction a as [|c a IH]; cbn [app includes].
  - reflexivity.
  - rewrite IH. apply orb_true_r.
Qed.

Lemma split_arrow_segment a cur rest :
  avoids (ch "-") a ->
  split_scan arrow 0 cur (a ++ rest) = split_scan arrow 0 (rev a ++ cur) rest.
Proof.
  intros Ha. revert cur. induction Ha as [|c a Hc _ IH]; intros cur; [reflexivity|].
  cbn [app split_scan]. unfold arrow at 1, SRT_TIME_BOUNDARIES_SEPARATOR at 1.
  cbn [lit List.map String.list_ascii_of_string startsWith].
  destruct (N.eqb_spec (ch "-") c) as [E|_]; [congruence|].
  cbn [andb]. rewrite IH. cbn [rev]. now rewrite <- app_assoc.
Qed.

Lemma split_arrow a b :
  avoids (ch "-") a -> avoids (ch "-") b -> split arrow (a ++ arrow ++ b) = [a; b].
Proof.
  intros Ha Hb. change (split arrow (a ++ arrow ++ b))
    with (split_scan arrow 0 [] (a ++ arrow ++ b)).
  rewrite split_arrow_segment by assumption.
  rewrite app_nil_r.
  change (split_scan arrow 0 (rev a) (arrow ++ b))
    with (rev (rev a) :: split_scan arrow 0 [] b).
  rewrite rev_involutive. f_equal.
  rewrite <- (app_nil_r b) at 1. rewrite split_arrow_segment by assumption.
  cbn [split_scan]. now rewrite app_nil_r, rev_involutive.
Qed.

Lemma trim_pad x ws1 ws2 :
  solid x -> spaces ws1 -> spaces ws2 -> trim (ws1 ++ x ++ ws2) = x.
Proof.
  intros Hx H1 H2. unfold trim. rewrite trimStart_spaces by assumption.
  destruct (solid_head Hx) as (c & m & E & Hc).
  destruct (solid_last Hx) as (m' & d & E' & Hd).
  rewrite E at 1. cbn [app trimStart]. rewrite Hc.
  change (c :: m ++ ws2) with ((c :: m) ++ ws2). rewrite <- E, E', <- app_assoc.
  now apply trimEnd_last.
Qed.

Lemma match_spaces_solid (c : char) t : isWhiteSpace c = false -> match_spaces (c :: t) = None.
Proof. intros Hc. unfold match_spaces. cbn [JsInt.takeWhile]. now rewrite Hc. Qed.

Lemma split_spaces_segment cur a rest :
  no_space a ->
  split_regex_scan match_spaces 0 cur (a ++ rest)
  = split_regex_scan match_spaces 0 (rev a ++ cur) rest.
Proof.
  intros Ha. revert cur. induction Ha as [|c a Hc _ IH]; intros cur; [reflexivity|].
  cbn [app split_regex_scan]. rewrite match_spaces_solid by assumption.
  rewrite IH. cbn [rev]. now rewrite <- app_assoc.
Qed.

Lemma split_spaces_none x : no_space x -> split_regex match_spaces x = [x].
Proof.
  intros Hx. unfold split_regex. rewrite <- (app_nil_r x) at 1.
  rewrite split_spaces_segment by assumption.
  cbn [split_regex_scan]. now rewrite app_nil_r, rev_involutive.
Qed.

Section TimeLine.

Variables s e : Z.
Hypothesis Hs : (0 <= s)%Z.
Hypothesis He : (0 <= e)%Z.

Let A := formatSRTDuration s.
Let B := formatSRTDuration e.

Lemma time_line_parts : time_line s e = (A ++ lit " ") ++ arrow ++ (lit " " ++ B).
Proof. unfold time_line, A, B, arrow. now rewrite <- !app_assoc. Qed.

Lemma time_line_solid : solid (time_line s e).
Proof.
  destruct (clock_solid (formatSRTDuration_clock Hs)) as [HAne HA].
  pose proof (clock_solid (formatSRTDuration_clock He)) as HB.
  destruct (solid_head (conj HAne HA)) as (c & m & E & Hc).
  destruct (solid_last HB) as (m' & d & E' & Hd).
  unfold time_line. rewrite E, E'.
  eapply (@solid_edges c d (m ++ lit " " ++ SRT_TIME_BOUNDARIES_SEPARATOR ++ lit " " ++ m'));
    [exact Hc | exact Hd |].
  right. cbn [app]. now rewrite <- !app_assoc.
Qed.

Lemma time_line_plain : plain_line (time_line s e).
Proof.
  unfold time_line.
  apply Forall_app. split;
    [apply clock_plain_line; apply formatSRTDuration_clock; assumption|].
  repeat (constructor; [split; discriminate|]).
  apply clock_plain_line. apply formatSRTDuration_clock. assumption.
Qed.

Lemma time_line_split :
  split SRT_TIME_BOUNDARIES_SEPARATOR (time_line s e) = [A ++ lit " "; lit " " ++ B].
Proof.
  rewrite time_line_parts. apply split_arrow.
  - apply avoids_app; [|repeat constructor; discriminate].
    apply clock_avoids; [|apply formatSRTDuration_clock; exact Hs].
    apply not_clock; [discriminate | cbn; lia].
  - apply avoids_app; [repeat constructor; discriminate|].
    apply clock_avoids; [|apply formatSRTDuration_clock; exact He].
    apply not_clock; [discriminate | cbn; lia].
Qed.

Lemma time_line_start : trim (A ++ lit " ") = A.
Proof.
  apply (@trim_pad A [] (lit " ")).
  - apply clock_solid, formatSRTDuration_clock, Hs.
  - constructor.
  - repeat constructor.
Qed.

Lemma time_line_end : trim (lit " " ++ B) = B.
Proof.
  rewrite <- (app_nil_r B) at 1.
  apply (@trim_pad B (lit " ") []).
  - apply clock_solid, formatSRTDuration_clock, He.
  - repeat constructor.
  - constructor.
Qed.

Lemma read_time_line (i : Z) n cur out prev :
  lines cur = prev ++ [mkLine [mkLineItem None (toString i)]] ->
  read_line (time_line s e) (mkReader n cur empty_style out false)
  = Normal (mkReader (n + 1) (mkItem (Some i) s e []) empty_style
              (push_if_content
                 (mkItem (index cur) (startAt cur) (endAt cur) (pop_blank_lines prev))
                 out)
              false).
Proof.
  intros Hlines. unfold read_line.
  cbn [lineNum currentItem styleAttrs read_items tainted].
  destruct time_line_solid as [_ Htrim]. rewrite Htrim.
  assert (Hinc : includes SRT_TIME_BOUNDARIES_SEPARATOR (time_line s e) = true).
  { rewrite time_line_parts. apply includes_arrow. }
  rewrite Hinc, Hlines, last_item_snoc, removelast_snoc.
  cbn [line_items List.map text join].
  assert (Hi : parseInt (toString i) = Some i) by apply parseInt_toString.
  assert (Hne : toString i <> []).
  { intros E. rewrite E in Hi. discriminate Hi. }
  destruct (toString i) as [|c r] eqn:Ei; [contradiction|].
  rewrite Hi.
  rewrite time_line_split.
  cbn [length Nat.ltb Nat.leb nth].
  rewrite time_line_start, time_line_end.
  unfold parse_boundary_time. fold A B.
  unfold A at 1. rewrite (srt_time_reads_back Hs). cbn [bind].
  rewrite split_spaces_none
    by (apply clock_no_space; apply formatSRTDuration_clock; exact He).
  cbn [nth]. unfold B. rewrite (srt_time_reads_back He). cbn [bind orb].
  reflexivity.
Qed.

End TimeLine.

(** *** Text lines *)

Lemma read_text_line w n cur out :
  solid w -> includes arrow w = false -> avoids (ch "<") w ->
  read_line w (mkReader n cur empty_style out false)
  = Normal (mkReader (n + 1)
              (mkItem (index cur) (startAt cur) (endAt cur)
                 (lines cur ++ [mkLine [mkLineItem None (unescapeHTML w)]]))
              empty_style out false).
Proof.
  intros [Hne Htrim] Hinc Hlt. unfold read_line.
  cbn [lineNum currentItem styleAttrs read_items tainted].
  rewrite Htrim. unfold arrow in Hinc. rewrite Hinc.
  rewrite parseSRTText_plain by (rewrite ?Htrim; assumption).
  reflexivity.
Qed.

Lemma read_blank_line n cur out :
  read_line [] (mkReader n cur empty_style out false)
  = Normal (mkReader (n + 1)
              (mkItem (index cur) (startAt cur) (endAt cur)
                 (lines cur ++ [mkLine [mkLineItem None []]]))
              empty_style out false).
Proof. reflexivity. Qed.

(** *** Blank lines *)

Definition blank : Line := mkLine [mkLineItem None []].

Definition filled (l : Line) : Prop := blank_line l = false.

Lemma pop_blank_filled ls : Forall filled ls -> pop_blank_lines ls = ls.
Proof.
  intros Hls. unfold pop_blank_lines. apply Forall_rev in Hls.
  destruct (rev ls) as [|l r] eqn:E.
  - cbn. apply (f_equal (@rev Line)) in E. now rewrite rev_involutive in E.
  - cbn [dropWhile]. apply Forall_inv in Hls. unfold filled in Hls. rewrite Hls.
    rewrite <- E. apply rev_involutive.
Qed.

Lemma pop_blank_after ls : Forall filled ls -> pop_blank_lines (ls ++ [blank]) = ls.
Proof.
  intros Hls. unfold pop_blank_lines. rewrite rev_app_distr.
  cbn [rev app dropWhile]. change (blank_line blank) with true. cbv iota.
  now apply pop_blank_filled.
Qed.

(** *** Cues and the lines that are written for them *)

(** A text that can stand on a line of its own: not empty, no white space
    at its ends, no line break and no arrow in it. *)
Definition cue_text (t : jsstring) : Prop :=
  solid t /\ plain_line t /\ includes SRT_TIME_BOUNDARIES_SEPARATOR t = false.

Definition text_line (l : Line) : Prop :=
  exists t, l = mkLine [mkLineItem None t] /\ cue_text t.

(** A cue with times that are safe integers and not negative, with lines
    of one unstyled text each, and with at least one line unless it starts
    after zero. *)
Definition cue (it : Item Z) : Prop :=
  (0 <= startAt it <= MAX_SAFE_INTEGER)%Z /\ (0 <= endAt it <= MAX_SAFE_INTEGER)%Z
  /\ (lines it <> [] \/ (0 < startAt it)%Z)
  /\ Forall text_line (lines it).

(** The items with the indexes that the writer gives them. *)
Fixpoint renumber (i : Z) (l : list (Item Z)) : list (Item Z) :=
  match l with
  | [] => []
  | it :: rest =>
      mkItem (Some (i + 1)%Z) (startAt it) (endAt it) (lines it) :: renumber (i + 1) rest
  end.

Definition written_line (l : Line) : jsstring :=
  join [] (List.map lineItemToSRTString (line_items l)).

Definition cue_lines (i : Z) (it : Item Z) : list jsstring :=
  toString (i + 1) :: time_line (startAt it) (endAt it)
  :: List.map written_line (lines it).

Fixpoint file_body (i : Z) (l : list (Item Z)) : list jsstring :=
  match l with
  | [] => []
  | it :: rest =>
      cue_lines i it
      ++ match rest with
         | [] => []
         | _ :: _ => [] :: file_body (i + 1) rest
         end
  end.

Lemma text_line_filled l : text_line l -> filled l.
Proof.
  intros (t & -> & [Hne _] & _). unfold filled, blank_line.
  cbn [line_items forallb text]. destruct t; [contradiction | reflexivity].
Qed.

Lemma written_text_line t : written_line (mkLine [mkLineItem None t]) = escapeHTML t.
Proof.
  unfold written_line, lineItemToSRTString.
  cbn [line_items List.map join li_inlineStyle text truthy_string app].
  now rewrite app_nil_r.
Qed.

Lemma includes_none w : avoids (ch "-") w -> includes arrow w = false.
Proof.
  induction 1 as [|c w Hc _ IH]; [reflexivity|].
  now rewrite includes_skip.
Qed.

Lemma index_line (i : Z) :
  (0 <= i)%Z ->
  solid (toString (i + 1)) /\ plain_line (toString (i + 1))
  /\ includes arrow (toString (i + 1)) = false
  /\ avoids (ch "<") (toString (i + 1))
  /\ unescapeHTML (toString (i + 1)) = toString (i + 1).
Proof.
  intros Hi. destruct (@toString_nonneg (i + 1)%Z ltac:(lia)) as (Hd & Hne & _).
  pose proof (all_digits_clock Hd) as Hc.
  split; [apply clock_solid; now split|].
  split; [now apply clock_plain_line|].
  split; [apply includes_none, all_digits_avoids; [exact Hd | cbn; lia]|].
  split; [apply all_digits_avoids; [exact Hd | cbn; lia]|].
  apply unescapeHTML_no_entity, all_digits_avoids; [exact Hd | cbn; lia].
Qed.

(** *** Reading the lines of one cue *)

Lemma read_text_lines ls rest :
  Forall text_line ls ->
  forall n cur out,
  exists n',
    read_lines (List.map written_line ls ++ rest) (mkReader n cur empty_style out false)
    = read_lines rest
        (mkReader n' (mkItem (index cur) (startAt cur) (endAt cur) (lines cur ++ ls))
           empty_style out false).
Proof.
  induction 1 as [|l ls (t & -> & Ht & Hp & Ha) _ IH]; intros n cur out.
  - exists n. cbn [List.map app]. rewrite app_nil_r. now destruct cur.
  - cbn [List.map app read_lines]. rewrite written_text_line.
    rewrite read_text_line;
      [|now apply escapeHTML_solid
       |unfold arrow; now rewrite <- Ha; apply includes_escaped
       |apply escapeHTML_avoids].
    cbn [bind]. rewrite escaped_reads_back.
    destruct (IH (n + 1)%Z
                (mkItem (index cur) (startAt cur) (endAt cur)
                   (lines cur ++ [mkLine [mkLineItem None t]])) out) as (n' & E).
    exists n'. rewrite E. cbn [index startAt endAt lines].
    now rewrite <- app_assoc.
Qed.

Lemma read_cue i it rest :
  (0 <= i)%Z -> cue it ->
  forall n cur out,
  exists n',
    read_lines (cue_lines i it ++ rest) (mkReader n cur empty_style out false)
    = read_lines rest
        (mkReader n' (mkItem (Some (i + 1)%Z) (startAt it) (endAt it) (lines it))
           empty_style
           (push_if_content
              (mkItem (index cur) (startAt cur) (endAt cur) (pop_blank_lines (lines cur)))
              out)
           false).
Proof.
  intros Hi ([Hs _] & [He _] & _ & Hls) n cur out.
  destruct (index_line Hi) as (Hsolid & _ & Hinc & Hlt & Hun).
  unfold cue_lines. cbn [app read_lines].
  rewrite read_text_line by assumption. cbn [bind]. rewrite Hun.
  rewrite (@read_time_line (startAt it) (endAt it) Hs He (i + 1)%Z (n + 1)%Z _ out (lines cur))
    by reflexivity.
  cbn [bind index startAt endAt].
  destruct (@read_text_lines (lines it) rest Hls (n + 1 + 1)%Z
              (mkItem (Some (i + 1)%Z) (startAt it) (endAt it) []) 
              (push_if_content
                 (mkItem (index cur) (startAt cur) (endAt cur) (pop_blank_lines (lines cur)))
                 out)) as (n' & E).
  exists n'. rewrite E. reflexivity.
Qed.

(** *** Reading the whole text *)

(** What [readFromSRT] returns once the lines are read. *)
Definition closing (st : reader) : list (Item Z) :=
  let item := currentItem st in
  if (0 <? length (lines item))%nat || (startAt item >? 0)%Z then
    read_items st
      ++ [mkItem (index item) (startAt item) (endAt item) (pop_blank_lines (lines item))]
  else read_items st.

Lemma cue_has_content it (idx : option Z) ls :
  cue it ->
  push_if_content (mkItem idx (startAt it) (endAt it) (lines it)) ls
  = ls ++ [mkItem idx (startAt it) (endAt it) (lines it)].
Proof.
  intros (_ & _ & [Hne|Hpos] & _). all: unfold push_if_content; cbn [lines startAt].
  - destruct (lines it); [contradiction | reflexivity].
  - replace (startAt it >? 0)%Z with true by (symmetry; apply Z.gtb_lt; lia).
    now rewrite orb_true_r.
Qed.

Lemma read_body l :
  Forall cue l -> l <> [] ->
  forall i n cur out, (0 <= i)%Z ->
  exists st,
    read_lines (file_body i l) (mkReader n cur empty_style out false) = Normal st
    /\ tainted st = false
    /\ closing st
       = push_if_content
           (mkItem (index cur) (startAt cur) (endAt cur) (pop_blank_lines (lines cur))) out
         ++ renumber i l.
Proof.
  induction 1 as [|it l Hit Hl IH]; intros Hne i n cur out Hi; [contradiction|].
  pose proof Hit as ([Hs _] & [He _] & Hcontent & Hls).
  assert (Hfilled : Forall filled (lines it)).
  { eapply Forall_impl; [|exact Hls]. apply text_line_filled. }
  destruct l as [|it2 r].
  - cbn [file_body renumber].
    destruct (@read_cue i it [] Hi Hit n cur out) as (n' & E).
    rewrite E. cbn [read_lines]. eexists. split; [reflexivity|]. split; [reflexivity|].
    unfold closing. cbn [currentItem read_items lines startAt endAt index].
    rewrite (pop_blank_filled Hfilled).
    pose proof (@cue_has_content it (Some (i + 1)%Z)
                  (push_if_content
                     (mkItem (index cur) (startAt cur) (endAt cur)
                        (pop_blank_lines (lines cur))) out) Hit) as Hc.
    unfold push_if_content at 1 in Hc. cbn [lines startAt] in Hc. exact Hc.
  - change (file_body i (it :: it2 :: r))
      with (cue_lines i it ++ [] :: file_body (i + 1) (it2 :: r)).
    destruct (@read_cue i it ([] :: file_body (i + 1) (it2 :: r)) Hi Hit n cur out)
      as (n' & E).
    rewrite E. cbn [read_lines]. rewrite read_blank_line. cbn [bind].
    cbn [index startAt endAt lines].
    destruct (IH ltac:(discriminate) (i + 1)%Z (n' + 1)%Z
                (mkItem (Some (i + 1)%Z) (startAt it) (endAt it) (lines it ++ [blank]))
                (push_if_content
                   (mkItem (index cur) (startAt cur) (endAt cur)
                      (pop_blank_lines (lines cur))) out)
                ltac:(lia)) as (st & Hread & Htaint & Hclose).
    exists st. split; [exact Hread|]. split; [exact Htaint|].
    rewrite Hclose. cbn [index startAt endAt lines].
    rewrite (pop_blank_after Hfilled).
    rewrite cue_has_content by assumption.
    cbn [renumber]. now rewrite <- app_assoc.
Qed.

(** *** The text that is written *)

Lemma terminated_app nl a b : terminated nl (a ++ b) = terminated nl a ++ terminated nl b.
Proof. unfold terminated. now rewrite map_app, concat_app. Qed.

Lemma itemToSRTString_lines i it :
  itemToSRTString i it = terminated [10] (cue_lines i it) ++ [10].
Proof.
  unfold itemToSRTString, cue_lines, terminated, time_line.
  cbn [List.map List.concat]. rewrite map_map.
  rewrite <- !app_assoc. reflexivity.
Qed.

Lemma write_items_body l :
  l <> [] -> forall i, write_items i l = terminated [10] (file_body i l) ++ [10].
Proof.
  induction l as [|it l IH]; intros Hne i; [contradiction|].
  destruct l as [|it2 r].
  - cbn [write_items file_body]. rewrite !app_nil_r. apply itemToSRTString_lines.
  - change (file_body i (it :: it2 :: r))
      with (cue_lines i it ++ [] :: file_body (i + 1) (it2 :: r)).
    cbn [write_items] in *. rewrite (IH ltac:(discriminate) (i + 1)%Z).
    rewrite itemToSRTString_lines, terminated_app.
    change (terminated [10] ([] :: file_body (i + 1) (it2 :: r)))
      with ([10] ++ terminated [10] (file_body (i + 1) (it2 :: r))).
    now rewrite <- !app_assoc.
Qed.

Lemma written_line_ok l :
  text_line l -> solid (written_line l) /\ plain_line (written_line l).
Proof.
  intros (t & -> & Ht & Hp & _). rewrite written_text_line.
  split; [now apply escapeHTML_solid | now apply escapeHTML_plain_line].
Qed.

Lemma cue_lines_plain i it :
  (0 <= i)%Z -> cue it -> Forall plain_line (cue_lines i it).
Proof.
  intros Hi ([Hs _] & [He _] & _ & Hls). unfold cue_lines.
  constructor; [apply (index_line Hi)|].
  constructor; [now apply time_line_plain|].
  apply Forall_map. eapply Forall_impl; [|exact Hls].
  intros l Hl. apply (written_line_ok Hl).
Qed.

Lemma file_body_plain l :
  Forall cue l -> forall i, (0 <= i)%Z -> Forall plain_line (file_body i l).
Proof.
  induction 1 as [|it l Hit Hl IH]; intros i Hi; [constructor|].
  cbn [file_body]. apply Forall_app. split; [now apply cue_lines_plain|].
  destruct l as [|it2 r]; [constructor|].
  constructor; [constructor|]. apply IH. lia.
Qed.

Lemma cue_lines_last i it :
  (0 <= i)%Z -> cue it -> exists pre w, cue_lines i it = pre ++ [w] /\ solid w.
Proof.
  intros Hi ([Hs _] & [He _] & _ & Hls). unfold cue_lines.
  destruct (lines it) as [|l0 r0] eqn:El.
  - exists [toString (i + 1)], (time_line (startAt it) (endAt it)).
    split; [reflexivity | now apply time_line_solid].
  - destruct (@exists_last _ (l0 :: r0) ltac:(discriminate)) as (ls & l & E).
    exists (toString (i + 1) :: time_line (startAt it) (endAt it)
            :: List.map written_line ls), (written_line l).
    rewrite E, map_app. split; [reflexivity|].
    rewrite E in Hls. apply Forall_app in Hls. destruct Hls as [_ Hl].
    apply Forall_inv in Hl. apply (written_line_ok Hl).
Qed.

Lemma file_body_last l :
  Forall cue l -> l <> [] ->
  forall i, (0 <= i)%Z -> exists pre w, file_body i l = pre ++ [w] /\ solid w.
Proof.
  induction 1 as [|it l Hit Hl IH]; intros Hne i Hi; [contradiction|].
  destruct l as [|it2 r].
  - cbn [file_body]. rewrite app_nil_r. now apply cue_lines_last.
  - destruct (IH ltac:(discriminate) (i + 1)%Z ltac:(lia)) as (pre & w & E & Hw).
    exists (cue_lines i it ++ [] :: pre), w. split; [|exact Hw].
    change (file_body i (it :: it2 :: r))
      with (cue_lines i it ++ [] :: file_body (i + 1) (it2 :: r)).
    rewrite E. now rewrite <- app_assoc.
Qed.

Lemma writeToSRT_body (s : Subtitles Z) :
  Forall cue (items s) -> items s <> [] ->
  writeToSRT s = Normal (BOM :: terminated [10] (file_body 0 (items s))).
Proof.
  intros Hcues Hne. unfold writeToSRT.
  destruct (items s) as [|it l] eqn:El; [contradiction|].
  rewrite write_items_body by discriminate.
  destruct (@file_body_last (it :: l) Hcues Hne 0%Z ltac:(lia)) as (pre & w & E & Hw).
  rewrite E. destruct (solid_last Hw) as (m & d & Ew & Hd).
  rewrite terminated_app.
  change (terminated [10] [w]) with ((w ++ [10]) ++ []).
  rewrite app_nil_r, Ew. f_equal.
  replace (BOM :: (terminated [10] pre ++ (m ++ [d]) ++ [10]) ++ [10])
    with ((BOM :: terminated [10] pre ++ m) ++ d :: [10; 10])
    by (cbn [app]; rewrite <- ?app_assoc; cbn [app]; rewrite <- ?app_assoc; reflexivity).
  rewrite trimEnd_last; [|exact Hd|repeat constructor].
  cbn [app]. rewrite <- ?app_assoc. cbn [app]. reflexivity.
Qed.

Lemma splitLines_body lines :
  Forall plain_line lines -> splitLines (terminated [10] lines) = lines.
Proof.
  intros Hl. unfold splitLines, pop_empty_last.
  rewrite split_terminated; [|now left|exact Hl].
  now rewrite last_item_snoc, removelast_snoc.
Qed.

(** X1: the SubRip writer and reader are inverse to each other on cues
    with plain text.  When every item has times that are safe integers and
    not negative, and lines of one unstyled text each (not empty, without
    white space at its ends, without line break and without arrow), and
    only items that start after zero are without lines, then
    [writeToSRT] returns a text from
    which [readFromSRT] returns the same items, each with the index the
    writer gave it; the same holds through [writeToString] and
    [readFromString] with the format name [srt]. *)
Theorem srt_round_trip (s : Subtitles Z) :
  items s <> [] -> Forall cue (items s) ->
  exists content,
    writeToSRT s = Normal content
    /\ readFromSRT content = Normal (mkSubtitles (renumber 0 (items s)))
    /\ Entry.writeToString s (lit "srt") = Normal content
    /\ Entry.readFromString content (lit "srt")
       = Normal (mkSubtitles (renumber 0 (items s))).
Proof.
  intros Hne Hcues.
  exists (BOM :: terminated [10] (file_body 0 (items s))).
  assert (Hw : writeToSRT s = Normal (BOM :: terminated [10] (file_body 0 (items s))))
    by now apply writeToSRT_body.
  assert (Hr : readFromSRT (BOM :: terminated [10] (file_body 0 (items s)))
               = Normal (mkSubtitles (renumber 0 (items s)))).
  { unfold readFromSRT.
    change (removeBOM (BOM :: terminated [10] (file_body 0 (items s))))
      with (terminated [10] (file_body 0 (items s))).
    rewrite splitLines_body by (apply file_body_plain; [exact Hcues | lia]).
    destruct (@read_body (items s) Hcues Hne 0%Z 0%Z new_item [] ltac:(lia))
      as (st & Hread & Htaint & Hclose).
    rewrite Hread. cbn [bind]. rewrite Htaint.
    unfold closing in Hclose. rewrite Hclose. reflexivity. }
  split; [exact Hw|]. split; [exact Hr|].
  unfold Entry.writeToString, Entry.readFromString.
  change (JsString.eqb (toLowerCase (lit "srt")) (lit "srt")) with true. cbv iota.
  split; [|exact Hr]. transitivity (writeToSRT s); [|exact Hw].
  destruct (items s); [contradiction | reflexivity].
Qed.

Lemma srt_round_trip_witness :
  let s := mkSubtitles
             [mkItem None 1000%Z 3000%Z [mkLine [mkLineItem None (lit "a < b & c")]];
              mkItem (Some 7%Z) 4000%Z 5000%Z []] in
  (items s <> [] /\ Forall cue (items s))
  /\ exists content,
       writeToSRT s = Normal content
       /\ readFromSRT content = Normal (mkSubtitles (renumber 0 (items s)))
       /\ Entry.writeToString s (lit "srt") = Normal content
       /\ Entry.readFromString content (lit "srt")
          = Normal (mkSubtitles (renumber 0 (items s))).
Proof.
  cbv zeta.
  assert (Hcues : Forall cue
            (items (mkSubtitles
               [mkItem None 1000%Z 3000%Z [mkLine [mkLineItem None (lit "a < b & c")]];
                mkItem (Some 7%Z) 4000%Z 5000%Z []]))).
  { cbn [items]. constructor; [|constructor; [|constructor]].
    - split; [split; vm_compute; discriminate|].
      split; [split; vm_compute; discriminate|]. split; [left; discriminate|].
      cbn [lines]. constructor; [|constructor].
      eexists. split; [reflexivity|].
      split; [split; [discriminate | reflexivity]|].
      split; [repeat (constructor; [split; discriminate|]); constructor | reflexivity].
    - split; [split; vm_compute; discriminate|].
      split; [split; vm_compute; discriminate|].
      split; [right; cbn; lia|]. constructor. }
  split; [split; [discriminate | exact Hcues]|].
  apply srt_round_trip; [discriminate | exact Hcues].
Defined.

End SrtFileFacts.


(* ====================================================================== *)
(** * WebVTT: the X-TIMESTAMP-MAP header                                   *)
(* ====================================================================== *)

Module WebVttFacts.
Import Scanner Duration WebVtt JsStringFacts JsIntFacts DurationLaws.
Local Open Scope N_scope.

(** *** Code units of the segments of [split], [join] and [trim] *)

Section Units.

Variable P : char -> Prop.

Lemma split_scan_units sep s :
  Forall P s -> forall skip cur, Forall P cur -> Forall (Forall P) (split_scan sep skip cur s).
Proof.
  induction 1 as [|c s Hc _ IH]; intros skip cur Hcur; cbn [split_scan].
  - constructor; [now apply Forall_rev | constructor].
  - destruct skip as [|k]; [|now apply IH].
    destruct (startsWith sep (c :: s)).
    + constructor; [now apply Forall_rev | apply IH; constructor].
    + apply IH. now constructor.
Qed.

Lemma split_units (c : char) s : Forall P s -> Forall (Forall P) (split [c] s).
Proof. intros Hs. unfold split. apply split_scan_units; [exact Hs | constructor]. Qed.

Lemma join_units sep parts :
  Forall P sep -> Forall (Forall P) parts -> Forall P (join sep parts).
Proof.
  intros Hsep. induction 1 as [|p parts Hp Hparts IH]; [constructor|].
  destruct parts as [|q parts]; [exact Hp|].
  change (join sep (p :: q :: parts)) with (p ++ sep ++ join sep (q :: parts)).
  apply Forall_app. split; [exact Hp|]. apply Forall_app. now split.
Qed.

Lemma removelast_units (parts : list jsstring) :
  Forall (Forall P) parts -> Forall (Forall P) (removelast parts).
Proof.
  induction 1 as [|x l Hx Hl IH]; [constructor|].
  cbn [removelast]. destruct l; [constructor | now constructor].
Qed.

Lemma trimStart_units s : Forall P s -> Forall P (trimStart s).
Proof.
  induction 1 as [|c s Hc Hs IH]; [constructor|].
  cbn [trimStart]. destruct (isWhiteSpace c); [exact IH | now constructor].
Qed.

Lemma trim_units s : Forall P s -> Forall P (trim s).
Proof.
  intros Hs. unfold trim, trimEnd.
  apply Forall_rev, trimStart_units, Forall_rev, trimStart_units, Hs.
Qed.

End Units.

(** The segments of [split] on a one-unit separator are without it. *)
Lemma split_scan_segments (c : char) s :
  forall cur, avoids c cur -> Forall (avoids c) (split_scan [c] 0 cur s).
Proof.
  induction s as [|x s IH]; intros cur Hcur; cbn [split_scan].
  - constructor; [now apply Forall_rev | constructor].
  - cbn [startsWith length Nat.sub]. destruct (N.eqb_spec c x) as [->|Hx]; cbn [andb].
    + constructor; [now apply Forall_rev | apply IH; constructor].
    + apply IH. constructor; [congruence | exact Hcur].
Qed.

Lemma split_segments (c : char) s : Forall (avoids c) (split [c] s).
Proof. unfold split. apply split_scan_segments. constructor. Qed.

(** *** A time without colon is not read *)

Lemma parseDuration_no_colon (v : jsstring) (digits : Z) :
  avoids (ch ":") v -> is_throw (parseDuration v (lit ".") digits) = true.
Proof.
  intros Hv. unfold parseDuration.
  assert (Hparts : Forall (avoids (ch ":")) (split (lit ".") v))
    by (apply (@split_units _ (ch ".")); exact Hv).
  assert (Hone : forall t, avoids (ch ":") t -> split (lit ":") (trim t) = [trim t]).
  { intros t Ht. apply (@split_one_last (ch ":")). now apply trim_units. }
  destruct (2 <=? length (split (lit ".") v))%nat.
  - destruct (3 <? length (trim (last (split (lit ".") v) [])))%nat; [reflexivity|].
    destruct (parseInt (trim (last (split (lit ".") v) []))); [|reflexivity].
    rewrite Hone; [reflexivity|].
    apply join_units; [repeat constructor; discriminate|].
    now apply removelast_units.
  - now rewrite Hone.
Qed.

(** *** The header *)

Lemma timestamp_map_parts_local parts :
  forall m r, timestamp_map_parts parts 0 m = Normal r -> local r = 0%Z.
Proof.
  induction parts as [|part parts IH]; intros m r; cbn [timestamp_map_parts].
  - intros [= <-]. reflexivity.
  - pose proof (@split_segments (ch ":") part) as Hseg.
    change [ch ":"] with (lit ":") in Hseg. revert Hseg.
    destruct (split (lit ":") part) as [|[|k key] [|[|x val] more]]; cbn [firstn];
      intros Hseg; try discriminate.
    apply Forall_inv_tail in Hseg. apply Forall_inv in Hseg.
    destruct (JsString.eqb (trim (toLowerCase (k :: key))) (lit "local")).
    + unfold parseWebVTTDuration.
      pose proof (@parseDuration_no_colon (x :: val) 3 Hseg) as Ht.
      destruct (parseDuration (x :: val) (lit ".") 3) as [z|err|];
        [discriminate Ht | cbn [bind]; discriminate | discriminate Ht].
    + destruct (JsString.eqb (trim (toLowerCase (k :: key))) (lit "mpegts")).
      * destruct (parseInt (x :: val)); [apply IH | discriminate].
      * apply IH.
Qed.

Definition header_char (c : char) : Prop := isDigit c = true \/ c = ch "-".

Lemma toString_header (n : Z) : Forall header_char (toString n).
Proof.
  assert (H : forall u, Forall header_char (uint_chars u)).
  { intros u. eapply Forall_impl; [|apply uint_chars_digits]. intros c Hc. now left. }
  destruct n; cbn [toString]; [apply H | apply H|].
  constructor; [now right | apply H].
Qed.

Lemma header_avoids (x : char) s :
  isDigit x = false -> x <> ch "-" -> Forall header_char s -> avoids x s.
Proof.
  intros Hd Hm Hs. eapply Forall_impl; [|exact Hs].
  intros c [Hc | Hc] E; subst; congruence.
Qed.

(** X5: the header as [formatWebVTTTimestampMap] writes it is never read
    back by [parseWebVTTTimestampMap].  The parser keeps only what stands
    between the first and the second colon of a part as the value, so the
    value of [LOCAL] is a time without colon, which [parseWebVTTDuration]
    refuses: whenever the parser returns, its local time is 0, and on the
    header written for a local time that is not negative it throws. *)
Theorem timestamp_map_local_lost :
  (forall line r, parseWebVTTTimestampMap line = Normal r -> local r = 0%Z)
  /\ (forall l m : Z,
        (0 <= l)%Z ->
        is_throw (parseWebVTTTimestampMap (formatWebVTTTimestampMap l m)) = true).
Proof.
  split.
  - intros line r. unfold parseWebVTTTimestampMap.
    destruct (length (split (lit "=") line) <=? 1)%nat; [discriminate|].
    apply timestamp_map_parts_local.
  - intros l m Hl. unfold parseWebVTTTimestampMap, formatWebVTTTimestampMap.
    unfold formatWebVTTDuration. change (lit ".") with [ch "."].
    destruct (@formatDuration_fields_any l (ch ".") 3 Hl (or_intror eq_refl))
      as (H & M & S & F & E & [HH HHne] & [HM _] & [HS _] & HF & _).
    rewrite E.
    pose proof (toString_header m) as Hm.
    assert (Hav : forall x : char,
               isDigit x = false -> x <> ch "-" -> x <> ch ":" -> x <> ch "." ->
               avoids x (H ++ lit ":" ++ M ++ lit ":" ++ S ++ ch "." :: F)).
    { intros x Hx1 Hx2 Hx3 Hx4.
      assert (Hd : forall s, all_digits s -> avoids x s).
      { intros s Hs. eapply Forall_impl; [|exact Hs]. intros c Hc Ec. subst. congruence. }
      apply avoids_app; [now apply Hd|]. apply avoids_cons; [congruence|].
      apply avoids_app; [now apply Hd|]. apply avoids_cons; [congruence|].
      apply avoids_app; [now apply Hd|]. apply avoids_cons; [congruence|].
      now apply Hd. }
    change (lit "=") with [ch "="].
    change (WEBVTT_TIMESTAMP_MAP_HEADER ++ lit "=LOCAL:"
            ++ (H ++ lit ":" ++ M ++ lit ":" ++ S ++ ch "." :: F)
            ++ lit ",MPEGTS:" ++ toString m)
      with (WEBVTT_TIMESTAMP_MAP_HEADER
            ++ ch "=" :: (lit "LOCAL:" ++ (H ++ lit ":" ++ M ++ lit ":" ++ S ++ ch "." :: F)
                          ++ lit ",MPEGTS:" ++ toString m)).
    rewrite split_one_more by (repeat constructor; discriminate).
    rewrite split_one_last.
    2:{ apply avoids_app; [repeat constructor; discriminate|].
        apply avoids_app; [apply Hav; [reflexivity | discriminate..]|].
        apply avoids_app; [repeat constructor; discriminate|].
        apply header_avoids; [reflexivity | discriminate | exact Hm]. }
    cbn [length Nat.leb nth].
    change (lit ",") with [ch ","].
    replace (lit "LOCAL:" ++ (H ++ lit ":" ++ M ++ lit ":" ++ S ++ ch "." :: F)
             ++ lit ",MPEGTS:" ++ toString m)
      with ((lit "LOCAL:" ++ H ++ lit ":" ++ M ++ lit ":" ++ S ++ ch "." :: F)
            ++ ch "," :: lit "MPEGTS:" ++ toString m)
      by (rewrite <- !app_assoc; reflexivity).
    rewrite split_one_more.
    2:{ apply avoids_app; [repeat constructor; discriminate|].
        apply Hav; [reflexivity | discriminate..]. }
    rewrite split_one_last.
    2:{ apply avoids_app; [repeat constructor; discriminate|].
        apply header_avoids; [reflexivity | discriminate | exact Hm]. }
    cbn [timestamp_map_parts].
    change (lit ":") with [ch ":"].
    change (lit "LOCAL:" ++ H ++ [ch ":"] ++ M ++ [ch ":"] ++ S ++ ch "." :: F)
      with (lit "LOCAL" ++ ch ":" :: (H ++ ch ":" :: (M ++ [ch ":"] ++ S ++ ch "." :: F))).
    rewrite split_one_more by (repeat constructor; discriminate).
    rewrite split_one_more by (apply all_digits_avoids; [exact HH | cbn; lia]).
    cbn [firstn].
    destruct H as [|h H]; [contradiction|].
    change (JsString.eqb (trim (toLowerCase (lit "LOCAL"))) (lit "local")) with true.
    cbv iota. unfold parseWebVTTDuration.
    pose proof (@parseDuration_no_colon (h :: H) 3
                  ltac:(apply all_digits_avoids; [exact HH | cbn; lia])) as Ht.
    destruct (parseDuration (h :: H) (lit ".") 3) as [z|err|];
      [discriminate Ht | reflexivity | discriminate Ht].
Qed.

End WebVttFacts.
